(** * The preview bundler of [src/utils.ts] and the file operations of
      [src/App.tsx], embedded in Rocq.

    JavaScript strings are sequences of 16-bit code units; they are modelled
    as lists of [N].  Objects used as dictionaries are modelled as property
    lists kept in the order in which [Object.entries] enumerates them. *)

From Stdlib Require Import String Ascii.
From Stdlib Require Import List NArith PeanoNat Bool Lia.
Import ListNotations.

Set Implicit Arguments.

Local Open Scope list_scope.
Local Open Scope N_scope.

(* ================================================================== *)
(** * JavaScript strings *)
(* ================================================================== *)

Definition jsstring := list N.

(** An ASCII literal as a JavaScript string. *)
Definition js (s : string) : jsstring :=
  List.map N_of_ascii (list_ascii_of_string s).

(** The double quote and a few other code units, named. *)
Definition DQ : N := 34.
Definition SQ : N := 39.
Definition dq : jsstring := [DQ].
Definition NL : jsstring := [10].

Fixpoint str_eqb (a b : jsstring) : bool :=
  match a, b with
  | [], [] => true
  | x :: a', y :: b' => (x =? y) && str_eqb a' b'
  | _, _ => false
  end.

(** [s.startsWith(p)] *)
Fixpoint startsWith (s p : jsstring) {struct p} : bool :=
  match p, s with
  | [], _ => true
  | x :: p', y :: s' => (x =? y) && startsWith s' p'
  | _ :: _, [] => false
  end.

(** [s.endsWith(p)] *)
Definition endsWith (s p : jsstring) : bool :=
  startsWith (rev s) (rev p).

(** [s.indexOf(p)]: the least index at which [p] occurs, [None] for -1. *)
Fixpoint indexOf (s p : jsstring) : option nat :=
  if startsWith s p then Some 0%nat
  else match s with
       | [] => None
       | _ :: s' => option_map S (indexOf s' p)
       end.

(** [s.includes(p)] *)
Definition includes (s p : jsstring) : bool :=
  match indexOf s p with Some _ => true | None => false end.

(** [s.split(sep)] for a separator of one code unit. *)
Fixpoint split (sep : N) (s : jsstring) : list jsstring :=
  match s with
  | [] => [[]]
  | c :: t =>
      if c =? sep then [] :: split sep t
      else match split sep t with
           | h :: r => (c :: h) :: r
           | [] => [[c]]
           end
  end.

(** [parts.join(sep)] *)
Fixpoint join (sep : jsstring) (parts : list jsstring) : jsstring :=
  match parts with
  | [] => []
  | [p] => p
  | p :: rest => p ++ sep ++ join sep rest
  end.

(** [parts.pop()] as the value returned, [None] for [undefined]. *)
Definition pop_value (parts : list jsstring) : option jsstring :=
  match rev parts with
  | [] => None
  | x :: _ => Some x
  end.

Definition SLASH : N := 47.
Definition DOT : N := 46.
Definition DOLLAR : N := 36.

(* ================================================================== *)
(** * The specifier resolver ([resolveModuleSpecifier], utils.ts 30-50) *)
(* ================================================================== *)

(** One turn of the loop over [parts]: [resolvedParts] is the array being
    built; [push] appends at its end and [pop] removes its last element. *)
Definition resolve_step (resolvedParts : list jsstring) (part : jsstring)
  : list jsstring :=
  if str_eqb part (js ".") then resolvedParts
  else if str_eqb part (js "..") then
         if (0 <? length resolvedParts)%nat then removelast resolvedParts
         else resolvedParts
       else resolvedParts ++ [part].

Definition resolveModuleSpecifier (sourcePath specifier : jsstring) : jsstring :=
  if negb (startsWith specifier (js ".")) && negb (startsWith specifier (js "/"))
  then specifier
  else if startsWith specifier (js "/") then skipn 1 specifier
  else
    let sourceDir := removelast (split SLASH sourcePath) in
    let parts := split SLASH specifier in
    let resolvedParts := fold_left resolve_step parts sourceDir in
    join (js "/") resolvedParts.

(** The resolver as the specification words it: a walk over the segments
    of the specifier, starting from the directory of the source path. *)
Inductive walk : list jsstring -> list jsstring -> list jsstring -> Prop :=
| walk_done dir :
    walk dir [] dir
| walk_dot dir segs r :
    walk dir segs r -> walk dir (js "." :: segs) r
| walk_up_root segs r :
    walk [] segs r -> walk [] (js ".." :: segs) r
| walk_up dir last segs r :
    walk dir segs r -> walk (dir ++ [last]) (js ".." :: segs) r
| walk_push dir seg segs r :
    seg <> js "." -> seg <> js ".." ->
    walk (dir ++ [seg]) segs r -> walk dir (seg :: segs) r.

(* ================================================================== *)
(** * Objects used as dictionaries *)
(* ================================================================== *)

(** The own enumerable string-keyed properties of an ordinary object, in
    the order of [Object.entries]: array-index keys first, in ascending
    numeric order, then the other keys in the order of their creation. *)
Definition obj (V : Type) := list (jsstring * V).

Fixpoint obj_get (V : Type) (o : obj V) (k : jsstring) : option V :=
  match o with
  | [] => None
  | (k', v) :: o' => if str_eqb k' k then Some v else obj_get o' k
  end.

Definition has_key (V : Type) (o : obj V) (k : jsstring) : bool :=
  match obj_get o k with Some _ => true | None => false end.

Definition is_digit (c : N) : bool := (48 <=? c) && (c <=? 57).

Definition digits_value (s : jsstring) : N :=
  fold_left (fun acc c => acc * 10 + (c - 48)) s 0.

(** A key is an array index when it is the canonical decimal form of an
    integer between 0 and 2^32 - 2. *)
Definition array_index (k : jsstring) : option N :=
  match k with
  | [] => None
  | c :: t =>
      if forallb is_digit k
         && (negb (c =? 48) || match t with [] => true | _ => false end)
         && (digits_value k <? 4294967295)
      then Some (digits_value k) else None
  end.

Fixpoint obj_update (V : Type) (k : jsstring) (v : V) (o : obj V) : obj V :=
  match o with
  | [] => []
  | (k', v') :: o' =>
      if str_eqb k' k then (k', v) :: o' else (k', v') :: obj_update k v o'
  end.

Fixpoint obj_insert_index (V : Type) (i : N) (k : jsstring) (v : V) (o : obj V)
  : obj V :=
  match o with
  | [] => [(k, v)]
  | (k', v') :: o' =>
      match array_index k' with
      | Some j => if j <? i then (k', v') :: obj_insert_index i k v o'
                  else (k, v) :: o
      | None => (k, v) :: o
      end
  end.

(** Defining an own property (an object literal with a computed key after
    a spread): an existing key keeps its place. *)
Definition obj_define (V : Type) (k : jsstring) (v : V) (o : obj V) : obj V :=
  if has_key o k then obj_update k v o
  else match array_index k with
       | Some i => obj_insert_index i k v o
       | None => o ++ [(k, v)]
       end.

(** The assignment [o[k] = v] of a string [v] on an object created by [{}]:
    the key [__proto__] reaches the setter inherited from
    [Object.prototype], which ignores a value that is not an object, so no
    property is created. *)
Definition obj_set (k : jsstring) (v : jsstring) (o : obj jsstring)
  : obj jsstring :=
  if str_eqb k (js "__proto__") then o else obj_define k v o.

(* ================================================================== *)
(** * Regular expressions *)
(* ================================================================== *)

(** The fragment of the pattern language that the source uses, without
    flags other than [g]: a quantifier [*] or [+] is only ever applied to
    one character class, [?] to a group. *)
Inductive regex : Type :=
| Empty
| Cls (p : N -> bool)
| Seq (a b : regex)
| Alt (a b : regex)
| Group (n : nat) (a : regex)
| Star (greedy : bool) (p : N -> bool)
| Opt (a : regex)
| Bol
| Eol.

Definition Plus (p : N -> bool) : regex := Seq (Cls p) (Star true p).

Fixpoint lit_codes (s : jsstring) : regex :=
  match s with
  | [] => Empty
  | [c] => Cls (N.eqb c)
  | c :: t => Seq (Cls (N.eqb c)) (lit_codes t)
  end.

Definition Lit (s : string) : regex := lit_codes (js s).

Definition one_of (cs : jsstring) (c : N) : bool := existsb (N.eqb c) cs.
Definition none_of (cs : jsstring) (c : N) : bool := negb (one_of cs c).
Definition any_char (c : N) : bool := true.

(** [\s]: white space and line terminators. *)
Definition is_space (c : N) : bool :=
  one_of [9; 10; 11; 12; 13; 32; 160; 5760; 8232; 8233; 8239; 8287;
          12288; 65279] c
  || ((8192 <=? c) && (c <=? 8202)).

Record mstate := MState {
  m_rest : jsstring;
  m_idx : nat;
  m_caps : list (nat * jsstring)
}.

Fixpoint star_greedy (p : N -> bool) (rest : jsstring) (idx : nat)
    (k : jsstring -> nat -> option mstate) : option mstate :=
  match rest with
  | c :: t =>
      if p c then
        match star_greedy p t (S idx) k with
        | Some r => Some r
        | None => k rest idx
        end
      else k rest idx
  | [] => k rest idx
  end.

Fixpoint star_lazy (p : N -> bool) (rest : jsstring) (idx : nat)
    (k : jsstring -> nat -> option mstate) : option mstate :=
  match k rest idx with
  | Some r => Some r
  | None =>
      match rest with
      | c :: t => if p c then star_lazy p t (S idx) k else None
      | [] => None
      end
  end.

(** The backtracking matcher, in the continuation style of the language
    definition: [k] is what remains to be matched after [r]. *)
Fixpoint rmatch (r : regex) (st : mstate) (k : mstate -> option mstate)
  : option mstate :=
  match r with
  | Empty => k st
  | Cls p =>
      match m_rest st with
      | c :: t => if p c then k (MState t (S (m_idx st)) (m_caps st)) else None
      | [] => None
      end
  | Seq a b => rmatch a st (fun st' => rmatch b st' k)
  | Alt a b =>
      match rmatch a st k with
      | Some res => Some res
      | None => rmatch b st k
      end
  | Group n a =>
      rmatch a st (fun st' =>
        k (MState (m_rest st') (m_idx st')
             ((n, firstn (m_idx st' - m_idx st) (m_rest st)) :: m_caps st')))
  | Star greedy p =>
      (if greedy then star_greedy else star_lazy) p (m_rest st) (m_idx st)
        (fun rest idx => k (MState rest idx (m_caps st)))
  | Opt a =>
      match rmatch a st (fun st' =>
              if (m_idx st' =? m_idx st)%nat then None else k st') with
      | Some res => Some res
      | None => k st
      end
  | Bol => if (m_idx st =? 0)%nat then k st else None
  | Eol => match m_rest st with [] => k st | _ :: _ => None end
  end.

(** A match attempt at index [idx], where [s] is the input from there on. *)
Definition exec_at (r : regex) (idx : nat) (s : jsstring) : option mstate :=
  rmatch r (MState s idx []) Some.

(** The leftmost match at or after [idx]. *)
Fixpoint search (r : regex) (idx : nat) (s : jsstring) : option (nat * mstate) :=
  match exec_at r idx s with
  | Some m => Some (idx, m)
  | None =>
      match s with
      | [] => None
      | _ :: t => search r (S idx) t
      end
  end.

(** [s.match(r)] as a truth value, [r] without the [g] flag. *)
Definition test (r : regex) (s : jsstring) : bool :=
  match search r 0 s with Some _ => true | None => false end.

(** The text of capture group [n]; every group of the patterns below takes
    part in every match. *)
Fixpoint cap (caps : list (nat * jsstring)) (n : nat) : jsstring :=
  match caps with
  | [] => []
  | (m, s) :: rest => if (m =? n)%nat then s else cap rest n
  end.

(** [s.replace(r, f)] for [r] with the [g] flag and a function [f] of the
    capture groups.  [skip] counts the code units of [s] still covered by
    the match found last. *)
Fixpoint replace_all (r : regex) (f : list (nat * jsstring) -> jsstring)
    (skip idx : nat) (s : jsstring) : jsstring :=
  match skip with
  | S n =>
      match s with
      | [] => []
      | _ :: t => replace_all r f n (S idx) t
      end
  | O =>
      match exec_at r idx s with
      | Some m =>
          match (m_idx m - idx)%nat, s with
          | _, [] => f (m_caps m)
          | O, c :: t => f (m_caps m) ++ c :: replace_all r f 0 (S idx) t
          | S n, _ :: t => f (m_caps m) ++ replace_all r f n (S idx) t
          end
      | None =>
          match s with
          | [] => []
          | c :: t => c :: replace_all r f 0 (S idx) t
          end
      end
  end.

(** The expansion of the [$] patterns of a replacement string. *)
Fixpoint getSubstitution (matched before after : jsstring)
    (captures : list jsstring) (replacement : jsstring) : jsstring :=
  let m := N.of_nat (length captures) in
  let capture i := nth (N.to_nat i - 1) captures [] in
  match replacement with
  | [] => []
  | c :: t =>
      if negb (c =? DOLLAR) then
        c :: getSubstitution matched before after captures t
      else
        match t with
        | [] => [c]
        | d :: t' =>
            if d =? DOLLAR then
              DOLLAR :: getSubstitution matched before after captures t'
            else if d =? 38 then
              matched ++ getSubstitution matched before after captures t'
            else if d =? 96 then
              before ++ getSubstitution matched before after captures t'
            else if d =? SQ then
              after ++ getSubstitution matched before after captures t'
            else if is_digit d then
              let one :=
                if (1 <=? d - 48) && (d - 48 <=? m)
                then capture (d - 48)
                       ++ getSubstitution matched before after captures t'
                else c :: d :: getSubstitution matched before after captures t'
              in
              match t' with
              | e :: t'' =>
                  if is_digit e && (10 * (d - 48) + (e - 48) <=? m) then
                    if 1 <=? 10 * (d - 48) + (e - 48)
                    then capture (10 * (d - 48) + (e - 48))
                           ++ getSubstitution matched before after captures t''
                    else c :: d :: e
                           :: getSubstitution matched before after captures t''
                  else one
              | [] => one
              end
            else c :: getSubstitution matched before after captures t
        end
  end.

(** [s.replace(r, replacement)] for [r] without the [g] flag and a
    replacement string; [groups] is the number of capture groups of [r]. *)
Definition replace_first (r : regex) (groups : nat) (replacement s : jsstring)
  : jsstring :=
  match search r 0 s with
  | None => s
  | Some (pos, m) =>
      firstn pos s
        ++ getSubstitution (firstn (m_idx m - pos) (skipn pos s))
             (firstn pos s) (m_rest m)
             (List.map (cap (m_caps m)) (seq 1 groups)) replacement
        ++ m_rest m
  end.

(** [s.replace(pattern, replacement)] for a string [pattern]: the first
    occurrence only, and the replacement string is expanded. *)
Definition replace_str (s pattern replacement : jsstring) : jsstring :=
  match indexOf s pattern with
  | None => s
  | Some pos =>
      let before := firstn pos s in
      let after := skipn (pos + length pattern) s in
      before ++ getSubstitution pattern before after [] replacement ++ after
  end.

(* ================================================================== *)
(** * Results, [encodeURIComponent] and [JSON.stringify] *)
(* ================================================================== *)

Inductive error := URIError.

Inductive result (A : Type) : Type :=
| Ok (a : A)
| Throw (e : error).
Arguments Ok {A} a.
Arguments Throw {A} e.

Definition bind (A B : Type) (r : result A) (f : A -> result B) : result B :=
  match r with
  | Ok a => f a
  | Throw e => Throw e
  end.

Notation "x <- c ;; k" := (bind c (fun x => k))
  (at level 61, c at next level, right associativity).

Definition is_alnum (c : N) : bool :=
  is_digit c || ((65 <=? c) && (c <=? 90)) || ((97 <=? c) && (c <=? 122)).

(** The code units that [encodeURIComponent] leaves as they are. *)
Definition unreserved (c : N) : bool :=
  is_alnum c || one_of (js "-_.!~*'()") c.

Definition is_lead (c : N) : bool := (55296 <=? c) && (c <=? 56319).
Definition is_trail (c : N) : bool := (56320 <=? c) && (c <=? 57343).

Definition hex_upper (n : N) : N := if n <? 10 then 48 + n else 55 + n.
Definition hex_lower (n : N) : N := if n <? 10 then 48 + n else 87 + n.

Definition utf8 (cp : N) : list N :=
  if cp <? 128 then [cp]
  else if cp <? 2048 then [192 + cp / 64; 128 + cp mod 64]
  else if cp <? 65536 then
    [224 + cp / 4096; 128 + (cp / 64) mod 64; 128 + cp mod 64]
  else [240 + cp / 262144; 128 + (cp / 4096) mod 64;
        128 + (cp / 64) mod 64; 128 + cp mod 64].

Definition percent (octets : list N) : jsstring :=
  flat_map (fun b => [37; hex_upper (b / 16); hex_upper (b mod 16)]) octets.

(** [encodeURIComponent(s)]: a surrogate without its partner throws. *)
Fixpoint encodeURIComponent (s : jsstring) : result jsstring :=
  match s with
  | [] => Ok []
  | c :: t =>
      if unreserved c then
        r <- encodeURIComponent t ;; Ok (c :: r)
      else if is_trail c then Throw URIError
      else if is_lead c then
        match t with
        | d :: t' =>
            if is_trail d then
              r <- encodeURIComponent t' ;;
              Ok (percent (utf8 ((c - 55296) * 1024 + (d - 56320) + 65536)) ++ r)
            else Throw URIError
        | [] => Throw URIError
        end
      else r <- encodeURIComponent t ;; Ok (percent (utf8 c) ++ r)
  end.

Definition unicode_escape (c : N) : jsstring :=
  js "\u" ++ [hex_lower (c / 4096); hex_lower ((c / 256) mod 16);
              hex_lower ((c / 16) mod 16); hex_lower (c mod 16)].

(** The characters of a JSON string literal, without the quotes. *)
Fixpoint json_chars (s : jsstring) : jsstring :=
  match s with
  | [] => []
  | c :: t =>
      if c =? 8 then js "\b" ++ json_chars t
      else if c =? 9 then js "\t" ++ json_chars t
      else if c =? 10 then js "\n" ++ json_chars t
      else if c =? 12 then js "\f" ++ json_chars t
      else if c =? 13 then js "\r" ++ json_chars t
      else if c =? DQ then js "\" ++ dq ++ json_chars t
      else if c =? 92 then js "\\" ++ json_chars t
      else if c <? 32 then unicode_escape c ++ json_chars t
      else if is_trail c then unicode_escape c ++ json_chars t
      else if is_lead c then
        match t with
        | d :: t' =>
            if is_trail d then c :: d :: json_chars t'
            else unicode_escape c ++ json_chars t
        | [] => unicode_escape c
        end
      else c :: json_chars t
  end.

Definition json_quote (s : jsstring) : jsstring := dq ++ json_chars s ++ dq.

(** [JSON.stringify(o, null, 2)] for an object [o] whose values are
    strings. *)
Definition json_stringify (o : obj jsstring) : jsstring :=
  match o with
  | [] => js "{}"
  | _ =>
      js "{" ++ NL ++ js "  "
        ++ join (js "," ++ NL ++ js "  ")
             (List.map (fun kv => json_quote (fst kv) ++ js ": "
                                    ++ json_quote (snd kv)) o)
        ++ NL ++ js "}"
  end.

(* ================================================================== *)
(** * The virtual file system *)
(* ================================================================== *)

(** Modelled from the spec: the declarations of [ProjectFile] and
    [FileSystem] ([src/types.ts]) are not among the sources.  A file
    record has the three fields that [INITIAL_FILES] and [create_file]
    write; [name] and [language] are [None] when the property is
    [undefined], which an edit of a path that has no record produces.  A
    file system maps paths to file records. *)
Record ProjectFile := {
  name : option jsstring;
  content : jsstring;
  language : option jsstring
}.

Definition FileSystem := obj ProjectFile.

(** [getLanguageFromFilename] (utils.ts 13-25) *)
Definition getLanguageFromFilename (filename : jsstring) : jsstring :=
  match pop_value (split DOT filename) with
  | None => js "plaintext"
  | Some ext =>
      if str_eqb ext (js "js") then js "javascript"
      else if str_eqb ext (js "jsx") then js "javascript"
      else if str_eqb ext (js "ts") then js "typescript"
      else if str_eqb ext (js "tsx") then js "typescript"
      else if str_eqb ext (js "html") then js "html"
      else if str_eqb ext (js "css") then js "css"
      else if str_eqb ext (js "json") then js "json"
      else js "plaintext"
  end.

(** The content of [index.html] in [INITIAL_FILES] (lines 168-235). *)
Definition shell_content : jsstring := join NL [
  js "<!DOCTYPE html>";
  js "<html lang=" ++ dq ++ js "en" ++ dq ++ js ">";
  js "<head>";
  js "    <meta charset=" ++ dq ++ js "UTF-8" ++ dq ++ js ">";
  js "    <meta name=" ++ dq ++ js "viewport" ++ dq ++ js " content=" ++ dq ++ js "width=device-width, initial-scale=1.0, maximum-scale=1.0, user-scalable=no" ++ dq ++ js ">";
  js "    <title>EduSpark Game Shell</title>";
  js "    <style>";
  js "        /* GOLDEN SHELL STYLES - DO NOT EDIT */";
  js "        body, html { ";
  js "            margin: 0; padding: 0; width: 100%; height: 100%; ";
  js "            background: #1a1a1a; color: #fff; ";
  js "            overflow: hidden; font-family: 'Inter', sans-serif;";
  js "            display: flex; align-items: center; justify-content: center;";
  js "        }";
  js "        ";
  js "        /* The Scalable Stage Container */";
  js "        #game-container {";
  js "            position: relative;";
  js "            width: 800px;";
  js "            height: 600px;";
  js "            background: #000;";
  js "            box-shadow: 0 0 50px rgba(0,0,0,0.5);";
  js "            overflow: hidden;";
  js "        }";
  [];
  js "        /* The Mount Point for Aether */";
  js "        #game-stage {";
  js "            width: 100%;";
  js "            height: 100%;";
  js "            position: relative;";
  js "        }";
  [];
  js "        /* Scale logic */";
  js "        @media (max-width: 840px), (max-height: 640px) {";
  js "            #game-container {";
  js "                transform-origin: center center;";
  js "                transform: scale(min(calc(100vw / 800), calc(100vh / 600)));";
  js "            }";
  js "        }";
  js "    </style>";
  js "    <script>";
  js "        // BRIDGE API MOCK";
  js "        window.gameAPI = {";
  js "            submitFinalScore: function(data) {";
  js "                console.log(" ++ dq ++ [55356; 57286] ++ js " [BRIDGE] Game Completed:" ++ dq ++ js ", data);";
  js "                const banner = document.createElement('div');";
  js "                banner.style.cssText = 'position:absolute;top:50%;left:50%;transform:translate(-50%, -50%);background:#10b981;color:white;padding:20px;border-radius:12px;font-weight:bold;text-align:center;box-shadow:0 10px 25px rgba(0,0,0,0.5);z-index:9999;';";
  js "                banner.innerHTML = '<h1>Great Job!</h1><p>Score Submitted: ' + (data.score.raw || 0) + '</p>';";
  js "                document.getElementById('game-stage').appendChild(banner);";
  js "            }";
  js "        };";
  js "    </script>";
  js "</head>";
  js "<body>";
  js "    <div id=" ++ dq ++ js "game-container" ++ dq ++ js ">";
  js "        <div id=" ++ dq ++ js "game-stage" ++ dq ++ js ">";
  js "            <!-- Aether mounts the app here -->";
  js "            <div style=" ++ dq ++ js "height:100%; display:flex; flex-direction:column; align-items:center; justify-content:center; color:#666;" ++ dq ++ js ">";
  js "                <h2>Waiting for Aether...</h2>";
  js "                <p>Game content will load here.</p>";
  js "            </div>";
  js "        </div>";
  js "    </div>";
  js "    ";
  js "    <!-- Main Entry Point -->";
  js "    <script type=" ++ dq ++ js "module" ++ dq ++ js " src=" ++ dq ++ js "./src/main.js" ++ dq ++ js "></script>";
  js "</body>";
  js "</html>"
].

Definition INITIAL_FILES : FileSystem :=
  [(js "index.html",
    {| name := Some (js "index.html");
       content := shell_content;
       language := Some (js "html") |})].

(* ================================================================== *)
(** * The patterns of [buildPreviewContent] *)
(* ================================================================== *)

Definition quote_char : N -> bool := one_of [SQ; DQ].
Definition not_quote : N -> bool := none_of [SQ; DQ].
Definition dot_or_slash : N -> bool := one_of (js "./").

Declare Scope regex_scope.
Delimit Scope regex_scope with re.
Notation "a ~> b" := (Seq a b) (at level 60, right associativity) : regex_scope.
Local Open Scope regex_scope.

(** The pattern of lines 63, 93 and 102: [/\.(js|jsx|ts|tsx)$/] *)
Definition sourceExtension : regex :=
  Lit "." ~> Group 1 (Alt (Lit "js") (Alt (Lit "jsx") (Alt (Lit "ts") (Lit "tsx"))))
    ~> Eol.

(** The pattern of line 66, where Q stands for the double quote:
    [/((?:import|export)\s+(?:[\s\S]*?from\s+)?['Q])([\.\/][^'Q]+)(['Q])/g] *)
Definition staticImport : regex :=
  Group 1 (Alt (Lit "import") (Lit "export")
             ~> Plus is_space
             ~> Opt (Star false any_char ~> Lit "from" ~> Plus is_space)
             ~> Cls quote_char)
    ~> Group 2 (Cls dot_or_slash ~> Plus not_quote)
    ~> Group 3 (Cls quote_char).

(** The pattern of line 71: [/(import\(['Q])([\.\/][^'Q]+)(['Q]\))/g] *)
Definition dynamicImport : regex :=
  Group 1 (Lit "import(" ~> Cls quote_char)
    ~> Group 2 (Cls dot_or_slash ~> Plus not_quote)
    ~> Group 3 (Cls quote_char ~> Lit ")").

(** The pattern of line 96: [/^(\.\/|\/)/] *)
Definition leadingSlash : regex :=
  Bol ~> Group 1 (Alt (Lit "./") (Lit "/")).

(** The pattern of line 129:
    [/<script\s+type=[Q']module[Q']\s+src=[Q']([^Q']+)[Q']><\/script>/g] *)
Definition moduleScript : regex :=
  Lit "<script" ~> Plus is_space ~> Lit "type=" ~> Cls quote_char
    ~> Lit "module" ~> Cls quote_char ~> Plus is_space ~> Lit "src="
    ~> Cls quote_char ~> Group 1 (Plus not_quote) ~> Cls quote_char
    ~> Lit "></script>".

(* ================================================================== *)
(** * [buildPreviewContent] (utils.ts 52-162) *)
(* ================================================================== *)

(** [path.match(/\.(js|jsx|ts|tsx)$/)] as a truth value. *)
Definition isSourcePath (path : jsstring) : bool := test sourceExtension path.

(** The callback of both import rewrites: the specifier is the second
    group, what surrounds it is given back as it was. *)
Definition rewriteSpecifier (path : jsstring) (caps : list (nat * jsstring))
  : jsstring :=
  cap caps 1 ++ resolveModuleSpecifier path (cap caps 2) ++ cap caps 3.

(** Lines 64-74: the static imports, then the dynamic ones. *)
Definition rewriteImports (path content : jsstring) : jsstring :=
  let content := replace_all staticImport (rewriteSpecifier path) 0 0 content in
  replace_all dynamicImport (rewriteSpecifier path) 0 0 content.

(** The value that lines 63-78 store for one entry of [files]. *)
Definition processFile (path : jsstring) (file : ProjectFile) : jsstring :=
  if isSourcePath path then rewriteImports path (content file)
  else content file.

(** Lines 60-79. *)
Definition processedFiles (files : FileSystem) : obj jsstring :=
  fold_left (fun acc entry => obj_set (fst entry) (processFile (fst entry) (snd entry)) acc)
    files [].

(** Lines 82-88. *)
Definition cdnImports : obj jsstring :=
  [(js "preact", js "https://esm.sh/preact@10.19.6");
   (js "preact/hooks", js "https://esm.sh/preact@10.19.6/hooks");
   (js "htm", js "https://esm.sh/htm@3.1.1");
   (js "canvas-confetti", js "https://esm.sh/canvas-confetti@1.9.2");
   (js "gsap", js "https://esm.sh/gsap@3.12.5")].

Definition dataUriOf (encoded : jsstring) : jsstring :=
  js "data:text/javascript;charset=utf-8," ++ encoded.

(** [path.replace(/^(\.\/|\/)/, '')] *)
Definition cleanPathOf (path : jsstring) : jsstring :=
  replace_first leadingSlash 1 [] path.

(** [cleanPath.replace(/\.(js|jsx|ts|tsx)$/, '')] *)
Definition strippedOf (cleanPath : jsstring) : jsstring :=
  replace_first sourceExtension 1 [] cleanPath.

(** Lines 98-107: the aliases of one module. *)
Definition registerAliases (cleanPath dataUri : jsstring) (imports : obj jsstring)
  : obj jsstring :=
  let imports := obj_set cleanPath dataUri imports in
  let imports := obj_set (js "./" ++ cleanPath) dataUri imports in
  let imports := obj_set (js "/" ++ cleanPath) dataUri imports in
  let stripped := strippedOf cleanPath in
  if negb (str_eqb stripped cleanPath) then
    let imports := obj_set stripped dataUri imports in
    let imports := obj_set (js "./" ++ stripped) dataUri imports in
    obj_set (js "/" ++ stripped) dataUri imports
  else imports.

(** Lines 91-108: the callback of the loop over [processedFiles]. *)
Definition registerModule (imports : obj jsstring) (entry : jsstring * jsstring)
  : result (obj jsstring) :=
  let (path, content) := entry in
  if str_eqb path (js "index.html") || endsWith path (js ".css") then Ok imports
  else if isSourcePath path then
    encoded <- encodeURIComponent content ;;
    Ok (registerAliases (cleanPathOf path) (dataUriOf encoded) imports)
  else Ok imports.

(** A [forEach] whose callback may throw. *)
Fixpoint forEach (A S : Type) (f : S -> A -> result S) (l : list A) (s : S)
  : result S :=
  match l with
  | [] => Ok s
  | x :: l' => s' <- f s x ;; forEach f l' s'
  end.

(** Lines 82-109: the import map. *)
Definition imports (files : FileSystem) : result (obj jsstring) :=
  forEach registerModule (processedFiles files) cdnImports.

(** Lines 111-117. *)
Definition importMapScript (imports : obj jsstring) : jsstring :=
  join NL [
    [];
    js "    <script type=" ++ dq ++ js "importmap" ++ dq ++ js ">";
    js "      {";
    js "        " ++ dq ++ js "imports" ++ dq ++ js ": " ++ json_stringify imports;
    js "      }";
    js "    </script>";
    js "  "
  ].

(** Lines 119-124. *)
Definition cssContent (files : FileSystem) : jsstring :=
  fold_left (fun css entry =>
               if endsWith (fst entry) (js ".css")
               then css ++ NL ++ js "/* " ++ fst entry ++ js " */" ++ NL
                        ++ content (snd entry) ++ NL
               else css)
    files [].

(** Line 125. *)
Definition styleTag (files : FileSystem) : jsstring :=
  match cssContent files with
  | [] => []
  | css => js "<style>" ++ css ++ js "</style>"
  end.

(** Lines 128-134: the entry script becomes an inline module import. *)
Definition inlineEntry (caps : list (nat * jsstring)) : jsstring :=
  js "<script type=" ++ dq ++ js "module" ++ dq ++ js ">import " ++ dq
    ++ resolveModuleSpecifier (js "index.html") (cap caps 1)
    ++ dq ++ js "</script>".

Definition rewriteEntryScripts (indexHtml : jsstring) : jsstring :=
  replace_all moduleScript inlineEntry 0 0 indexHtml.

(** Lines 136-140. *)
Definition injectHead (indexHtml importMapScript styleTag : jsstring) : jsstring :=
  if includes indexHtml (js "<head>") then
    replace_str indexHtml (js "<head>") (js "<head>" ++ importMapScript ++ styleTag)
  else importMapScript ++ styleTag ++ indexHtml.

(** The script of lines 143-153. *)
Definition errorScript : jsstring := join NL [
  [];
  js "    <script>";
  js "      window.onerror = function(msg, url, line, col, error) {";
  js "        console.error('Runtime Error:', msg, '\nLine:', line, '\nFile:', url);";
  js "        const banner = document.createElement('div');";
  js "        banner.style.cssText = 'position:fixed;top:0;left:0;right:0;background:rgba(220,38,38,0.9);color:white;padding:8px;font-family:sans-serif;font-size:12px;z-index:9999;pointer-events:none;';";
  js "        banner.textContent = 'Runtime Error: ' + msg;";
  js "        document.body.appendChild(banner);";
  js "      };";
  js "    </script>";
  js "  "
].

(** Lines 155-159. *)
Definition injectBody (indexHtml : jsstring) : jsstring :=
  if includes indexHtml (js "<body>") then
    replace_str indexHtml (js "<body>") (js "<body>" ++ errorScript)
  else indexHtml ++ errorScript.

(** Lines 53-58: the entry document, or the built-in shell when the entry
    is missing or empty. *)
Definition entryDocument (files : FileSystem) : jsstring :=
  let indexHtml :=
    match obj_get files (js "index.html") with
    | Some file => content file
    | None => []
    end in
  match indexHtml with
  | [] => match obj_get INITIAL_FILES (js "index.html") with
          | Some file => content file
          | None => []
          end
  | _ => indexHtml
  end.

(** Lines 111-161, from the import map on. *)
Definition assemble (indexHtml : jsstring) (imports : obj jsstring)
    (files : FileSystem) : jsstring :=
  injectBody
    (injectHead (rewriteEntryScripts indexHtml)
       (importMapScript imports) (styleTag files)).

Definition buildPreviewContent (files : FileSystem) : result jsstring :=
  imports <- imports files ;;
  Ok (assemble (entryDocument files) imports files).

(* ================================================================== *)
(** * The file operations of [App.tsx] *)
(* ================================================================== *)

Module App.

(** The state of the component that the two operations read and write. *)
Record State := {
  files : FileSystem;
  selectedFile : option jsstring
}.

(** What an operation gives back to its caller. *)
Inductive value :=
| VString (s : jsstring)
| VUndefined.

(** [executeTool('create_file', {path, content})] (App.tsx 160-175). *)
Definition create_file (path content : jsstring) (st : State) : State * value :=
  if str_eqb path (js "index.html") then
    (st, VString (js "Error: index.html is READ-ONLY. You cannot modify the Golden Shell."))
  else
    ({| files :=
          obj_define path
            {| name := Some path;
               content := content;
               language := Some (getLanguageFromFilename path) |}
            (files st);
        selectedFile := Some path |},
     VString (js "File '" ++ path ++ js "' created successfully.")).

(** [handleFileChange(newContent)] (App.tsx 310-320); it has no [return]. *)
Definition handleFileChange (newContent : jsstring) (st : State) : State * value :=
  match selectedFile st with
  | Some (c :: sel) =>
      if negb (str_eqb (c :: sel) (js "index.html")) then
        ({| files :=
              obj_define (c :: sel)
                match obj_get (files st) (c :: sel) with
                | Some file =>
                    {| name := name file;
                       content := newContent;
                       language := language file |}
                | None =>
                    {| name := None; content := newContent; language := None |}
                end
                (files st);
            selectedFile := selectedFile st |},
         VUndefined)
      else (st, VUndefined)
  | _ => (st, VUndefined)
  end.

(** A caller is told of a rejection when it receives an error message. *)
Definition reports_rejection (v : value) : bool :=
  match v with
  | VString s => startsWith s (js "Error")
  | VUndefined => false
  end.

End App.

(* ================================================================== *)
(** * Notions used in the statements *)
(* ================================================================== *)

Unset Implicit Arguments.

(** The keys of an object, in enumeration order. *)
Definition keys {V : Type} (o : obj V) : list jsstring := List.map fst o.

(** The one key that an assignment to an ordinary object does not create. *)
Definition proto : jsstring := js "__proto__".

(** The body of the loop of lines 62-79, as a step on [processedFiles]. *)
Definition storeProcessed (acc : obj jsstring) (entry : jsstring * ProjectFile)
  : obj jsstring :=
  obj_set (fst entry) (processFile (fst entry) (snd entry)) acc.

Definition isSome {A : Type} (o : option A) : bool :=
  match o with Some _ => true | None => false end.

(** The extensions that the pattern of lines 63, 93 and 102 accepts. *)
Definition extensions : list jsstring :=
  [js ".js"; js ".jsx"; js ".ts"; js ".tsx"].

(** No surrogate code unit without its partner. *)
Fixpoint well_formed (s : jsstring) : bool :=
  match s with
  | [] => true
  | c :: t =>
      if is_trail c then false
      else if is_lead c then
        match t with
        | d :: t' => is_trail d && well_formed t'
        | [] => false
        end
      else well_formed t
  end.

(** What a build reads of a file system: the paths, in order, and the
    content stored under each. *)
Definition snapshot (files : FileSystem) : list (jsstring * jsstring) :=
  List.map (fun entry => (fst entry, content (snd entry))) files.

(** The keys that lines 98-107 assign for a module of clean path
    [cleanPath], in the order of the assignments. *)
Definition aliasesOf (cleanPath : jsstring) : list jsstring :=
  [cleanPath; js "./" ++ cleanPath; js "/" ++ cleanPath]
    ++ (if negb (str_eqb (strippedOf cleanPath) cleanPath)
        then [strippedOf cleanPath; js "./" ++ strippedOf cleanPath;
              js "/" ++ strippedOf cleanPath]
        else []).

(** The assignment of one value to a list of keys, in order. *)
Definition setAll (uri : jsstring) (ks : list jsstring) (m : obj jsstring)
  : obj jsstring :=
  fold_left (fun acc k => obj_set k uri acc) ks m.

(** [tag] occurs in [pre ++ tag ++ post] at no index before the one
    reached after [pre]. *)
Definition firstOccurrence (tag pre post : jsstring) : Prop :=
  forall j, (j < length pre)%nat ->
            startsWith (skipn j (pre ++ tag ++ post)) tag = false.

(** The closing bracket of a tag. *)
Definition GT : N := 62.

(** A code unit that is no surrogate. *)
Definition plain (c : N) : bool := negb (is_trail c) && negb (is_lead c).

(** A string that begins with the second half, or ends with the first
    half, of a surrogate pair. *)
Definition starts_trail (s : jsstring) : bool :=
  match s with
  | c :: _ => is_trail c
  | [] => false
  end.

Fixpoint ends_lead (s : jsstring) : bool :=
  match s with
  | [] => false
  | [c] => is_lead c
  | _ :: t => ends_lead t
  end.

(** What it means for a pattern to match between two states of the
    matcher, without the order in which the matcher tries the
    alternatives: the input consumed is a prefix of what was left, and a
    group records the text consumed inside it. *)
Inductive Matches : regex -> mstate -> mstate -> Prop :=
| M_Empty st : Matches Empty st st
| M_Cls p c t i caps :
    p c = true -> Matches (Cls p) (MState (c :: t) i caps) (MState t (S i) caps)
| M_Seq a b st1 st2 st3 :
    Matches a st1 st2 -> Matches b st2 st3 -> Matches (Seq a b) st1 st3
| M_AltL a b st st' : Matches a st st' -> Matches (Alt a b) st st'
| M_AltR a b st st' : Matches b st st' -> Matches (Alt a b) st st'
| M_Group n a st st' :
    Matches a st st' ->
    Matches (Group n a) st
      (MState (m_rest st') (m_idx st')
         ((n, firstn (m_idx st' - m_idx st) (m_rest st)) :: m_caps st'))
| M_Star g p cs t i caps :
    forallb p cs = true ->
    Matches (Star g p) (MState (cs ++ t) i caps) (MState t (i + length cs) caps)
| M_OptSome a st st' : Matches a st st' -> Matches (Opt a) st st'
| M_OptNone a st : Matches (Opt a) st st
| M_Bol st : m_idx st = 0%nat -> Matches Bol st st
| M_Eol st : m_rest st = [] -> Matches Eol st st.

(** A pattern without capture groups. *)
Fixpoint groupless (r : regex) : bool :=
  match r with
  | Seq a b | Alt a b => groupless a && groupless b
  | Group _ _ => false
  | Opt a => groupless a
  | _ => true
  end.

(** Every match of [r] begins, or ends, with a code unit in [q]. *)
Fixpoint begins_in (q : N -> bool) (r : regex) : Prop :=
  match r with
  | Cls p => forall c, p c = true -> q c = true
  | Seq a _ => begins_in q a
  | Alt a b => begins_in q a /\ begins_in q b
  | Group _ a => begins_in q a
  | _ => False
  end.

Fixpoint ends_in (q : N -> bool) (r : regex) : Prop :=
  match r with
  | Cls p => forall c, p c = true -> q c = true
  | Seq _ b => ends_in q b
  | Alt a b => ends_in q a /\ ends_in q b
  | Group _ a => ends_in q a
  | _ => False
  end.

(** The shape of both import patterns: three groups in a row. *)
Definition threeGroups (A B C : regex) : regex :=
  Seq (Group 1 A) (Seq (Group 2 B) (Group 3 C)).

(** Every match of [r] is cut out at plain code units and replaced by a
    well-formed text. *)
Definition safe_replacer (r : regex) (f : list (nat * jsstring) -> jsstring)
  : Prop :=
  forall idx s m,
    exec_at r idx s = Some m ->
    exists M,
      s = M ++ m_rest m
      /\ m_idx m = (idx + length M)%nat
      /\ M <> [] /\ starts_trail M = false /\ ends_lead M = false
      /\ (well_formed M = true -> well_formed (f (m_caps m)) = true).

(** Path segments free of unpaired surrogates. *)
Definition all_well_formed (parts : list jsstring) : Prop :=
  Forall (fun p => well_formed p = true) parts.

(* ================================================================== *)
(** * Sample file systems and documents *)
(* ================================================================== *)

(** The state of the editor with [index.html] selected. *)
Definition shellSelected (fs : FileSystem) : App.State :=
  {| App.files := fs; App.selectedFile := Some (js "index.html") |}.

Definition stylesheetExample : FileSystem :=
  INITIAL_FILES
    ++ [(js "style.css",
         {| name := Some (js "style.css");
            content := js "body { color: red; }";
            language := Some (js "css") |})].

Definition scenarioFiles : FileSystem :=
  INITIAL_FILES
    ++ [(js "src/main.js",
         {| name := Some (js "src/main.js");
            content := js "import {h} from 'preact'; console.log('hi')";
            language := Some (js "javascript") |})].

Definition scenarioImports : obj jsstring :=
  match imports scenarioFiles with Ok m => m | Throw _ => [] end.

Definition scenarioDocument : jsstring :=
  match buildPreviewContent scenarioFiles with Ok doc => doc | Throw _ => [] end.

Definition inlineMainImport : jsstring :=
  js "<script type=" ++ dq ++ js "module" ++ dq ++ js ">import " ++ dq
    ++ js "src/main.js" ++ dq ++ js "</script>".

Definition preactEntry : jsstring :=
  dq ++ js "preact" ++ dq ++ js ": " ++ dq ++ js "https://esm.sh/preact@10.19.6" ++ dq.

Definition loneSurrogateFiles : FileSystem :=
  INITIAL_FILES
    ++ [(js "a.js",
         {| name := Some (js "a.js");
            content := [55296];
            language := Some (js "javascript") |})].

Definition emptyShellFiles : FileSystem :=
  [(js "index.html",
    {| name := Some (js "index.html"); content := [];
       language := Some (js "html") |});
   (js "src/main.js",
    {| name := Some (js "src/main.js");
       content := js "import './app.js'";
       language := Some (js "javascript") |})].

Definition dottedImport : jsstring := js "import c from '../.config/x.js'".

Definition relativeImportFile : ProjectFile :=
  {| name := Some (js "src/a/b.js");
     content := js "import x from './c.js'; const y = import('../d.js')";
     language := Some (js "javascript") |}.

Definition canonicalImportFile : ProjectFile :=
  {| name := Some (js "src/a/b.js");
     content := js "import x from 'src/a/c.js'; const y = import('src/d.js')";
     language := Some (js "javascript") |}.

Definition mainPath : jsstring := js "src/main.js".

Definition sixAliases : list jsstring :=
  [js "src/main.js"; js "./src/main.js"; js "/src/main.js";
   js "src/main"; js "./src/main"; js "/src/main"].

Definition twoMainsFiles : FileSystem :=
  INITIAL_FILES
    ++ [(js "src/main.js",
         {| name := Some (js "src/main.js");
            content := js "export default 1";
            language := Some (js "javascript") |});
        (js "src/main.ts",
         {| name := Some (js "src/main.ts");
            content := js "export default 2";
            language := Some (js "typescript") |})].

Definition dollarStyleFiles : FileSystem :=
  INITIAL_FILES
    ++ [(js "style.css",
         {| name := Some (js "style.css");
            content := js ".price::before { content: '$'; }";
            language := Some (js "css") |})].

Definition dollarStyleDocument : jsstring :=
  match buildPreviewContent dollarStyleFiles with Ok doc => doc | Throw _ => [] end.

Definition attributedHeadDocument : jsstring :=
  js "<html><head lang=" ++ dq ++ js "en" ++ dq
    ++ js "><script>var t = '<head>';</script></head></html>".

Definition attributedTagsDocument : jsstring :=
  js "<html><head lang=" ++ dq ++ js "en" ++ dq ++ js "></head><body class="
    ++ dq ++ js "x" ++ dq ++ js ">hi</body></html>".

(* ================================================================== *)
(** * The session of the editor ([App], App.tsx 112-200 and 310-325) *)
(* ================================================================== *)

Module Session.

(** The names that the objects of [files] inherit from [Object.prototype].
    What is found under each of them is a function, or the prototype
    itself under [__proto__]: a truthy value without a [content] and
    without a [language]. *)
Definition inheritedNames : list jsstring :=
  [js "constructor"; js "__defineGetter__"; js "__defineSetter__";
   js "hasOwnProperty"; js "__lookupGetter__"; js "__lookupSetter__";
   js "isPrototypeOf"; js "propertyIsEnumerable"; js "toString";
   js "valueOf"; js "__proto__"; js "toLocaleString"].

(** What [o[k]] finds. *)
Inductive property :=
| Own (file : ProjectFile)
| Inherited
| Missing.

Definition get_property (o : FileSystem) (k : jsstring) : property :=
  match obj_get o k with
  | Some file => Own file
  | None => if existsb (str_eqb k) inheritedNames then Inherited else Missing
  end.

(** The state of [App] that the tools and the handlers of the editor read
    and write: [files] and [selectedFile] with their pending updates
    applied, [filesRef.current], which is the [files] of the last render
    (lines 123-128), and [isMobileExplorerOpen]. *)
Record Hooks := {
  app : App.State;
  filesRef : FileSystem;
  isMobileExplorerOpen : bool
}.

(** Lines 114-123. *)
Definition initial : Hooks :=
  {| app := {| App.files := INITIAL_FILES;
               App.selectedFile := Some (js "index.html") |};
     filesRef := INITIAL_FILES;
     isMobileExplorerOpen := false |}.

Definition set_app (st : Hooks) (a : App.State) : Hooks :=
  {| app := a; filesRef := filesRef st;
     isMobileExplorerOpen := isMobileExplorerOpen st |}.

(** [JSON.stringify] of an array of strings. *)
Definition json_array (items : list jsstring) : jsstring :=
  js "[" ++ join (js ",") (List.map json_quote items) ++ js "]".

(** [executeTool(name, args)] (lines 158-200), for [args] that hold the
    strings [path] and [content] where the tool reads them.  The error
    thrown at line 180 is caught at line 197. *)
Definition executeTool (name path content : jsstring) (st : Hooks)
  : Hooks * App.value :=
  if str_eqb name (js "create_file") then
    (set_app st (fst (App.create_file path content (app st))),
     snd (App.create_file path content (app st)))
  else if str_eqb name (js "read_file") then
    match get_property (filesRef st) path with
    | Own {| content := found |} => (st, App.VString found)
    | Inherited => (st, App.VUndefined)
    | Missing =>
        (st, App.VString (js "Error executing tool '" ++ name ++ js "': "
                            ++ js "File '" ++ path ++ js "' not found."))
    end
  else if str_eqb name (js "list_files") then
    (st, App.VString (json_array (keys (filesRef st))))
  else if str_eqb name (js "update_project_state") then
    (st, App.VString
           (js "Project state saved successfully. Context persisted for next turn."))
  else (st, App.VString (js "Error: Unknown tool '" ++ name ++ js "'")).

(** The state after a call of [create_file], and the answer of a call of
    [read_file], which has no other argument than the path. *)
Definition created (path content : jsstring) (st : Hooks) : Hooks :=
  fst (executeTool (js "create_file") path content st).

Definition read (path : jsstring) (st : Hooks) : App.value :=
  snd (executeTool (js "read_file") path [] st).

(** The effect of lines 126-128, run after a render. *)
Definition render (st : Hooks) : Hooks :=
  {| app := app st; filesRef := App.files (app st);
     isMobileExplorerOpen := isMobileExplorerOpen st |}.

(** [handleFileSelect(filename)] (lines 322-325); [None] is [undefined]. *)
Definition handleFileSelect (filename : option jsstring) (st : Hooks) : Hooks :=
  {| app := {| App.files := App.files (app st); App.selectedFile := filename |};
     filesRef := filesRef st;
     isMobileExplorerOpen := false |}.

(** [handleFileChange(newContent)] (lines 310-320) on the whole state. *)
Definition edit (newContent : jsstring) (st : Hooks) : Hooks :=
  set_app st (fst (App.handleFileChange newContent (app st))).

(** What the editor is given at lines 434-435, or the [TypeError] of
    reading a property of [undefined]. *)
Inductive editor :=
| Editor (content language : App.value)
| TypeError.

Definition editorProps (st : Hooks) : editor :=
  match App.selectedFile (app st) with
  | Some (c :: sel) =>
      match get_property (App.files (app st)) (c :: sel) with
      | Own file =>
          Editor (App.VString (content file))
            match language file with
            | Some l => App.VString l
            | None => App.VUndefined
            end
      | Inherited => Editor App.VUndefined App.VUndefined
      | Missing => TypeError
      end
  | _ => Editor (App.VString []) (App.VString (js "plaintext"))
  end.

(** What happens to the state: a tool call, an edit, a click on the
    [i]-th entry of the explorer, which lists the files of the last render
    and passes the [name] of the record (FileExplorer.tsx 43-46), the
    opening or closing of the explorer (lines 407-424), a render. *)
Inductive event :=
| Tool (name path content : jsstring)
| Change (newContent : jsstring)
| Click (i : nat)
| Explorer (open : bool)
| Render.

Definition step (st : Hooks) (e : event) : Hooks :=
  match e with
  | Tool name path content => fst (executeTool name path content st)
  | Change newContent => edit newContent st
  | Click i =>
      match nth_error (filesRef st) i with
      | Some entry => handleFileSelect (name (snd entry)) st
      | None => st
      end
  | Explorer open =>
      {| app := app st; filesRef := filesRef st; isMobileExplorerOpen := open |}
  | Render => render st
  end.

Definition run (events : list event) : Hooks := fold_left step events initial.

(** Every record of [o] carries its own path as its name and the
    language of that path. *)
Definition recorded (o : FileSystem) : Prop :=
  forall k file,
    obj_get o k = Some file ->
    name file = Some k /\ language file = Some (getLanguageFromFilename k).

(** What holds of the state whatever has happened to it. *)
Definition consistent (st : Hooks) : Prop :=
  obj_get (App.files (app st)) (js "index.html")
  = obj_get INITIAL_FILES (js "index.html")
  /\ NoDup (keys (App.files (app st)))
  /\ NoDup (keys (filesRef st))
  /\ recorded (App.files (app st))
  /\ recorded (filesRef st)
  /\ (forall k, has_key (filesRef st) k = true ->
                has_key (App.files (app st)) k = true)
  /\ exists k, App.selectedFile (app st) = Some k
               /\ has_key (App.files (app st)) k = true.

End Session.

(* ================================================================== *)
(** * The input of the chat ([ChatInterface], ChatInterface.tsx 23-34) *)
(* ================================================================== *)

Module Chat.

(** [s.trimStart()] and [s.trim()]: the code units removed are those of
    the class [\s]. *)
Fixpoint trimStart (s : jsstring) : jsstring :=
  match s with
  | c :: t => if is_space c then trimStart t else s
  | [] => []
  end.

Definition trim (s : jsstring) : jsstring :=
  rev (trimStart (rev (trimStart s))).

(** A string is truthy when it is not empty. *)
Definition truthy (s : jsstring) : bool :=
  match s with [] => false | _ :: _ => true end.

(** What a handler does: the text passed to [onSendMessage], if it is
    called, and the input afterwards. *)
Record outcome := {
  sent : option jsstring;
  input : jsstring
}.

(** [handleSubmit] (lines 23-27). *)
Definition handleSubmit (input : jsstring) (isGenerating : bool) : outcome :=
  if negb (truthy (trim input)) || isGenerating then
    {| sent := None; input := input |}
  else {| sent := Some input; input := [] |}.

(** [handleKeyDown] (lines 29-34). *)
Definition handleKeyDown (key : jsstring) (shiftKey : bool)
    (input : jsstring) (isGenerating : bool) : outcome :=
  if str_eqb key (js "Enter") && negb shiftKey then
    handleSubmit input isGenerating
  else {| sent := None; input := input |}.

End Chat.

(* ================================================================== *)
(** * Further notions: languages, segments, code units *)
(* ================================================================== *)

(** The names of the files that [getLanguageFromFilename] takes for
    scripts although they have no extension. *)
Definition bareExtensions : list jsstring :=
  [js "js"; js "jsx"; js "ts"; js "tsx"].

Definition isScriptLanguage (language : jsstring) : bool :=
  str_eqb language (js "javascript") || str_eqb language (js "typescript").

(** A path segment that the resolver interprets instead of keeping. *)
Definition dotSegment (segment : jsstring) : bool :=
  str_eqb segment (js ".") || str_eqb segment (js "..").

Definition noDotSegments (segments : list jsstring) : Prop :=
  Forall (fun segment => dotSegment segment = false) segments.

(** A segment without a slash. *)
Definition noSlash (segment : jsstring) : bool :=
  forallb (fun c => negb (c =? SLASH)) segment.

(** What one style sheet adds to [cssContent] (line 122). *)
Definition cssBlock (entry : jsstring * ProjectFile) : jsstring :=
  if endsWith (fst entry) (js ".css")
  then NL ++ js "/* " ++ fst entry ++ js " */" ++ NL
         ++ content (snd entry) ++ NL
  else [].

(** Every code unit that a match of [r] consumes is in [q]. *)
Fixpoint all_in (q : N -> bool) (r : regex) : Prop :=
  match r with
  | Cls p | Star _ p => forall c, p c = true -> q c = true
  | Seq a b | Alt a b => all_in q a /\ all_in q b
  | Group _ a | Opt a => all_in q a
  | Empty | Bol | Eol => True
  end.

(** A pattern without the anchor of the beginning of the input. *)
Fixpoint bolfree (r : regex) : bool :=
  match r with
  | Seq a b | Alt a b => bolfree a && bolfree b
  | Group _ a | Opt a => bolfree a
  | Bol => false
  | _ => true
  end.

(** [t] is [s] but for import specifiers: some texts between two quotes,
    each beginning with a dot or a slash and free of quotes, are replaced
    by what the resolver makes of them from [path]. *)
Inductive specifiersOnly (path : jsstring) : jsstring -> jsstring -> Prop :=
| only_end : specifiersOnly path [] []
| only_keep c s t :
    specifiersOnly path s t -> specifiersOnly path (c :: s) (c :: t)
| only_resolve q c spec q' s t :
    quote_char q = true -> quote_char q' = true ->
    dot_or_slash c = true -> forallb not_quote (c :: spec) = true ->
    specifiersOnly path s t ->
    specifiersOnly path (q :: (c :: spec) ++ q' :: s)
      (q :: resolveModuleSpecifier path (c :: spec) ++ q' :: t).

(** The entry tag as the shell spells it, for the source [src]. *)
Definition entryTag (src : jsstring) : jsstring :=
  js "<script type=" ++ dq ++ js "module" ++ dq ++ js " src=" ++ dq ++ src
    ++ dq ++ js "></script>".

(** The matcher state [st], found [d] code units further on. *)
Definition shift (d : nat) (st : mstate) : mstate :=
  MState (m_rest st) (m_idx st + d) (m_caps st).

(** A string whose code units have sixteen bits, as those of JavaScript
    have. *)
Definition codeUnits (s : jsstring) : Prop := Forall (fun c => c < 65536) s.

(** What [encodeURIComponent] can give back: a code unit that it leaves
    alone, or one of an escape, the percent sign and two digits. *)
Definition uriSafe (c : N) : bool := unreserved c || (c =? 37).

(* ================================================================== *)
(** * Facts about strings *)
(* ================================================================== *)

Lemma str_eqb_eq a b : str_eqb a b = true <-> a = b.
Proof.
  revert b; induction a as [|x a IH]; intros [|y b]; simpl; split;
    try congruence; try reflexivity.
  - intros H. apply andb_true_iff in H as [H1 H2].
    apply N.eqb_eq in H1. apply IH in H2. congruence.
  - intros H. injection H as -> ->. rewrite N.eqb_refl. simpl.
    now apply IH.
Qed.

Lemma str_eqb_refl a : str_eqb a a = true.
Proof. now apply str_eqb_eq. Qed.

Lemma str_eqb_neq a b : str_eqb a b = false <-> a <> b.
Proof.
  split.
  - intros H E. apply str_eqb_eq in E. congruence.
  - intros H. destruct (str_eqb a b) eqn:E; [|reflexivity].
    apply str_eqb_eq in E. contradiction.
Qed.

Lemma startsWith_app s p : startsWith (p ++ s) p = true.
Proof.
  induction p as [|x p IH]; simpl.
  - now destruct s.
  - now rewrite N.eqb_refl.
Qed.

Lemma startsWith_inv s p :
  startsWith s p = true -> exists rest, s = p ++ rest.
Proof.
  revert s; induction p as [|x p IH]; intros s H.
  - now exists s.
  - destruct s as [|y s]; simpl in H; [discriminate|].
    apply andb_true_iff in H as [H1 H2]. apply N.eqb_eq in H1. subst y.
    destruct (IH _ H2) as [rest ->]. now exists rest.
Qed.

Lemma snoc_case (A : Type) (l : list A) :
  l = [] \/ exists l' x, l = l' ++ [x].
Proof.
  induction l as [|x l' _] using rev_ind; [now left | right; eauto].
Qed.

Lemma walk_fold segs : forall dir,
  walk dir segs (fold_left resolve_step segs dir).
Proof.
  induction segs as [|seg segs IH]; intros dir; simpl.
  - constructor.
  - unfold resolve_step at 2.
    destruct (str_eqb seg (js ".")) eqn:E1.
    + apply str_eqb_eq in E1. subst seg. now constructor.
    + destruct (str_eqb seg (js "..")) eqn:E2.
      * apply str_eqb_eq in E2. subst seg.
        destruct (snoc_case _ dir) as [-> | (d & x & ->)].
        -- simpl. now constructor.
        -- rewrite length_app, Nat.add_comm. simpl.
           rewrite removelast_last. now constructor.
      * apply str_eqb_neq in E1, E2. now constructor.
Qed.

Lemma walk_functional dir segs r1 r2 :
  walk dir segs r1 -> walk dir segs r2 -> r1 = r2.
Proof.
  intros H; revert r2.
  induction H as [dir | dir segs r H IH | segs r H IH
                 | dir x segs r H IH | dir seg segs r N1 N2 H IH];
    intros r2 H2.
  - now inversion H2.
  - inversion H2; subst; try (now apply IH); congruence.
  - inversion H2; subst; try (now apply IH); try congruence.
    + now destruct dir.
  - inversion H2; subst; try congruence.
    + now destruct dir.
    + apply app_inj_tail in H0 as [-> _]. now apply IH.
  - inversion H2; subst; try congruence. now apply IH.
Qed.

(* ================================================================== *)
(** * The resolver *)
(* ================================================================== *)

Lemma startsWith_dot_not_slash s :
  startsWith s (js ".") = true -> startsWith s (js "/") = false.
Proof.
  intros H. apply startsWith_inv in H as [rest ->]. reflexivity.
Qed.

(** C1.  The resolver returns a bare specifier unchanged, strips the
    leading slash of a root-relative one and returns the remainder as it
    is, and otherwise walks the segments of the specifier from the
    directory of the source path ([.] stays, [..] pops and is a no-op on
    the empty directory, any other segment is pushed) and joins the
    result; the five sample resolutions of the specification hold. *)
Theorem resolver_behaves_as_specified :
  (forall sourcePath specifier,
      (startsWith specifier (js ".") = false ->
       startsWith specifier (js "/") = false ->
       resolveModuleSpecifier sourcePath specifier = specifier)
      /\ (forall rest, specifier = SLASH :: rest ->
                       resolveModuleSpecifier sourcePath specifier = rest)
      /\ (startsWith specifier (js ".") = true ->
          exists segments,
            walk (removelast (split SLASH sourcePath))
                 (split SLASH specifier) segments
            /\ (forall other,
                   walk (removelast (split SLASH sourcePath))
                        (split SLASH specifier) other -> other = segments)
            /\ resolveModuleSpecifier sourcePath specifier
               = join (js "/") segments))
  /\ resolveModuleSpecifier (js "src/a/b.js") (js "./c.js") = js "src/a/c.js"
  /\ resolveModuleSpecifier (js "src/a/b.js") (js "../c.js") = js "src/c.js"
  /\ resolveModuleSpecifier (js "x.js") (js "../../y.js") = js "y.js"
  /\ resolveModuleSpecifier (js "x.js") (js "/z.js") = js "z.js"
  /\ resolveModuleSpecifier (js "x.js") (js "preact") = js "preact".
Proof.
  split; [|repeat split; reflexivity].
  intros sourcePath specifier. unfold resolveModuleSpecifier.
  split; [|split].
  - intros -> ->. reflexivity.
  - intros rest ->. reflexivity.
  - intros Hdot. rewrite Hdot, (startsWith_dot_not_slash _ Hdot). simpl.
    eexists. split; [apply walk_fold|]. split; [|reflexivity].
    intros other Hother. eapply walk_functional; [exact Hother|apply walk_fold].
Qed.

(* ================================================================== *)
(** * The read-only shell *)
(* ================================================================== *)

(** C4, as the code has it.  [create_file] on [index.html] leaves the
    whole state, and so every entry of the file system, as it was and
    returns an error message; the file-change operation of the editor with
    [index.html] selected leaves the state as it was as well, and returns
    nothing. *)
Theorem index_html_is_read_only :
  forall (st : App.State) (fs : FileSystem) (text : jsstring),
    (fst (App.create_file (js "index.html") text st) = st
     /\ App.reports_rejection (snd (App.create_file (js "index.html") text st)) = true
     /\ obj_get (App.files (fst (App.create_file (js "index.html") text st)))
                (js "index.html")
        = obj_get (App.files st) (js "index.html"))
    /\ (fst (App.handleFileChange text (shellSelected fs)) = shellSelected fs
        /\ snd (App.handleFileChange text (shellSelected fs)) = App.VUndefined).
Proof.
  intros st fs text. repeat split.
Qed.

(** C4 as stated fails for the editor: with [index.html] selected, the
    file-change operation reports no rejection. *)
Lemma editor_change_reports_nothing :
  App.reports_rejection
    (snd (App.handleFileChange (js "<html></html>") (shellSelected INITIAL_FILES)))
  = false.
Proof. reflexivity. Qed.

(* ================================================================== *)
(** * Facts about objects *)
(* ================================================================== *)

Section ObjectFacts.

Variable V : Type.
Implicit Types (o : obj V) (k : jsstring) (v : V).

Lemma obj_get_In o k v : obj_get o k = Some v -> In (k, v) o.
Proof.
  induction o as [|[k' v'] o IH]; simpl; [discriminate|].
  destruct (str_eqb k' k) eqn:E.
  - apply str_eqb_eq in E. intros [= ->]. left. now subst.
  - intros H. right. now apply IH.
Qed.

Lemma has_key_In o k : has_key o k = true <-> In k (keys o).
Proof.
  unfold has_key. induction o as [|[k' v'] o IH]; simpl.
  - split; [discriminate|tauto].
  - destruct (str_eqb k' k) eqn:E.
    + apply str_eqb_eq in E. split; [now left|reflexivity].
    + apply str_eqb_neq in E. rewrite IH. split; [now right|].
      intros [H|H]; [contradiction|exact H].
Qed.

Lemma has_key_false o k : has_key o k = false <-> ~ In k (keys o).
Proof.
  rewrite <- has_key_In. destruct (has_key o k); split; congruence.
Qed.

Lemma In_obj_get o k v :
  NoDup (keys o) -> In (k, v) o -> obj_get o k = Some v.
Proof.
  induction o as [|[k' v'] o IH]; simpl; [tauto|].
  intros Hnd [H|H].
  - injection H as -> ->. now rewrite str_eqb_refl.
  - inversion Hnd as [|? ? Hnot Hnd']; subst.
    destruct (str_eqb k' k) eqn:E.
    + apply str_eqb_eq in E. subst k'. exfalso. apply Hnot.
      change k with (fst (k, v)). now apply in_map.
    + now apply IH.
Qed.

Lemma obj_get_app o1 o2 k :
  obj_get (o1 ++ o2) k
  = match obj_get o1 k with Some v => Some v | None => obj_get o2 k end.
Proof.
  induction o1 as [|[k' v'] o1 IH]; simpl; [reflexivity|].
  now destruct (str_eqb k' k).
Qed.

Lemma keys_update o k v : keys (obj_update k v o) = keys o.
Proof.
  induction o as [|[k' v'] o IH]; simpl; [reflexivity|].
  destruct (str_eqb k' k); simpl; [reflexivity|]. now rewrite IH.
Qed.

Lemma obj_get_update_same o k v :
  has_key o k = true -> obj_get (obj_update k v o) k = Some v.
Proof.
  unfold has_key. induction o as [|[k' v'] o IH]; simpl; [discriminate|].
  destruct (str_eqb k' k) eqn:E; simpl; rewrite E; [reflexivity|exact IH].
Qed.

Lemma obj_get_update_other o k k' v :
  k' <> k -> obj_get (obj_update k v o) k' = obj_get o k'.
Proof.
  intros Hne. induction o as [|[k0 v0] o IH]; simpl; [reflexivity|].
  destruct (str_eqb k0 k) eqn:E; simpl.
  - apply str_eqb_eq in E. subst k0.
    assert (str_eqb k k' = false) as ->; [|reflexivity].
    apply str_eqb_neq. congruence.
  - now rewrite IH.
Qed.

Lemma obj_get_insert_other o i k k' v :
  k' <> k -> obj_get (obj_insert_index i k v o) k' = obj_get o k'.
Proof.
  intros Hne.
  assert (str_eqb k k' = false) as Hkk by (apply str_eqb_neq; congruence).
  induction o as [|[k0 v0] o IH]; simpl.
  - now rewrite Hkk.
  - destruct (array_index k0) as [j|]; [destruct (j <? i)|]; simpl;
      rewrite ?Hkk; try reflexivity.
    now rewrite IH.
Qed.

Lemma obj_get_insert_new o i k v :
  has_key o k = false -> obj_get (obj_insert_index i k v o) k = Some v.
Proof.
  unfold has_key. induction o as [|[k0 v0] o IH]; simpl.
  - now rewrite str_eqb_refl.
  - destruct (str_eqb k0 k) eqn:E; [discriminate|]. intros H.
    destruct (array_index k0) as [j|]; [destruct (j <? i)|]; simpl;
      rewrite ?str_eqb_refl, ?E; auto.
Qed.

Lemma keys_insert o i k v x :
  In x (keys (obj_insert_index i k v o)) <-> x = k \/ In x (keys o).
Proof.
  induction o as [|[k0 v0] o IH]; simpl.
  - intuition.
  - destruct (array_index k0) as [j|]; [destruct (j <? i)|]; simpl;
      rewrite ?IH; intuition.
Qed.

Lemma NoDup_keys_insert o i k v :
  ~ In k (keys o) -> NoDup (keys o) -> NoDup (keys (obj_insert_index i k v o)).
Proof.
  induction o as [|[k0 v0] o IH]; simpl; intros Hnot Hnd.
  - constructor; [tauto|constructor].
  - inversion Hnd as [|? ? Hn0 Hnd']; subst.
    assert (NoDup (k :: k0 :: keys o)) as Hall.
    { constructor; [simpl; tauto|exact Hnd]. }
    destruct (array_index k0) as [j|]; [destruct (j <? i)|]; simpl;
      try exact Hall.
    constructor.
    + rewrite keys_insert. intros [->|H]; [apply Hnot; now left|contradiction].
    + apply IH; [tauto|exact Hnd'].
Qed.

Lemma obj_get_define_same o k v : obj_get (obj_define k v o) k = Some v.
Proof.
  unfold obj_define. destruct (has_key o k) eqn:Hk.
  - now apply obj_get_update_same.
  - destruct (array_index k).
    + now apply obj_get_insert_new.
    + rewrite obj_get_app. unfold has_key in Hk.
      destruct (obj_get o k); [discriminate|]. simpl. now rewrite str_eqb_refl.
Qed.

Lemma obj_get_define_other o k k' v :
  k' <> k -> obj_get (obj_define k v o) k' = obj_get o k'.
Proof.
  intros Hne. unfold obj_define. destruct (has_key o k).
  - now apply obj_get_update_other.
  - destruct (array_index k).
    + now apply obj_get_insert_other.
    + rewrite obj_get_app. destruct (obj_get o k'); [reflexivity|]. simpl.
      assert (str_eqb k k' = false) as ->; [|reflexivity].
      apply str_eqb_neq. congruence.
Qed.

Lemma keys_define o k v x :
  In x (keys (obj_define k v o)) <-> x = k \/ In x (keys o).
Proof.
  unfold obj_define. destruct (has_key o k) eqn:Hk.
  - rewrite keys_update. apply has_key_In in Hk. split; [tauto|].
    intros [->|H]; assumption.
  - destruct (array_index k).
    + apply keys_insert.
    + unfold keys. rewrite map_app, in_app_iff. simpl. intuition.
Qed.

Lemma NoDup_keys_define o k v :
  NoDup (keys o) -> NoDup (keys (obj_define k v o)).
Proof.
  intros Hnd. unfold obj_define. destruct (has_key o k) eqn:Hk.
  - now rewrite keys_update.
  - apply has_key_false in Hk. destruct (array_index k).
    + now apply NoDup_keys_insert.
    + unfold keys. rewrite map_app. simpl.
      apply NoDup_app; [exact Hnd|repeat constructor; tauto|].
      intros x Hx [<-|[]]. contradiction.
Qed.

End ObjectFacts.

Lemma obj_get_set_same o k v :
  k <> proto -> obj_get (obj_set k v o) k = Some v.
Proof.
  intros Hk. unfold obj_set. fold proto.
  apply str_eqb_neq in Hk. rewrite Hk. apply obj_get_define_same.
Qed.

Lemma obj_get_set_other o k k' v :
  k' <> k -> obj_get (obj_set k v o) k' = obj_get o k'.
Proof.
  intros Hne. unfold obj_set. destruct (str_eqb k (js "__proto__")).
  - reflexivity.
  - now apply obj_get_define_other.
Qed.

Lemma has_key_set o k k' v :
  has_key o k' = true -> has_key (obj_set k v o) k' = true.
Proof.
  unfold obj_set. destruct (str_eqb k (js "__proto__")); [tauto|].
  rewrite !has_key_In, keys_define. tauto.
Qed.

Lemma NoDup_keys_set o k v :
  NoDup (keys o) -> NoDup (keys (obj_set k v o)).
Proof.
  unfold obj_set. destruct (str_eqb k (js "__proto__")); [tauto|].
  apply NoDup_keys_define.
Qed.

Lemma obj_get_set_inv o k k' v w :
  obj_get (obj_set k v o) k' = Some w ->
  (k' = k /\ w = v) \/ obj_get o k' = Some w.
Proof.
  intros H. destruct (str_eqb k' k) eqn:E.
  - apply str_eqb_eq in E. subst k'. unfold obj_set in H.
    destruct (str_eqb k (js "__proto__")); [now right|].
    rewrite obj_get_define_same in H. left. split; congruence.
  - apply str_eqb_neq in E. rewrite obj_get_set_other in H by exact E.
    now right.
Qed.

(* ================================================================== *)
(** * The import rewriting stage and the files it leaves alone *)
(* ================================================================== *)

Lemma processedFiles_fold files :
  processedFiles files = fold_left storeProcessed files [].
Proof. reflexivity. Qed.

Lemma fold_processed_sound files : forall acc path text,
  obj_get (fold_left storeProcessed files acc) path = Some text ->
  obj_get acc path = Some text
  \/ exists file, In (path, file) files /\ text = processFile path file.
Proof.
  induction files as [|[p f] files IH]; intros acc path text H; simpl in *.
  - now left.
  - apply IH in H as [H|(file & Hin & ->)].
    + unfold storeProcessed in H. simpl in H.
      apply obj_get_set_inv in H as [[-> ->]|H]; [right|now left].
      exists f. split; [now left|reflexivity].
    + right. exists file. split; [now right|reflexivity].
Qed.

Lemma fold_processed_frame files : forall acc path,
  ~ In path (List.map fst files) ->
  obj_get (fold_left storeProcessed files acc) path = obj_get acc path.
Proof.
  induction files as [|[p f] files IH]; intros acc path Hnot; simpl in *.
  - reflexivity.
  - rewrite IH by tauto. unfold storeProcessed. simpl.
    apply obj_get_set_other. intros ->. tauto.
Qed.

Lemma fold_processed_complete files : forall acc path file,
  NoDup (List.map fst files) -> In (path, file) files -> path <> proto ->
  obj_get (fold_left storeProcessed files acc) path
  = Some (processFile path file).
Proof.
  induction files as [|[p f] files IH]; intros acc path file Hnd Hin Hp;
    simpl in *; [contradiction|].
  inversion Hnd as [|? ? Hnot Hnd']; subst.
  destruct Hin as [[= -> ->]|Hin].
  - rewrite fold_processed_frame by exact Hnot.
    unfold storeProcessed. simpl. now apply obj_get_set_same.
  - now apply IH.
Qed.

Lemma fold_processed_NoDup files : forall acc,
  NoDup (keys acc) -> NoDup (keys (fold_left storeProcessed files acc)).
Proof.
  induction files as [|[p f] files IH]; intros acc H; simpl; [exact H|].
  apply IH. now apply NoDup_keys_set.
Qed.

Lemma processedFiles_NoDup files : NoDup (keys (processedFiles files)).
Proof. apply fold_processed_NoDup. constructor. Qed.

(* ================================================================== *)
(** * The end-to-end scenario *)
(* ================================================================== *)

(** C3.  For the shell and [src/main.js] with the content of the
    scenario, the build succeeds; its document carries, right after
    [<head>], the import-map script, which lists [preact] with its CDN
    address, followed at once by the rest of the head of the shell, the
    style block being empty; the entry script has become the inline module
    import of [src/main.js]; and the error script comes right after
    [<body>]. *)
Theorem end_to_end_scenario :
  imports scenarioFiles = Ok scenarioImports
  /\ buildPreviewContent scenarioFiles = Ok scenarioDocument
  /\ obj_get scenarioImports (js "preact") = Some (js "https://esm.sh/preact@10.19.6")
  /\ includes (importMapScript scenarioImports) preactEntry = true
  /\ styleTag scenarioFiles = []
  /\ includes scenarioDocument
       (js "<head>" ++ importMapScript scenarioImports ++ NL
          ++ js "    <meta charset=") = true
  /\ includes scenarioDocument inlineMainImport = true
  /\ includes scenarioDocument (js "./src/main.js" ++ dq ++ js "></script>") = false
  /\ includes scenarioDocument
       (js "<body>" ++ errorScript ++ NL ++ js "    <div id=") = true.
Proof.
  repeat apply conj; vm_compute; reflexivity.
Qed.

(* ================================================================== *)
(** * Facts about searching in strings *)
(* ================================================================== *)

Lemma endsWith_iff s e : endsWith s e = true <-> exists pre, s = pre ++ e.
Proof.
  unfold endsWith. split.
  - intros H. apply startsWith_inv in H as [rest H].
    exists (rev rest). apply (f_equal (@rev N)) in H.
    now rewrite rev_involutive, rev_app_distr, rev_involutive in H.
  - intros [pre ->]. rewrite rev_app_distr. apply startsWith_app.
Qed.

Lemma indexOf_Some s p : forall i,
  indexOf s p = Some i ->
  s = firstn i s ++ p ++ skipn (i + length p) s
  /\ length (firstn i s) = i
  /\ (forall j, (j < i)%nat -> startsWith (skipn j s) p = false).
Proof.
  induction s as [|c s IH]; intros i; simpl.
  - destruct (startsWith [] p) eqn:E; [|discriminate].
    intros [= <-]. apply startsWith_inv in E as [rest E].
    destruct p; [|discriminate]. repeat split. intros j Hj. inversion Hj.
  - destruct (startsWith (c :: s) p) eqn:E.
    + intros [= <-]. apply startsWith_inv in E as [rest E]. simpl.
      rewrite E at 1. rewrite E. rewrite skipn_app, skipn_all, Nat.sub_diag.
      repeat split. intros j Hj. inversion Hj.
    + destruct (indexOf s p) as [i'|] eqn:Ei; [|discriminate].
      intros [= <-]. destruct (IH _ eq_refl) as (H1 & H2 & H3).
      simpl. rewrite <- H1, H2. repeat split.
      intros [|j] Hj; simpl; [exact E|]. apply H3. lia.
Qed.

Lemma indexOf_None s p :
  indexOf s p = None -> forall pre post, s <> pre ++ p ++ post.
Proof.
  induction s as [|c s IH]; simpl.
  - destruct (startsWith [] p) eqn:E; [discriminate|]. intros _ pre post H.
    destruct pre; [|discriminate]. destruct p; [discriminate|discriminate].
  - destruct (startsWith (c :: s) p) eqn:E; [discriminate|].
    destruct (indexOf s p) eqn:Ei; [discriminate|]. intros _ pre post H.
    destruct pre as [|x pre].
    + simpl in H. rewrite H, startsWith_app in E. discriminate.
    + injection H as _ H. now apply (IH eq_refl pre post).
Qed.

Lemma indexOf_first pre : forall p post,
  (forall j, (j < length pre)%nat ->
             startsWith (skipn j (pre ++ p ++ post)) p = false) ->
  indexOf (pre ++ p ++ post) p = Some (length pre).
Proof.
  induction pre as [|c pre IH]; intros p post H.
  - simpl. destruct (p ++ post) eqn:E; simpl;
      rewrite <- E, startsWith_app; reflexivity.
  - assert (startsWith ((c :: pre) ++ p ++ post) p = false) as H0.
    { apply (H 0%nat). simpl. lia. }
    cbn [app indexOf] in *. rewrite H0.
    rewrite IH; [reflexivity|]. intros j Hj. apply (H (S j)). simpl. lia.
Qed.

Lemma includes_iff s p :
  includes s p = true <-> exists pre post, s = pre ++ p ++ post.
Proof.
  unfold includes. destruct (indexOf s p) as [i|] eqn:E.
  - apply indexOf_Some in E as (H & _). split; [|reflexivity].
    intros _. eauto.
  - split; [discriminate|]. intros (pre & post & H).
    now apply (indexOf_None s p E pre post) in H.
Qed.

Lemma includes_false s p :
  includes s p = false <-> forall pre post, s <> pre ++ p ++ post.
Proof.
  split.
  - intros H pre post E. assert (includes s p = true) by (apply includes_iff; eauto).
    congruence.
  - intros H. destruct (includes s p) eqn:E; [|reflexivity].
    apply includes_iff in E as (pre & post & E). now apply H in E.
Qed.

(** A replacement string without [$] is inserted as it is. *)
Lemma getSubstitution_plain matched before after captures replacement :
  one_of replacement DOLLAR = false ->
  getSubstitution matched before after captures replacement = replacement.
Proof.
  induction replacement as [|c t IH]; [reflexivity|].
  unfold one_of in *. cbn [existsb getSubstitution]. intros H.
  apply orb_false_iff in H as [H1 H2]. rewrite N.eqb_sym in H1.
  rewrite H1. cbn [negb]. now rewrite IH.
Qed.

Lemma replace_str_first pre pattern post replacement :
  (forall j, (j < length pre)%nat ->
             startsWith (skipn j (pre ++ pattern ++ post)) pattern = false) ->
  replace_str (pre ++ pattern ++ post) pattern replacement
  = pre ++ getSubstitution pattern pre post [] replacement ++ post.
Proof.
  intros H. unfold replace_str. rewrite indexOf_first by exact H.
  rewrite firstn_app, firstn_all, Nat.sub_diag. simpl. rewrite app_nil_r.
  rewrite skipn_app, skipn_all2 by lia.
  replace (length pre + length pattern - length pre)%nat
    with (length pattern) by lia.
  rewrite skipn_app, skipn_all, Nat.sub_diag. reflexivity.
Qed.

(* ================================================================== *)
(** * Surrogate pairs survive the import rewriting *)
(* ================================================================== *)

Lemma trail_not_lead c : is_trail c = true -> is_lead c = false.
Proof.
  unfold is_trail, is_lead. intros H. apply andb_true_iff in H as [H _].
  apply N.leb_le in H. apply andb_false_iff. right. apply N.leb_gt. lia.
Qed.

Lemma well_formed_cons_plain c t :
  is_trail c = false -> is_lead c = false ->
  well_formed (c :: t) = well_formed t.
Proof. intros H1 H2. cbn [well_formed]. now rewrite H1, H2. Qed.

Lemma well_formed_cons_pair c d t :
  is_trail c = false -> is_lead c = true ->
  well_formed (c :: d :: t) = is_trail d && well_formed t.
Proof. intros H1 H2. cbn [well_formed]. now rewrite H1, H2. Qed.

Lemma well_formed_induction (P : jsstring -> Prop) :
  P [] ->
  (forall c t, plain c = true -> well_formed t = true -> P t -> P (c :: t)) ->
  (forall c d t, is_lead c = true -> is_trail d = true ->
                 well_formed t = true -> P t -> P (c :: d :: t)) ->
  forall s, well_formed s = true -> P s.
Proof.
  intros Hnil Hplain Hpair s.
  enough ((well_formed s = true -> P s)
          /\ forall c, well_formed (c :: s) = true -> P (c :: s)) by tauto.
  induction s as [|d s [IH1 IH2]].
  - split; [auto|]. intros c H. cbn [well_formed] in H.
    destruct (is_trail c) eqn:Ht; [discriminate|].
    destruct (is_lead c) eqn:Hl; [discriminate|].
    apply Hplain; auto. unfold plain. now rewrite Ht, Hl.
  - split; [apply IH2|]. intros c H.
    destruct (is_trail c) eqn:Ht; [cbn [well_formed] in H; now rewrite Ht in H|].
    destruct (is_lead c) eqn:Hl.
    + rewrite well_formed_cons_pair in H by assumption.
      apply andb_true_iff in H as [Hd Hs]. now apply Hpair; auto.
    + rewrite well_formed_cons_plain in H by assumption.
      apply Hplain; auto. unfold plain. now rewrite Ht, Hl.
Qed.

Lemma plain_inv c : plain c = true -> is_trail c = false /\ is_lead c = false.
Proof.
  unfold plain. intros H. apply andb_true_iff in H as [H1 H2].
  now destruct (is_trail c), (is_lead c).
Qed.

Lemma well_formed_app a b :
  well_formed a = true -> well_formed b = true -> well_formed (a ++ b) = true.
Proof.
  intros Ha Hb. revert a Ha. apply well_formed_induction.
  - exact Hb.
  - intros c t Hc _ IH. apply plain_inv in Hc as [H1 H2].
    cbn [app]. now rewrite well_formed_cons_plain.
  - intros c d t Hc Hd _ IH. cbn [app].
    rewrite well_formed_cons_pair; auto.
    + now rewrite Hd.
    + destruct (is_trail c) eqn:E; [|reflexivity].
      apply trail_not_lead in E. congruence.
Qed.

Lemma well_formed_split a : forall b,
  well_formed (a ++ b) = true ->
  ends_lead a = false \/ starts_trail b = false ->
  well_formed a = true /\ well_formed b = true.
Proof.
  enough ((forall b, well_formed (a ++ b) = true ->
                     ends_lead a = false \/ starts_trail b = false ->
                     well_formed a = true /\ well_formed b = true)
          /\ forall c b, well_formed ((c :: a) ++ b) = true ->
                         ends_lead (c :: a) = false \/ starts_trail b = false ->
                         well_formed (c :: a) = true /\ well_formed b = true)
    by tauto.
  induction a as [|d a [IH1 IH2]].
  - split; [intros b H _; now split|]. intros c b H Hcut. cbn [app] in H.
    destruct (is_trail c) eqn:Ht; [cbn [well_formed] in H; now rewrite Ht in H|].
    destruct (is_lead c) eqn:Hl.
    + exfalso. destruct b as [|x b];
        [cbn [well_formed] in H; now rewrite Ht, Hl in H|].
      rewrite well_formed_cons_pair in H by assumption.
      apply andb_true_iff in H as [Hx _]. cbn in Hcut.
      destruct Hcut; congruence.
    + rewrite well_formed_cons_plain in * by assumption. now split.
  - split; [apply IH2|]. intros c b H Hcut. cbn [app] in H.
    assert (ends_lead (c :: d :: a) = ends_lead (d :: a)) as Hends by reflexivity.
    rewrite Hends in Hcut.
    destruct (is_trail c) eqn:Ht; [cbn [well_formed] in H; now rewrite Ht in H|].
    destruct (is_lead c) eqn:Hl.
    + rewrite well_formed_cons_pair in * by assumption.
      apply andb_true_iff in H as [Hd H]. rewrite Hd. cbn [andb].
      apply IH1; [exact H|]. destruct a as [|x a]; [now left|exact Hcut].
    + rewrite well_formed_cons_plain in * by assumption.
      now apply IH2.
Qed.

Lemma star_greedy_sound p k res : forall rest idx,
  star_greedy p rest idx k = Some res ->
  exists cs t, rest = cs ++ t /\ forallb p cs = true
               /\ k t (idx + length cs)%nat = Some res.
Proof.
  induction rest as [|c rest IH]; intros idx H; cbn [star_greedy] in H.
  - exists [], []. rewrite Nat.add_0_r. auto.
  - destruct (p c) eqn:Hc.
    + destruct (star_greedy p rest (S idx) k) as [r|] eqn:E.
      * injection H as <-. destruct (IH _ E) as (cs & t & -> & Hcs & Hk).
        exists (c :: cs), t. cbn [forallb length app]. rewrite Hc, Hcs.
        rewrite Nat.add_succ_r. auto.
      * exists [], (c :: rest). rewrite Nat.add_0_r. auto.
    + exists [], (c :: rest). rewrite Nat.add_0_r. auto.
Qed.

Lemma star_lazy_sound p k res : forall rest idx,
  star_lazy p rest idx k = Some res ->
  exists cs t, rest = cs ++ t /\ forallb p cs = true
               /\ k t (idx + length cs)%nat = Some res.
Proof.
  induction rest as [|c rest IH]; intros idx H; cbn [star_lazy] in H.
  - destruct (k [] idx) eqn:E; [|discriminate].
    exists [], []. rewrite Nat.add_0_r. rewrite E. auto.
  - destruct (k (c :: rest) idx) eqn:E.
    + exists [], (c :: rest). rewrite Nat.add_0_r. rewrite E. auto.
    + destruct (p c) eqn:Hc; [|discriminate].
      destruct (IH _ H) as (cs & t & -> & Hcs & Hk).
      exists (c :: cs), t. cbn [forallb length app]. rewrite Hc, Hcs.
      rewrite Nat.add_succ_r. auto.
Qed.

(** Whatever the matcher finds is a match in the sense of the relation. *)
Lemma rmatch_sound r : forall st k res,
  rmatch r st k = Some res ->
  exists st', Matches r st st' /\ k st' = Some res.
Proof.
  induction r as [|p|a IHa b IHb|a IHa b IHb|n a IHa|g p|a IHa| |];
    intros st k res H; cbn [rmatch] in H.
  - exists st. split; [constructor|exact H].
  - destruct st as [rest i caps]. cbn [m_rest m_idx m_caps] in H.
    destruct rest as [|c t]; [discriminate|].
    destruct (p c) eqn:Hc; [|discriminate].
    eexists. split; [now constructor|exact H].
  - apply IHa in H as (st1 & H1 & H). apply IHb in H as (st2 & H2 & H).
    exists st2. split; [econstructor; eassumption|exact H].
  - destruct (rmatch a st k) as [r|] eqn:E.
    + injection H as <-. apply IHa in E as (st' & H1 & H).
      exists st'. split; [now apply M_AltL|exact H].
    + apply IHb in H as (st' & H1 & H).
      exists st'. split; [now apply M_AltR|exact H].
  - apply IHa in H as (st' & H1 & H).
    eexists. split; [apply M_Group; eassumption|exact H].
  - destruct st as [rest i caps]. cbn [m_rest m_idx m_caps] in H.
    destruct g.
    + apply star_greedy_sound in H as (cs & t & -> & Hcs & H).
      eexists. split; [now apply M_Star|exact H].
    + apply star_lazy_sound in H as (cs & t & -> & Hcs & H).
      eexists. split; [now apply M_Star|exact H].
  - match type of H with
    | match ?x with _ => _ end = _ => destruct x as [r|] eqn:E
    end.
    + injection H as <-. apply IHa in E as (st' & H1 & H).
      destruct (m_idx st' =? m_idx st)%nat; [discriminate|].
      exists st'. split; [now apply M_OptSome|exact H].
    + exists st. split; [apply M_OptNone|exact H].
  - destruct (m_idx st =? 0)%nat eqn:E; [|discriminate].
    apply Nat.eqb_eq in E. exists st. split; [now constructor|exact H].
  - destruct (m_rest st) eqn:E; [|discriminate].
    exists st. split; [now constructor|exact H].
Qed.

(** A match consumes a prefix of the input. *)
Lemma Matches_consumes r st st' :
  Matches r st st' ->
  exists M, m_rest st = M ++ m_rest st'
            /\ m_idx st' = (m_idx st + length M)%nat.
Proof.
  induction 1 as [st|p c t i caps Hc|a b st1 st2 st3 _ [M1 [E1 I1]] _ [M2 [E2 I2]]
                 |a b st st' _ IH|a b st st' _ IH|n a st st' _ [M [E I]]
                 |g p cs t i caps Hcs|a st st' _ IH|a st|st Hi|st Hr];
    cbn [m_rest m_idx] in *.
  - exists []. rewrite Nat.add_0_r. auto.
  - exists [c]. cbn. rewrite Nat.add_1_r. auto.
  - exists (M1 ++ M2). rewrite E1, E2, I2, I1, length_app, <- app_assoc.
    split; [reflexivity|lia].
  - exact IH.
  - exact IH.
  - exists M. auto.
  - exists cs. auto.
  - exact IH.
  - exists []. rewrite Nat.add_0_r. auto.
  - exists []. rewrite Nat.add_0_r. auto.
  - exists []. rewrite Nat.add_0_r. auto.
Qed.

Lemma Matches_groupless r st st' :
  Matches r st st' -> groupless r = true -> m_caps st' = m_caps st.
Proof.
  induction 1; cbn [groupless m_caps]; intros G; try reflexivity;
    try (apply andb_true_iff in G as [G1 G2]); try discriminate; auto.
  rewrite IHMatches2, IHMatches1; auto.
Qed.

Lemma Matches_begins q r st st' :
  Matches r st st' -> begins_in q r ->
  exists c t, m_rest st = c :: t /\ q c = true.
Proof.
  induction 1; cbn [begins_in m_rest]; intros B; try contradiction; eauto.
  - destruct B. auto.
  - destruct B. auto.
Qed.

Lemma Matches_ends q r st st' :
  Matches r st st' -> ends_in q r ->
  exists M c, m_rest st = M ++ c :: m_rest st' /\ q c = true.
Proof.
  induction 1 as [st|p c t i caps Hc|a b st1 st2 st3 H1 _ H2 IH2
                 |a b st st' _ IH|a b st st' _ IH|n a st st' _ IH
                 |g p cs t i caps Hcs|a st st' _ IH|a st|st Hi|st Hr];
    cbn [ends_in m_rest]; intros E; try contradiction.
  - exists [], c. auto.
  - destruct (IH2 E) as (M & c & HM & Hc).
    destruct (Matches_consumes _ _ _ H1) as (M1 & HM1 & _).
    exists (M1 ++ M), c. rewrite HM1, HM, <- app_assoc. auto.
  - destruct E. auto.
  - destruct E. auto.
  - auto.
Qed.

Lemma Matches_group_inv n a st st2 :
  Matches (Group n a) st st2 ->
  exists st1 M,
    Matches a st st1
    /\ m_rest st = M ++ m_rest st1
    /\ m_idx st1 = (m_idx st + length M)%nat
    /\ st2 = MState (m_rest st1) (m_idx st1) ((n, M) :: m_caps st1).
Proof.
  intros H. inversion H as [| | | | |n' a' st' st1 H1| | | | |]; subst.
  destruct (Matches_consumes _ _ _ H1) as (M & HM & HI).
  exists st1, M. repeat split; auto.
  rewrite HM, HI. replace (m_idx st + length M - m_idx st)%nat with (length M) by lia.
  now rewrite firstn_app, firstn_all, Nat.sub_diag, app_nil_r.
Qed.

Lemma ends_lead_app a b : b <> [] -> ends_lead (a ++ b) = ends_lead b.
Proof.
  intros Hb. induction a as [|x a IH]; [reflexivity|].
  cbn [app]. rewrite <- IH. destruct (a ++ b) eqn:E; [|reflexivity].
  apply app_eq_nil in E as [_ E]. contradiction.
Qed.

Lemma starts_trail_app a b : a <> [] -> starts_trail (a ++ b) = starts_trail a.
Proof. destruct a; [contradiction|reflexivity]. Qed.

Lemma plain_not_trail c : plain c = true -> is_trail c = false.
Proof. intros H. now apply plain_inv in H. Qed.

Lemma plain_not_lead c : plain c = true -> is_lead c = false.
Proof. intros H. now apply plain_inv in H. Qed.

(** A match of a pattern that begins and ends with plain code units is
    not empty and neither begins nor ends inside a surrogate pair. *)
Lemma Matches_plain_ends r st st' M :
  Matches r st st' -> begins_in plain r -> ends_in plain r ->
  m_rest st = M ++ m_rest st' ->
  M <> [] /\ starts_trail M = false /\ ends_lead M = false.
Proof.
  intros H B E HM.
  destruct (Matches_begins plain _ _ _ H B) as (c & t & Hc & Pc).
  destruct (Matches_ends plain _ _ _ H E) as (M' & x & Hx & Px).
  assert (M = M' ++ [x]) as ->.
  { apply (app_inv_tail (m_rest st')). rewrite <- HM, Hx.
    now rewrite <- app_assoc. }
  split; [now destruct M'|]. split.
  - rewrite <- app_assoc in HM. rewrite Hc in HM.
    destruct M' as [|y M']; cbn in HM |- *; injection HM as <- _;
      now apply plain_not_trail.
  - rewrite ends_lead_app by discriminate. cbn. now apply plain_not_lead.
Qed.

Lemma three_groups_shape A B C idx s m :
  groupless A = true -> groupless B = true -> groupless C = true ->
  begins_in plain A -> ends_in plain A ->
  begins_in plain C -> ends_in plain C ->
  exec_at (threeGroups A B C) idx s = Some m ->
  exists M1 M2 M3,
    s = M1 ++ M2 ++ M3 ++ m_rest m
    /\ m_idx m = (idx + length (M1 ++ M2 ++ M3))%nat
    /\ m_caps m = [(3%nat, M3); (2%nat, M2); (1%nat, M1)]
    /\ (M1 <> [] /\ starts_trail M1 = false /\ ends_lead M1 = false)
    /\ (M3 <> [] /\ starts_trail M3 = false /\ ends_lead M3 = false).
Proof.
  intros GA GB GC BA EA BC EC H. unfold exec_at in H.
  apply rmatch_sound in H as (st & H & [= ->]).
  inversion H as [| |a b s0 s1 s3 H1 H23| | | | | | | |]; subst.
  inversion H23 as [| |a b s1' s2 s3' H2 H3| | | | | | | |]; subst.
  destruct (Matches_group_inv _ _ _ _ H1) as (sa & M1 & HA & R1 & I1 & ->).
  destruct (Matches_group_inv _ _ _ _ H2) as (sb & M2 & HB & R2 & I2 & ->).
  destruct (Matches_group_inv _ _ _ _ H3) as (sc & M3 & HC & R3 & I3 & ->).
  cbn [m_rest m_idx m_caps] in *.
  exists M1, M2, M3. repeat apply conj.
  - now rewrite R1, R2, R3.
  - rewrite I3, I2, I1, !length_app. lia.
  - rewrite (Matches_groupless _ _ _ HC GC). cbn [m_caps].
    rewrite (Matches_groupless _ _ _ HB GB). cbn [m_caps].
    now rewrite (Matches_groupless _ _ _ HA GA).
  - apply (Matches_plain_ends _ _ _ _ HA BA EA R1).
  - apply (Matches_plain_ends _ _ _ _ HA BA EA R1).
  - apply (Matches_plain_ends _ _ _ _ HA BA EA R1).
  - apply (Matches_plain_ends _ _ _ _ HC BC EC R3).
  - apply (Matches_plain_ends _ _ _ _ HC BC EC R3).
  - apply (Matches_plain_ends _ _ _ _ HC BC EC R3).
Qed.

Lemma replace_all_skip r f : forall n s idx,
  (n <= length s)%nat ->
  replace_all r f n idx s = replace_all r f 0 (idx + n) (skipn n s).
Proof.
  induction n as [|n IH]; intros s idx Hn.
  - now rewrite Nat.add_0_r.
  - destruct s as [|c t]; [simpl in Hn; lia|].
    cbn [replace_all skipn]. rewrite IH by (simpl in Hn; lia).
    now rewrite Nat.add_succ_r.
Qed.

Lemma replace_all_cons_none r f idx c t :
  exec_at r idx (c :: t) = None ->
  replace_all r f 0 idx (c :: t) = c :: replace_all r f 0 (S idx) t.
Proof. intros H. cbn [replace_all]. now rewrite H. Qed.

Lemma replace_all_well_formed r f :
  safe_replacer r f ->
  forall n s idx, (length s <= n)%nat -> well_formed s = true ->
                  well_formed (replace_all r f 0 idx s) = true.
Proof.
  intros Hsafe. induction n as [|n IH]; intros s idx Hlen Hwf.
  - destruct s; [|simpl in Hlen; lia]. cbn [replace_all].
    destruct (exec_at r idx []) as [m|] eqn:E; [|reflexivity].
    destruct (Hsafe _ _ _ E) as (M & HM & _ & Hne & _).
    destruct M; [contradiction|discriminate].
  - destruct s as [|c t].
    { cbn [replace_all].
      destruct (exec_at r idx []) as [m|] eqn:E; [|reflexivity].
      destruct (Hsafe _ _ _ E) as (M & HM & _ & Hne & _).
      destruct M; [contradiction|discriminate]. }
    simpl in Hlen.
    destruct (exec_at r idx (c :: t)) as [m|] eqn:E.
    + destruct (Hsafe _ _ _ E) as (M & HM & HI & Hne & Hst & Hend & Hf).
      destruct M as [|x M]; [contradiction|]. injection HM as <- Ht.
      cbn [replace_all]. rewrite E.
      replace (m_idx m - idx)%nat with (S (length M))
        by (rewrite HI; simpl; lia).
      rewrite replace_all_skip by (rewrite Ht, length_app; lia).
      rewrite Ht, skipn_app, skipn_all, Nat.sub_diag. cbn [skipn app].
      assert (well_formed ((c :: M) ++ m_rest m) = true) as Hall
          by (cbn [app]; now rewrite <- Ht).
      apply well_formed_split in Hall as [HwM Hwr]; [|now left].
      apply well_formed_app; [now apply Hf|].
      apply IH; [|exact Hwr].
      apply (f_equal (@length N)) in Ht. rewrite length_app in Ht. lia.
    + rewrite replace_all_cons_none by exact E.
      destruct (is_trail c) eqn:Htr;
        [cbn [well_formed] in Hwf; now rewrite Htr in Hwf|].
      destruct (is_lead c) eqn:Hld.
      * destruct t as [|d t];
          [cbn [well_formed] in Hwf; now rewrite Htr, Hld in Hwf|].
        rewrite well_formed_cons_pair in Hwf by assumption.
        apply andb_true_iff in Hwf as [Hd Hwt].
        destruct (exec_at r (S idx) (d :: t)) as [m|] eqn:E2.
        { destruct (Hsafe _ _ _ E2) as (M & HM & _ & Hne & Hst & _).
          destruct M as [|x M]; [contradiction|]. injection HM as <- _.
          cbn in Hst. congruence. }
        rewrite replace_all_cons_none by exact E2.
        rewrite well_formed_cons_pair by assumption. rewrite Hd. cbn [andb].
        apply IH; [simpl in Hlen; lia|exact Hwt].
      * rewrite well_formed_cons_plain in * by assumption.
        apply IH; [lia|exact Hwf].
Qed.

Lemma lead_not_slash c : is_lead c = true -> (c =? SLASH) = false.
Proof.
  unfold is_lead, SLASH. intros H. apply andb_true_iff in H as [H _].
  apply N.leb_le in H. apply N.eqb_neq. lia.
Qed.

Lemma trail_not_slash c : is_trail c = true -> (c =? SLASH) = false.
Proof.
  unfold is_trail, SLASH. intros H. apply andb_true_iff in H as [H _].
  apply N.leb_le in H. apply N.eqb_neq. lia.
Qed.

Lemma split_well_formed s :
  well_formed s = true -> all_well_formed (split SLASH s).
Proof.
  revert s. apply well_formed_induction.
  - repeat constructor.
  - intros c t Hc Hwt IH. apply plain_inv in Hc as [H1 H2].
    cbn [split]. destruct (c =? SLASH).
    + constructor; [reflexivity|exact IH].
    + destruct (split SLASH t) as [|h r].
      * repeat constructor. now rewrite well_formed_cons_plain.
      * inversion IH; subst. constructor; [|assumption].
        now rewrite well_formed_cons_plain.
  - intros c d t Hc Hd Hwt IH.
    assert (is_trail c = false) as Hct.
    { destruct (is_trail c) eqn:E; [|reflexivity].
      apply trail_not_lead in E. congruence. }
    cbn [split]. rewrite (lead_not_slash _ Hc), (trail_not_slash _ Hd).
    destruct (split SLASH t) as [|h r].
    + repeat constructor. rewrite well_formed_cons_pair by assumption.
      now rewrite Hd.
    + inversion IH; subst. constructor; [|assumption].
      rewrite well_formed_cons_pair by assumption.
      rewrite Hd. assumption.
Qed.

Lemma removelast_well_formed parts :
  all_well_formed parts -> all_well_formed (removelast parts).
Proof.
  induction 1 as [|p parts Hp Hparts IH]; [constructor|].
  cbn [removelast]. destruct parts; [constructor|]. now constructor.
Qed.

Lemma resolve_step_well_formed parts part :
  all_well_formed parts -> well_formed part = true ->
  all_well_formed (resolve_step parts part).
Proof.
  intros Hparts Hpart. unfold resolve_step.
  destruct (str_eqb part (js ".")); [exact Hparts|].
  destruct (str_eqb part (js "..")).
  - destruct (0 <? length parts)%nat; [|exact Hparts].
    now apply removelast_well_formed.
  - apply Forall_app. split; [exact Hparts|]. now repeat constructor.
Qed.

Lemma fold_resolve_well_formed parts : forall dir,
  all_well_formed dir -> all_well_formed parts ->
  all_well_formed (fold_left resolve_step parts dir).
Proof.
  induction parts as [|p parts IH]; intros dir Hdir Hparts; cbn [fold_left].
  - exact Hdir.
  - inversion Hparts; subst. apply IH; [|assumption].
    now apply resolve_step_well_formed.
Qed.

Lemma join_well_formed sep parts :
  well_formed sep = true -> all_well_formed parts ->
  well_formed (join sep parts) = true.
Proof.
  intros Hsep. induction 1 as [|p parts Hp Hparts IH]; [reflexivity|].
  cbn [join]. destruct parts as [|q parts]; [exact Hp|].
  apply well_formed_app; [exact Hp|]. now apply well_formed_app.
Qed.

Lemma resolve_well_formed sourcePath specifier :
  well_formed sourcePath = true -> well_formed specifier = true ->
  well_formed (resolveModuleSpecifier sourcePath specifier) = true.
Proof.
  intros Hpath Hspec. unfold resolveModuleSpecifier.
  destruct (negb (startsWith specifier (js ".")) && negb (startsWith specifier (js "/")));
    [exact Hspec|].
  destruct (startsWith specifier (js "/")) eqn:E.
  - apply startsWith_inv in E as [rest ->]. exact Hspec.
  - apply join_well_formed; [reflexivity|].
    apply fold_resolve_well_formed.
    + apply removelast_well_formed. now apply split_well_formed.
    + now apply split_well_formed.
Qed.

Lemma literal_is_plain a c : a < 128 -> (a =? c) = true -> plain c = true.
Proof.
  intros Ha H. apply N.eqb_eq in H. subst c.
  unfold plain, is_trail, is_lead.
  assert ((56320 <=? a) = false) as -> by (apply N.leb_gt; lia).
  assert ((55296 <=? a) = false) as -> by (apply N.leb_gt; lia).
  reflexivity.
Qed.

Lemma quote_is_plain c : quote_char c = true -> plain c = true.
Proof.
  unfold quote_char, one_of. cbn [existsb]. rewrite orb_false_r.
  intros H. apply orb_true_iff in H as [H|H]; apply N.eqb_eq in H; subst c;
    reflexivity.
Qed.

Lemma three_groups_safe A B C path :
  groupless A = true -> groupless B = true -> groupless C = true ->
  begins_in plain A -> ends_in plain A ->
  begins_in plain C -> ends_in plain C ->
  well_formed path = true ->
  safe_replacer (threeGroups A B C) (rewriteSpecifier path).
Proof.
  intros GA GB GC BA EA BC EC Hpath idx s m H.
  destruct (three_groups_shape A B C idx s m GA GB GC BA EA BC EC H)
    as (M1 & M2 & M3 & Hs & Hi & Hcaps & (N1 & S1 & L1) & (N3 & S3 & L3)).
  exists (M1 ++ M2 ++ M3). repeat apply conj.
  - now rewrite <- !app_assoc.
  - exact Hi.
  - destruct M1; [contradiction|discriminate].
  - now rewrite starts_trail_app.
  - now rewrite app_assoc, ends_lead_app.
  - intros Hwf. apply well_formed_split in Hwf as [W1 W23]; [|now left].
    apply well_formed_split in W23 as [W2 W3]; [|now right].
    rewrite Hcaps. unfold rewriteSpecifier. cbn [cap Nat.eqb].
    apply well_formed_app; [exact W1|].
    apply well_formed_app; [|exact W3].
    now apply resolve_well_formed.
Qed.

Lemma staticImport_safe path :
  well_formed path = true -> safe_replacer staticImport (rewriteSpecifier path).
Proof.
  intros Hpath. apply three_groups_safe; try reflexivity; try exact Hpath.
  - split; intros c; now apply literal_is_plain.
  - exact quote_is_plain.
  - exact quote_is_plain.
  - exact quote_is_plain.
Qed.

Lemma dynamicImport_safe path :
  well_formed path = true -> safe_replacer dynamicImport (rewriteSpecifier path).
Proof.
  intros Hpath. apply three_groups_safe; try reflexivity; try exact Hpath.
  - intros c; now apply literal_is_plain.
  - exact quote_is_plain.
  - exact quote_is_plain.
  - intros c; now apply literal_is_plain.
Qed.

Lemma rewriteImports_well_formed path text :
  well_formed path = true -> well_formed text = true ->
  well_formed (rewriteImports path text) = true.
Proof.
  intros Hpath Htext. unfold rewriteImports.
  eapply replace_all_well_formed;
    [now apply dynamicImport_safe|apply Nat.le_refl|].
  eapply replace_all_well_formed;
    [now apply staticImport_safe|apply Nat.le_refl|exact Htext].
Qed.

Lemma processFile_well_formed path file :
  well_formed path = true -> well_formed (content file) = true ->
  well_formed (processFile path file) = true.
Proof.
  intros Hpath Htext. unfold processFile.
  destruct (isSourcePath path); [|exact Htext].
  now apply rewriteImports_well_formed.
Qed.

(* ================================================================== *)
(** * Facts about the patterns *)
(* ================================================================== *)

Lemma replace_all_no_match r f : forall s idx,
  search r idx s = None -> replace_all r f 0 idx s = s.
Proof.
  induction s as [|c s IH]; intros idx; simpl.
  - destruct (exec_at r idx []); [discriminate|reflexivity].
  - destruct (exec_at r idx (c :: s)); [discriminate|].
    intros H. now rewrite IH.
Qed.

Local Arguments N.eqb : simpl never.

Lemma sourceExtension_exec idx s :
  isSome (exec_at sourceExtension idx s) = existsb (str_eqb s) extensions.
Proof.
  unfold exec_at, sourceExtension, Lit.
  destruct s as [|c1 [|c2 [|c3 [|c4 [|c5 s]]]]]; cbn;
    repeat (match goal with
            | |- context [N.eqb ?a ?b] =>
                destruct (N.eqb_spec a b); subst; cbn
            end);
    try reflexivity; try congruence; lia.
Qed.

Lemma sourceExtension_search s : forall idx,
  isSome (search sourceExtension idx s) = true
  <-> exists pre e, In e extensions /\ s = pre ++ e.
Proof.
  induction s as [|c s IH]; intros idx; simpl.
  - pose proof (sourceExtension_exec idx []) as E.
    destruct (exec_at sourceExtension idx []); cbn [isSome] in E;
      [discriminate|].
    split; [discriminate|]. intros (pre & e & Hin & H).
    destruct pre; [|discriminate]. simpl in H. subst e.
    simpl in Hin. intuition discriminate.
  - pose proof (sourceExtension_exec idx (c :: s)) as E.
    destruct (exec_at sourceExtension idx (c :: s)); cbn [isSome] in E.
    + split; [|reflexivity]. intros _. symmetry in E.
      apply existsb_exists in E as (e & Hin & He). apply str_eqb_eq in He.
      exists [], e. now subst.
    + rewrite IH. split.
      * intros (pre & e & Hin & ->). exists (c :: pre), e. now split.
      * intros (pre & e & Hin & H). destruct pre as [|x pre].
        -- simpl in H. subst e. exfalso.
           assert (existsb (str_eqb (c :: s)) extensions = true) as Hex.
           { apply existsb_exists. exists (c :: s).
             split; [exact Hin|apply str_eqb_refl]. }
           congruence.
        -- injection H as _ ->. exists pre, e. split; [exact Hin|reflexivity].
Qed.

(** The test of lines 63 and 93 is a test of the last characters. *)
Lemma isSourcePath_iff path :
  isSourcePath path = true <-> exists pre e, In e extensions /\ path = pre ++ e.
Proof.
  unfold isSourcePath, test. rewrite <- (sourceExtension_search path 0).
  now destruct (search sourceExtension 0 path).
Qed.

Lemma isSourcePath_endsWith path :
  isSourcePath path = existsb (endsWith path) extensions.
Proof.
  apply eq_true_iff_eq. rewrite isSourcePath_iff, existsb_exists. split.
  - intros (pre & e & Hin & ->). exists e. split; [exact Hin|].
    apply endsWith_iff. eauto.
  - intros (e & Hin & H). apply endsWith_iff in H as [pre ->]. eauto.
Qed.

Lemma sourcePath_not_stylesheet path :
  isSourcePath path = true ->
  str_eqb path (js "index.html") || endsWith path (js ".css") = false.
Proof.
  intros H. apply isSourcePath_iff in H as (pre & e & Hin & ->).
  apply orb_false_iff. split.
  - apply str_eqb_neq. intros E. apply (f_equal (@rev N)) in E.
    rewrite rev_app_distr in E.
    simpl in Hin. destruct Hin as [<-|[<-|[<-|[<-|[]]]]]; discriminate.
  - unfold endsWith. rewrite rev_app_distr.
    simpl in Hin. destruct Hin as [<-|[<-|[<-|[<-|[]]]]]; reflexivity.
Qed.

(** C9.  A file whose path does not carry a JavaScript or TypeScript
    extension goes through the import rewriting stage unmodified: the
    value the stage computes for it is its content, every processed entry
    under such a path holds the content of a file of that path, and in a
    file system with one record per path the processed entry of the file
    is its content (the key [__proto__] apart, which the assignment to
    [processedFiles] never creates). *)
Theorem other_files_pass_through_unmodified :
  forall (files : FileSystem) (path : jsstring) (file : ProjectFile),
    (forall e, In e extensions -> endsWith path e = false) ->
    processFile path file = content file
    /\ (forall text,
           obj_get (processedFiles files) path = Some text ->
           exists original, In (path, original) files /\ text = content original)
    /\ (NoDup (List.map fst files) -> In (path, file) files -> path <> proto ->
        obj_get (processedFiles files) path = Some (content file)).
Proof.
  intros files path file Hnone.
  assert (isSourcePath path = false) as Hext.
  { rewrite isSourcePath_endsWith.
    destruct (existsb (endsWith path) extensions) eqn:E; [|reflexivity].
    apply existsb_exists in E as (e & Hin & He).
    rewrite (Hnone e Hin) in He. discriminate. }
  assert (forall f, processFile path f = content f) as Hsame.
  { intros f. unfold processFile. now rewrite Hext. }
  split; [apply Hsame|split].
  - intros text H. rewrite processedFiles_fold in H.
    apply fold_processed_sound in H as [H|(original & Hin & ->)];
      [discriminate|].
    exists original. split; [exact Hin|apply Hsame].
  - intros Hnd Hin Hp. rewrite processedFiles_fold, <- Hsame.
    now apply fold_processed_complete.
Qed.

Lemma other_files_pass_through_witness :
  obj_get (processedFiles stylesheetExample) (js "style.css")
  = Some (js "body { color: red; }").
Proof.
  refine (proj2 (proj2 (other_files_pass_through_unmodified
            stylesheetExample (js "style.css")
            {| name := Some (js "style.css");
               content := js "body { color: red; }";
               language := Some (js "css") |} _)) _ _ _).
  - intros e Hin. simpl in Hin.
    repeat (destruct Hin as [<-|Hin]; [reflexivity|]). contradiction.
  - vm_compute. repeat constructor; simpl; intuition discriminate.
  - right. left. reflexivity.
  - discriminate.
Defined.

(* ================================================================== *)
(** * Totality of the build *)
(* ================================================================== *)

Lemma unreserved_not_surrogate c :
  unreserved c = true -> is_trail c = false /\ is_lead c = false.
Proof.
  unfold unreserved, is_alnum, is_digit, is_trail, is_lead, one_of.
  intros H. assert (c < 128) as Hc.
  { apply orb_true_iff in H as [H|H].
    - repeat (apply orb_true_iff in H as [H|H]);
        apply andb_true_iff in H as [_ H]; apply N.leb_le in H; lia.
    - apply existsb_exists in H as (x & Hin & Hx). apply N.eqb_eq in Hx.
      subst x. simpl in Hin.
      repeat (destruct Hin as [<-|Hin]; [lia|]). contradiction. }
  split; apply andb_false_iff; left; apply N.leb_gt; lia.
Qed.

Lemma bind_throw_iff (A B : Type) (r : result A) (f : A -> B) :
  (x <- r ;; Ok (f x)) = Throw URIError <-> r = Throw URIError.
Proof. destruct r as [a|[]]; simpl; split; congruence. Qed.

Lemma encode_throws_iff s :
  encodeURIComponent s = Throw URIError <-> well_formed s = false.
Proof.
  enough ((encodeURIComponent s = Throw URIError <-> well_formed s = false)
          /\ forall c, encodeURIComponent (c :: s) = Throw URIError
                       <-> well_formed (c :: s) = false) by tauto.
  induction s as [|d s [IH1 IH2]].
  - split; [simpl; split; discriminate|]. intros c. simpl.
    destruct (unreserved c) eqn:U.
    + apply unreserved_not_surrogate in U as [-> ->]. simpl.
      split; discriminate.
    + destruct (is_trail c); [tauto|]. destruct (is_lead c); [tauto|].
      simpl. split; discriminate.
  - split; [apply IH2|]. intros c.
    change (encodeURIComponent (c :: d :: s)) with
      (if unreserved c then
         r <- encodeURIComponent (d :: s) ;; Ok (c :: r)
       else if is_trail c then Throw URIError
       else if is_lead c then
         if is_trail d then
           r <- encodeURIComponent s ;;
           Ok (percent (utf8 ((c - 55296) * 1024 + (d - 56320) + 65536)) ++ r)
         else Throw URIError
       else r <- encodeURIComponent (d :: s) ;; Ok (percent (utf8 c) ++ r)).
    change (well_formed (c :: d :: s)) with
      (if is_trail c then false
       else if is_lead c then is_trail d && well_formed s
       else well_formed (d :: s)).
    destruct (unreserved c) eqn:U.
    + apply unreserved_not_surrogate in U as [-> ->].
      rewrite bind_throw_iff. apply IH2.
    + destruct (is_trail c); [tauto|]. destruct (is_lead c).
      * destruct (is_trail d); simpl; [|tauto].
        rewrite bind_throw_iff. apply IH1.
      * rewrite bind_throw_iff. apply IH2.
Qed.

Lemma encode_ok s :
  well_formed s = true -> exists encoded, encodeURIComponent s = Ok encoded.
Proof.
  intros H. destruct (encodeURIComponent s) as [encoded|[]] eqn:E; [eauto|].
  apply encode_throws_iff in E. congruence.
Qed.

Lemma registerModule_source imports0 path text :
  isSourcePath path = true ->
  registerModule imports0 (path, text)
  = (encoded <- encodeURIComponent text ;;
     Ok (registerAliases (cleanPathOf path) (dataUriOf encoded) imports0)).
Proof.
  intros H. unfold registerModule.
  now rewrite (sourcePath_not_stylesheet _ H), H.
Qed.

Lemma registerModule_other imports0 path text :
  isSourcePath path = false -> registerModule imports0 (path, text) = Ok imports0.
Proof.
  intros H. unfold registerModule. rewrite H.
  now destruct (str_eqb path (js "index.html") || endsWith path (js ".css")).
Qed.

Lemma forEach_register_ok entries : forall imports0,
  (forall path text, In (path, text) entries -> isSourcePath path = true ->
                     well_formed text = true) ->
  exists m, forEach registerModule entries imports0 = Ok m.
Proof.
  induction entries as [|[p t] entries IH]; intros imports0 H; cbn [forEach].
  - eauto.
  - destruct (isSourcePath p) eqn:Hp.
    + rewrite registerModule_source by exact Hp.
      destruct (encode_ok t) as [encoded ->]; [apply (H p); simpl; auto|].
      cbn [bind]. apply IH. intros path text Hin. apply H. now right.
    + rewrite registerModule_other by exact Hp. cbn [bind].
      apply IH. intros path text Hin. apply H. now right.
Qed.

Lemma forEach_register_throws entries : forall imports0 path text,
  In (path, text) entries -> isSourcePath path = true ->
  well_formed text = false ->
  forEach registerModule entries imports0 = Throw URIError.
Proof.
  induction entries as [|[p t] entries IH]; intros imports0 path text Hin Hp Hwf;
    cbn [forEach In] in *; [contradiction|].
  destruct Hin as [[= -> ->]|Hin].
  - rewrite registerModule_source by exact Hp.
    apply encode_throws_iff in Hwf. now rewrite Hwf.
  - destruct (registerModule imports0 (p, t)) as [m|[]]; cbn [bind];
      [|reflexivity].
    now apply (IH m path text).
Qed.

Lemma errorScript_plain : one_of (js "<body>" ++ errorScript) DOLLAR = false.
Proof. vm_compute. reflexivity. Qed.

Lemma replace_str_plain s pattern replacement i :
  indexOf s pattern = Some i ->
  one_of replacement DOLLAR = false ->
  replace_str s pattern replacement
  = firstn i s ++ replacement ++ skipn (i + length pattern) s.
Proof.
  intros Hi Hplain. unfold replace_str. rewrite Hi.
  now rewrite getSubstitution_plain.
Qed.

Lemma injectBody_includes doc : includes (injectBody doc) errorScript = true.
Proof.
  unfold injectBody. apply includes_iff.
  destruct (includes doc (js "<body>")) eqn:E.
  - unfold includes in E. destruct (indexOf doc (js "<body>")) as [i|] eqn:Ei;
      [|discriminate].
    rewrite (replace_str_plain _ _ _ _ Ei errorScript_plain).
    exists (firstn i doc ++ js "<body>"), (skipn (i + length (js "<body>")) doc).
    now rewrite <- !app_assoc.
  - exists doc, []. now rewrite app_nil_r.
Qed.

Lemma build_ok files :
  (forall path text,
      In (path, text) (processedFiles files) ->
      isSourcePath path = true -> well_formed text = true) ->
  exists m, imports files = Ok m
            /\ buildPreviewContent files
               = Ok (assemble (entryDocument files) m files).
Proof.
  intros H.
  destruct (forEach_register_ok (processedFiles files) cdnImports H) as [m Hm].
  exists m. unfold buildPreviewContent. fold (imports files) in Hm.
  now rewrite Hm.
Qed.

Lemma processed_well_formed files :
  (forall path file,
      In (path, file) files -> isSourcePath path = true ->
      well_formed path = true /\ well_formed (content file) = true) ->
  forall path text,
    In (path, text) (processedFiles files) ->
    isSourcePath path = true -> well_formed text = true.
Proof.
  intros H path text Hin Hp.
  apply (In_obj_get _ _ _ _ (processedFiles_NoDup files)) in Hin.
  rewrite processedFiles_fold in Hin.
  apply fold_processed_sound in Hin as [Hin|(file & Hfile & ->)];
    [discriminate|].
  destruct (H path file Hfile Hp) as [W1 W2].
  now apply processFile_well_formed.
Qed.

(** C5 as stated fails: a module whose text holds a surrogate code unit
    without its partner makes the build throw. *)
Lemma build_throws_on_lone_surrogate :
  buildPreviewContent loneSurrogateFiles = Throw URIError.
Proof. vm_compute. reflexivity. Qed.

(** C5, as the code has it.  When neither the path nor the content of
    any file with a JavaScript or TypeScript extension holds a surrogate
    code unit without its partner, the build returns a document,
    assembled from the entry document, which contains the error script;
    and the entry document is the built-in shell when [index.html] is
    absent or has empty content. *)
Theorem build_returns_a_document :
  forall files : FileSystem,
    (forall path file,
        In (path, file) files -> isSourcePath path = true ->
        well_formed path = true /\ well_formed (content file) = true) ->
    exists m doc,
      imports files = Ok m
      /\ buildPreviewContent files = Ok doc
      /\ doc = assemble (entryDocument files) m files
      /\ includes doc errorScript = true
      /\ (obj_get files (js "index.html") = None -> entryDocument files = shell_content)
      /\ (forall shell, obj_get files (js "index.html") = Some shell ->
                        content shell = [] -> entryDocument files = shell_content).
Proof.
  intros files H.
  destruct (build_ok files (processed_well_formed files H)) as (m & Hm & Hb).
  exists m, (assemble (entryDocument files) m files).
  repeat apply conj; try assumption; try reflexivity.
  - apply injectBody_includes.
  - intros Hnone. unfold entryDocument. now rewrite Hnone.
  - intros shell Hsome Hempty. unfold entryDocument. now rewrite Hsome, Hempty.
Qed.

Lemma build_returns_a_document_witness :
  exists m doc,
    imports emptyShellFiles = Ok m
    /\ buildPreviewContent emptyShellFiles = Ok doc
    /\ doc = assemble (entryDocument emptyShellFiles) m emptyShellFiles
    /\ includes doc errorScript = true
    /\ (obj_get emptyShellFiles (js "index.html") = None ->
        entryDocument emptyShellFiles = shell_content)
    /\ (forall shell, obj_get emptyShellFiles (js "index.html") = Some shell ->
                      content shell = [] ->
                      entryDocument emptyShellFiles = shell_content).
Proof.
  apply (build_returns_a_document emptyShellFiles).
  intros path file Hin _.
  destruct Hin as [[= <- <-]|[[= <- <-]|[]]]; split; reflexivity.
Defined.

(** The build throws exactly when some rewritten module text holds an
    unpaired surrogate. *)
Lemma build_throws_iff files :
  buildPreviewContent files = Throw URIError
  <-> exists path text,
        In (path, text) (processedFiles files)
        /\ isSourcePath path = true /\ well_formed text = false.
Proof.
  split.
  - intros Hthrow.
    destruct (existsb (fun e => isSourcePath (fst e) && negb (well_formed (snd e)))
                (processedFiles files)) eqn:E.
    + apply existsb_exists in E as ([p t] & Hin & H). simpl in H.
      apply andb_true_iff in H as [Hp Hw]. exists p, t.
      repeat split; auto. now destruct (well_formed t).
    + exfalso. destruct (build_ok files) as (m & _ & Hb).
      * intros path text Hin Hp.
        destruct (well_formed text) eqn:Hw; [reflexivity|].
        assert (existsb (fun e => isSourcePath (fst e) && negb (well_formed (snd e)))
                  (processedFiles files) = true); [|congruence].
        apply existsb_exists. exists (path, text). simpl.
        now rewrite Hp, Hw.
      * congruence.
  - intros (path & text & Hin & Hp & Hw). unfold buildPreviewContent.
    fold (imports files). unfold imports.
    now rewrite (forEach_register_throws _ cdnImports _ _ Hin Hp Hw).
Qed.

(* ================================================================== *)
(** * Rewriting twice *)
(* ================================================================== *)

(** C6 as stated fails: from [src/main.js], the first pass turns the
    specifier [../.config/x.js] into [.config/x.js], which begins with a
    dot, and the second pass resolves it again, to [src/.config/x.js]. *)
Lemma rewrite_is_not_idempotent :
  rewriteImports (js "src/main.js") dottedImport
  = js "import c from '.config/x.js'"
  /\ rewriteImports (js "src/main.js")
       (rewriteImports (js "src/main.js") dottedImport)
     = js "import c from 'src/.config/x.js'"
  /\ rewriteImports (js "src/main.js")
       (rewriteImports (js "src/main.js") dottedImport)
     <> rewriteImports (js "src/main.js") dottedImport.
Proof.
  repeat apply conj; try (vm_compute; reflexivity).
  vm_compute. discriminate.
Qed.

Lemma processFile_content path (f g : ProjectFile) :
  content f = content g -> processFile path f = processFile path g.
Proof. intros H. unfold processFile. now rewrite H. Qed.

Lemma rewriteImports_canonical path text :
  test staticImport text = false -> test dynamicImport text = false ->
  rewriteImports path text = text.
Proof.
  unfold test, rewriteImports. intros Hs Hd.
  destruct (search staticImport 0 text) eqn:Es; [discriminate|].
  destruct (search dynamicImport 0 text) eqn:Ed; [discriminate|].
  rewrite (replace_all_no_match _ _ _ _ Es).
  apply (replace_all_no_match _ _ _ _ Ed).
Qed.

(** C6, as the code has it.  The output of the rewrite depends on the path
    and the content of the record alone, so the same source is rewritten
    to the same text each time; and rewriting the rewritten record [g] of
    [f] changes nothing whenever the text of [g] has no specifier left
    that the static or the dynamic pattern matches. *)
Theorem rewriting_a_canonical_file_changes_nothing :
  forall (path : jsstring) (f g : ProjectFile),
    content g = processFile path f ->
    test staticImport (content g) = false ->
    test dynamicImport (content g) = false ->
    processFile path g = processFile path f
    /\ (forall f', content f' = content f ->
                   processFile path f' = processFile path f).
Proof.
  intros path f g Hg Hs Hd. split.
  - rewrite <- Hg. unfold processFile.
    destruct (isSourcePath path); [|reflexivity].
    now apply rewriteImports_canonical.
  - intros f' H. now apply processFile_content.
Qed.

Lemma rewriting_a_canonical_file_witness :
  processFile (js "src/a/b.js") canonicalImportFile
  = processFile (js "src/a/b.js") relativeImportFile.
Proof.
  refine (proj1 (rewriting_a_canonical_file_changes_nothing
                   (js "src/a/b.js") relativeImportFile canonicalImportFile
                   _ _ _)); vm_compute; reflexivity.
Defined.

(* ================================================================== *)
(** * Determinism *)
(* ================================================================== *)

Lemma fold_processed_snapshot f1 : forall f2 acc,
  snapshot f1 = snapshot f2 ->
  fold_left storeProcessed f1 acc = fold_left storeProcessed f2 acc.
Proof.
  induction f1 as [|[p1 x1] f1 IH]; intros [|[p2 x2] f2] acc H;
    simpl in H; try discriminate; [reflexivity|].
  injection H as -> Hc H. simpl. unfold storeProcessed at 2 4. simpl.
  rewrite (processFile_content p2 x1 x2 Hc). now apply IH.
Qed.

Lemma cssContent_snapshot f1 : forall f2,
  snapshot f1 = snapshot f2 -> cssContent f1 = cssContent f2.
Proof.
  unfold cssContent. generalize (@nil N) as acc.
  induction f1 as [|[p1 x1] f1 IH]; intros acc [|[p2 x2] f2] H;
    simpl in H; try discriminate; [reflexivity|].
  injection H as -> Hc H. simpl. rewrite Hc. now apply IH.
Qed.

Lemma obj_get_snapshot f1 k : forall f2,
  snapshot f1 = snapshot f2 ->
  option_map content (obj_get f1 k) = option_map content (obj_get f2 k).
Proof.
  induction f1 as [|[p1 x1] f1 IH]; intros [|[p2 x2] f2] H;
    simpl in H; try discriminate; [reflexivity|].
  injection H as -> Hc H. simpl.
  destruct (str_eqb p2 k); simpl; [now rewrite Hc|now apply IH].
Qed.

Lemma entryDocument_snapshot f1 f2 :
  snapshot f1 = snapshot f2 -> entryDocument f1 = entryDocument f2.
Proof.
  intros H. unfold entryDocument.
  pose proof (obj_get_snapshot f1 (js "index.html") f2 H) as E.
  destruct (obj_get f1 (js "index.html")), (obj_get f2 (js "index.html"));
    simpl in E; try discriminate; [|reflexivity].
  injection E as ->. reflexivity.
Qed.

(** C7.  The build is a function of the snapshot it is given: two file
    systems with the same paths, in the same order, and the same contents
    yield the same result, document or exception, and the same import map;
    in particular two builds of one snapshot do. *)
Theorem build_is_deterministic :
  forall f1 f2 : FileSystem,
    snapshot f1 = snapshot f2 ->
    buildPreviewContent f1 = buildPreviewContent f2
    /\ imports f1 = imports f2.
Proof.
  intros f1 f2 H.
  assert (processedFiles f1 = processedFiles f2) as Hp.
  { rewrite !processedFiles_fold. now apply fold_processed_snapshot. }
  assert (imports f1 = imports f2) as Hi by (unfold imports; now rewrite Hp).
  split; [|exact Hi]. unfold buildPreviewContent. rewrite Hi.
  destruct (imports f2) as [m|e]; [|reflexivity]. simpl.
  unfold assemble, styleTag.
  now rewrite (entryDocument_snapshot f1 f2 H), (cssContent_snapshot f1 f2 H).
Qed.

Lemma build_is_deterministic_witness :
  buildPreviewContent scenarioFiles = buildPreviewContent scenarioFiles
  /\ imports scenarioFiles = imports scenarioFiles.
Proof.
  apply (build_is_deterministic scenarioFiles scenarioFiles). reflexivity.
Defined.

(* ================================================================== *)
(** * The aliases of a module *)
(* ================================================================== *)

Lemma registerAliases_setAll cleanPath uri m :
  registerAliases cleanPath uri m = setAll uri (aliasesOf cleanPath) m.
Proof.
  unfold registerAliases, aliasesOf, setAll.
  now destruct (negb (str_eqb (strippedOf cleanPath) cleanPath)).
Qed.

Lemma setAll_other uri ks : forall m k,
  ~ In k ks -> obj_get (setAll uri ks m) k = obj_get m k.
Proof.
  unfold setAll. induction ks as [|x ks IH]; intros m k Hnot; simpl.
  - reflexivity.
  - rewrite IH by (simpl in Hnot; tauto).
    apply obj_get_set_other. simpl in Hnot. intros ->. tauto.
Qed.

Lemma setAll_same uri ks : forall m k,
  In k ks -> k <> proto -> obj_get (setAll uri ks m) k = Some uri.
Proof.
  unfold setAll. induction ks as [|x ks IH]; intros m k Hin Hk; simpl.
  - contradiction.
  - destruct (in_dec (list_eq_dec N.eq_dec) k ks) as [Hlater|Hnot].
    + now apply IH.
    + destruct Hin as [->|Hin]; [|contradiction].
      fold (setAll uri ks (obj_set k uri m)). rewrite setAll_other by exact Hnot.
      now apply obj_get_set_same.
Qed.

Lemma setAll_has_key uri ks : forall m k,
  has_key m k = true -> has_key (setAll uri ks m) k = true.
Proof.
  unfold setAll. induction ks as [|x ks IH]; intros m k H; simpl.
  - exact H.
  - apply IH. now apply has_key_set.
Qed.

Lemma has_key_get (m : obj jsstring) k v :
  obj_get m k = Some v -> has_key m k = true.
Proof. unfold has_key. now intros ->. Qed.

(** What the loop of lines 90-109 does with one entry. *)
Lemma registerModule_step imports0 path text m :
  registerModule imports0 (path, text) = Ok m ->
  (isSourcePath path = false /\ m = imports0)
  \/ (isSourcePath path = true
      /\ exists encoded,
           encodeURIComponent text = Ok encoded
           /\ m = setAll (dataUriOf encoded) (aliasesOf (cleanPathOf path)) imports0).
Proof.
  destruct (isSourcePath path) eqn:Hp.
  - rewrite registerModule_source by exact Hp.
    destruct (encodeURIComponent text) as [encoded|e]; simpl; [|discriminate].
    intros [= <-]. right. split; [reflexivity|]. exists encoded.
    split; [reflexivity|apply registerAliases_setAll].
  - rewrite registerModule_other by exact Hp. intros [= <-]. now left.
Qed.

Lemma forEach_register_keeps entries : forall imports0 m k,
  forEach registerModule entries imports0 = Ok m ->
  has_key imports0 k = true -> has_key m k = true.
Proof.
  induction entries as [|[p t] entries IH]; intros imports0 m k H Hk;
    cbn [forEach] in H.
  - now injection H as <-.
  - destruct (registerModule imports0 (p, t)) as [m1|e] eqn:E;
      cbn [bind] in H; [|discriminate].
    apply (IH m1 m k H).
    apply registerModule_step in E as [[_ ->]|(_ & encoded & _ & ->)];
      [exact Hk|now apply setAll_has_key].
Qed.

Lemma forEach_register_present entries : forall imports0 m path text k,
  forEach registerModule entries imports0 = Ok m ->
  In (path, text) entries -> isSourcePath path = true ->
  In k (aliasesOf (cleanPathOf path)) -> k <> proto ->
  has_key m k = true.
Proof.
  induction entries as [|[p t] entries IH]; intros imports0 m path text k H Hin Hp Hk Hproto;
    cbn [forEach In] in *; [contradiction|].
  destruct (registerModule imports0 (p, t)) as [m1|e] eqn:E;
    cbn [bind] in H; [|discriminate].
  destruct Hin as [[= -> ->]|Hin].
  - apply (forEach_register_keeps entries m1 m k H).
    apply registerModule_step in E as [[Hn _]|(_ & encoded & _ & ->)];
      [congruence|].
    apply has_key_get with (v := dataUriOf encoded). now apply setAll_same.
  - now apply (IH m1 m path text k).
Qed.

Lemma forEach_register_untouched entries : forall imports0 m k,
  forEach registerModule entries imports0 = Ok m ->
  (forall path text, In (path, text) entries -> isSourcePath path = true ->
                     ~ In k (aliasesOf (cleanPathOf path))) ->
  obj_get m k = obj_get imports0 k.
Proof.
  induction entries as [|[p t] entries IH]; intros imports0 m k H Hfree;
    cbn [forEach] in H.
  - now injection H as <-.
  - destruct (registerModule imports0 (p, t)) as [m1|e] eqn:E;
      cbn [bind] in H; [|discriminate].
    rewrite (IH m1 m k H)
      by (intros path text Hin; apply (Hfree path text); now right).
    apply registerModule_step in E as [[_ ->]|(Hp & encoded & _ & ->)];
      [reflexivity|].
    apply setAll_other. apply (Hfree p t); [now left|exact Hp].
Qed.

Lemma forEach_register_last before path text after : forall imports0 m k,
  forEach registerModule (before ++ (path, text) :: after) imports0 = Ok m ->
  isSourcePath path = true ->
  In k (aliasesOf (cleanPathOf path)) -> k <> proto ->
  (forall path' text', In (path', text') after -> isSourcePath path' = true ->
                       ~ In k (aliasesOf (cleanPathOf path'))) ->
  exists encoded,
    encodeURIComponent text = Ok encoded
    /\ obj_get m k = Some (dataUriOf encoded).
Proof.
  induction before as [|[p t] before IH]; intros imports0 m k H Hp Hk Hproto Hfree;
    cbn [app forEach] in H.
  - destruct (registerModule imports0 (path, text)) as [m1|e] eqn:E;
      cbn [bind] in H; [|discriminate].
    apply registerModule_step in E as [[Hn _]|(_ & encoded & He & ->)];
      [congruence|].
    exists encoded. split; [exact He|].
    rewrite (forEach_register_untouched after _ m k H Hfree).
    now apply setAll_same.
  - destruct (registerModule imports0 (p, t)) as [m1|e];
      cbn [bind] in H; [|discriminate].
    now apply (IH m1 m k).
Qed.

Lemma aliases_of_main : aliasesOf (cleanPathOf mainPath) = sixAliases.
Proof. vm_compute. reflexivity. Qed.

Lemma sourcePath_not_proto path : isSourcePath path = true -> path <> proto.
Proof.
  intros H E. rewrite E in H. vm_compute in H. discriminate.
Qed.

Lemma fold_processed_has files : forall acc path file,
  In (path, file) files -> path <> proto ->
  has_key (fold_left storeProcessed files acc) path = true.
Proof.
  induction files as [|[p f] files IH]; intros acc path file Hin Hp;
    simpl in *; [contradiction|].
  destruct Hin as [[= -> ->]|Hin]; [|now apply (IH _ path file)].
  assert (has_key (storeProcessed acc (path, file)) path = true) as Hk.
  { apply has_key_get with (v := processFile path file).
    unfold storeProcessed. simpl. now apply obj_get_set_same. }
  clear IH. revert Hk. generalize (storeProcessed acc (path, file)).
  induction files as [|[p f] files IH]; intros acc' Hk; simpl; [exact Hk|].
  apply IH. unfold storeProcessed. now apply has_key_set.
Qed.

Lemma processed_entry files path file :
  In (path, file) files -> path <> proto ->
  exists text, In (path, text) (processedFiles files).
Proof.
  intros Hin Hp. pose proof (fold_processed_has files [] path file Hin Hp) as H.
  rewrite <- processedFiles_fold in H. unfold has_key in H.
  destruct (obj_get (processedFiles files) path) as [text|] eqn:E;
    [|discriminate].
  exists text. now apply obj_get_In.
Qed.

(** C2 as stated fails: with [src/main.ts] next to [src/main.js], the
    alias [src/main] maps to the resource of [src/main.ts], not to the one
    that [src/main.js] maps to. *)
Lemma aliases_of_two_files_collide :
  exists m,
    imports twoMainsFiles = Ok m
    /\ obj_get m (js "src/main.js")
       = Some (dataUriOf (js "export%20default%201"))
    /\ obj_get m (js "src/main")
       = Some (dataUriOf (js "export%20default%202"))
    /\ obj_get m (js "src/main") <> obj_get m (js "src/main.js").
Proof.
  exists (match imports twoMainsFiles with Ok m => m | Throw _ => [] end).
  repeat apply conj; try (vm_compute; reflexivity).
  vm_compute. discriminate.
Qed.

(** C2, as the code has it.  When the build of the import map does not
    throw, the map of a file system with a file at [src/main.js] has an
    entry for each of the six specifiers, and so has, for any file with a
    source extension, every alias that the code derives from its path
    (the key [__proto__] apart).  An alias holds the encoded resource of
    the module registered last under it.  So, in a file system with one
    record per path in which no other source file has one of the six
    among its aliases, the six entries all hold the encoded resource of
    [src/main.js]. *)
Theorem alias_completeness :
  forall (files : FileSystem) (main : ProjectFile) (m : obj jsstring),
    In (mainPath, main) files ->
    imports files = Ok m ->
    (forall k, In k sixAliases -> has_key m k = true)
    /\ (forall path file k,
           In (path, file) files -> isSourcePath path = true ->
           In k (aliasesOf (cleanPathOf path)) -> k <> proto ->
           has_key m k = true)
    /\ (forall before path text after k,
           processedFiles files = before ++ (path, text) :: after ->
           isSourcePath path = true ->
           In k (aliasesOf (cleanPathOf path)) -> k <> proto ->
           (forall path' text',
               In (path', text') after -> isSourcePath path' = true ->
               ~ In k (aliasesOf (cleanPathOf path'))) ->
           exists encoded,
             encodeURIComponent text = Ok encoded
             /\ obj_get m k = Some (dataUriOf encoded))
    /\ (NoDup (List.map fst files) ->
        (forall path file k,
            In (path, file) files -> path <> mainPath ->
            isSourcePath path = true ->
            In k sixAliases -> ~ In k (aliasesOf (cleanPathOf path))) ->
        exists encoded,
          encodeURIComponent (processFile mainPath main) = Ok encoded
          /\ forall k, In k sixAliases -> obj_get m k = Some (dataUriOf encoded)).
Proof.
  intros files main m Hmain Hm. unfold imports in Hm.
  assert (forall path file k,
             In (path, file) files -> isSourcePath path = true ->
             In k (aliasesOf (cleanPathOf path)) -> k <> proto ->
             has_key m k = true) as Hall.
  { intros path file k Hin Hp Hk Hproto.
    destruct (processed_entry files path file Hin (sourcePath_not_proto _ Hp))
      as [text Htext].
    exact (forEach_register_present _ _ _ _ _ _ Hm Htext Hp Hk Hproto). }
  assert (forall k, In k sixAliases -> k <> proto) as Hsix.
  { intros k Hk. simpl in Hk.
    repeat (destruct Hk as [<-|Hk]; [discriminate|]). contradiction. }
  assert (forall before path text after k,
             processedFiles files = before ++ (path, text) :: after ->
             isSourcePath path = true ->
             In k (aliasesOf (cleanPathOf path)) -> k <> proto ->
             (forall path' text',
                 In (path', text') after -> isSourcePath path' = true ->
                 ~ In k (aliasesOf (cleanPathOf path'))) ->
             exists encoded,
               encodeURIComponent text = Ok encoded
               /\ obj_get m k = Some (dataUriOf encoded)) as Hlast.
  { intros before path text after k Hsplit Hp Hk Hproto Hfree.
    rewrite Hsplit in Hm.
    exact (forEach_register_last before path text after cdnImports m k
             Hm Hp Hk Hproto Hfree). }
  split; [|split; [exact Hall|split; [exact Hlast|]]].
  - intros k Hk. apply (Hall mainPath main k Hmain).
    + reflexivity.
    + now rewrite aliases_of_main.
    + now apply Hsix.
  - intros Hnd Hfree.
    assert (obj_get (processedFiles files) mainPath
            = Some (processFile mainPath main)) as Hget.
    { rewrite processedFiles_fold.
      apply fold_processed_complete; auto. discriminate. }
    apply obj_get_In in Hget.
    destruct (in_split _ _ Hget) as (before & after & Hsplit).
    pose proof (processedFiles_NoDup files) as Hkeys.
    rewrite Hsplit in Hkeys.
    assert (forall path' text' k,
               In (path', text') after -> isSourcePath path' = true ->
               In k sixAliases -> ~ In k (aliasesOf (cleanPathOf path'))) as Hafter.
    { intros path' text' k Hin Hp Hk.
      assert (In (path', text') (processedFiles files)) as Hin'.
      { rewrite Hsplit. apply in_or_app. right. now right. }
      assert (path' <> mainPath) as Hne.
      { intros ->. unfold keys in Hkeys. rewrite map_app in Hkeys.
        cbn [List.map fst] in Hkeys.
        apply NoDup_remove_2 in Hkeys. apply Hkeys.
        apply in_or_app. right.
        apply (in_map fst after (mainPath, text') Hin). }
      apply (In_obj_get _ _ _ _ (processedFiles_NoDup files)) in Hin'.
      rewrite processedFiles_fold in Hin'.
      apply fold_processed_sound in Hin' as [Hin'|(file & Hfile & _)];
        [discriminate|].
      now apply (Hfree path' file k). }
    assert (forall k, In k sixAliases ->
              exists encoded,
                encodeURIComponent (processFile mainPath main) = Ok encoded
                /\ obj_get m k = Some (dataUriOf encoded)) as Hmine.
    { intros k Hk. apply (Hlast before mainPath _ after k Hsplit).
      - reflexivity.
      - now rewrite aliases_of_main.
      - now apply Hsix.
      - intros path' text' Hin Hp. now apply (Hafter path' text'). }
    destruct (Hmine mainPath) as (encoded & He & _); [now left|].
    exists encoded. split; [exact He|]. intros k Hk.
    destruct (Hmine k Hk) as (encoded' & He' & Hk'). congruence.
Qed.

Lemma alias_completeness_witness :
  Forall (fun k => has_key scenarioImports k = true) sixAliases
  /\ exists encoded,
       Forall (fun k => obj_get scenarioImports k = Some (dataUriOf encoded))
         sixAliases.
Proof.
  destruct (alias_completeness scenarioFiles
              {| name := Some (js "src/main.js");
                 content := js "import {h} from 'preact'; console.log('hi')";
                 language := Some (js "javascript") |}
              scenarioImports) as (Hpresent & _ & _ & Hown).
  - right. left. reflexivity.
  - vm_compute. reflexivity.
  - split; [apply Forall_forall; exact Hpresent|].
    destruct Hown as (encoded & _ & Hsame).
    + repeat constructor; simpl; intuition discriminate.
    + intros path file k [[= <- <-]|[[= <- <-]|[]]] Hne Hsource.
      * vm_compute in Hsource. discriminate.
      * now contradiction Hne.
    + exists encoded. apply Forall_forall. exact Hsame.
Defined.

(* ================================================================== *)
(** * Injection after the head and body tags *)
(* ================================================================== *)

Lemma injectHead_absent doc block style :
  (forall pre post, doc <> pre ++ js "<head>" ++ post) ->
  injectHead doc block style = block ++ style ++ doc.
Proof.
  intros H. unfold injectHead. apply includes_false in H. now rewrite H.
Qed.

Lemma injectBody_absent doc :
  (forall pre post, doc <> pre ++ js "<body>" ++ post) ->
  injectBody doc = doc ++ errorScript.
Proof.
  intros H. unfold injectBody. apply includes_false in H. now rewrite H.
Qed.

Lemma includes_app pre tag post : includes (pre ++ tag ++ post) tag = true.
Proof. apply includes_iff. eauto. Qed.

Lemma injectHead_first pre post block style :
  firstOccurrence (js "<head>") pre post ->
  one_of (block ++ style) DOLLAR = false ->
  injectHead (pre ++ js "<head>" ++ post) block style
  = pre ++ js "<head>" ++ block ++ style ++ post.
Proof.
  intros Hfirst Hplain. unfold injectHead.
  rewrite includes_app, replace_str_first by exact Hfirst.
  rewrite getSubstitution_plain; [now rewrite <- !app_assoc|].
  unfold one_of in *. rewrite !existsb_app in *. exact Hplain.
Qed.

Lemma injectBody_first pre post :
  firstOccurrence (js "<body>") pre post ->
  injectBody (pre ++ js "<body>" ++ post)
  = pre ++ js "<body>" ++ errorScript ++ post.
Proof.
  intros Hfirst. unfold injectBody.
  rewrite includes_app, replace_str_first by exact Hfirst.
  rewrite getSubstitution_plain by exact errorScript_plain.
  now rewrite <- !app_assoc.
Qed.

Lemma tag_with_attributes_is_no_occurrence c rest :
  c <> GT ->
  startsWith (js "<head" ++ c :: rest) (js "<head>") = false
  /\ startsWith (js "<body" ++ c :: rest) (js "<body>") = false.
Proof.
  intros Hc. apply N.eqb_neq in Hc. rewrite N.eqb_sym in Hc.
  split; cbn; unfold GT in Hc; now rewrite Hc.
Qed.

(** C8, at the input on which the code departs from it.  The shell has a
    literal [<head>] and the only style sheet holds a dollar sign between
    single quotes.  The build returns a document, but the style block is
    not in it: the dollar sign and the quote after it were taken for a
    replacement pattern and replaced by all that follows [<head>] in the
    shell, so the style rule runs into [<meta charset=...]. *)
Theorem head_injection_expands_dollar_patterns :
  buildPreviewContent dollarStyleFiles = Ok dollarStyleDocument
  /\ includes (rewriteEntryScripts (entryDocument dollarStyleFiles)) (js "<head>") = true
  /\ styleTag dollarStyleFiles
     = js "<style>" ++ NL ++ js "/* style.css */" ++ NL
         ++ js ".price::before { content: '$'; }" ++ NL ++ js "</style>"
  /\ includes dollarStyleDocument (styleTag dollarStyleFiles) = false
  /\ includes dollarStyleDocument
       (js ".price::before { content: '" ++ NL ++ js "    <meta charset=") = true.
Proof.
  repeat apply conj; vm_compute; reflexivity.
Qed.

(** C10 as stated fails: the two tags have six code units, not seven; and
    a document whose head tag carries attributes does not take the
    fallback when the literal tag occurs elsewhere in it, here in a
    script. *)
Lemma literal_tags_counterexample :
  length (js "<head>") = 6%nat
  /\ length (js "<body>") = 6%nat
  /\ injectHead attributedHeadDocument (js "[map]") (js "[css]")
     <> js "[map]" ++ js "[css]" ++ attributedHeadDocument
  /\ injectHead attributedHeadDocument (js "[map]") (js "[css]")
     = js "<html><head lang=" ++ dq ++ js "en" ++ dq
         ++ js "><script>var t = '<head>[map][css]';</script></head></html>".
Proof.
  repeat apply conj; try reflexivity. vm_compute. discriminate.
Qed.

(** C10, as the code has it.  The head step and the body step look for
    the literal six-unit strings [<head>] and [<body>], the body step in
    the document that the head step produced.  A tag that continues with
    anything but the closing bracket is no occurrence.  A document
    without the literal takes the fallback: map and styles in front, or
    the error script at the end.  Where the literal occurs, the error
    script is inserted once, right after its first occurrence, and so are
    map and styles when they hold no dollar sign. *)
Theorem injection_matches_the_literal_tags :
  forall (doc pre post block style : jsstring) (m : obj jsstring)
         (files : FileSystem),
    length (js "<head>") = 6%nat
    /\ length (js "<body>") = 6%nat
    /\ assemble doc m files
       = injectBody (injectHead (rewriteEntryScripts doc)
                       (importMapScript m) (styleTag files))
    /\ (forall c rest, c <> GT ->
          startsWith (js "<head" ++ c :: rest) (js "<head>") = false
          /\ startsWith (js "<body" ++ c :: rest) (js "<body>") = false)
    /\ ((forall a b, doc <> a ++ js "<head>" ++ b) ->
        injectHead doc block style = block ++ style ++ doc)
    /\ ((forall a b, doc <> a ++ js "<body>" ++ b) ->
        injectBody doc = doc ++ errorScript)
    /\ (firstOccurrence (js "<body>") pre post ->
        injectBody (pre ++ js "<body>" ++ post)
        = pre ++ js "<body>" ++ errorScript ++ post)
    /\ (firstOccurrence (js "<head>") pre post ->
        one_of (block ++ style) DOLLAR = false ->
        injectHead (pre ++ js "<head>" ++ post) block style
        = pre ++ js "<head>" ++ block ++ style ++ post).
Proof.
  intros doc pre post block style m files.
  repeat apply conj; try reflexivity.
  - apply tag_with_attributes_is_no_occurrence.
  - apply injectHead_absent.
  - apply injectBody_absent.
  - apply injectBody_first.
  - apply injectHead_first.
Qed.

Lemma injection_matches_the_literal_tags_witness :
  injectHead attributedTagsDocument (js "[map]") (js "[css]")
  = js "[map]" ++ js "[css]" ++ attributedTagsDocument
  /\ injectBody attributedTagsDocument = attributedTagsDocument ++ errorScript
  /\ injectBody (js "<html>" ++ js "<body>" ++ js "<p>hi</p><body>")
     = js "<html>" ++ js "<body>" ++ errorScript ++ js "<p>hi</p><body>"
  /\ injectHead (js "<html>" ++ js "<head>" ++ js "</head><head>")
       (js "[map]") (js "[css]")
     = js "<html>" ++ js "<head>" ++ js "[map]" ++ js "[css]" ++ js "</head><head>".
Proof.
  assert (forall tag post,
             startsWith (js "<html>" ++ tag ++ post) tag = false ->
             startsWith (skipn 1 (js "<html>" ++ tag ++ post)) tag = false ->
             startsWith (skipn 2 (js "<html>" ++ tag ++ post)) tag = false ->
             startsWith (skipn 3 (js "<html>" ++ tag ++ post)) tag = false ->
             startsWith (skipn 4 (js "<html>" ++ tag ++ post)) tag = false ->
             startsWith (skipn 5 (js "<html>" ++ tag ++ post)) tag = false ->
             firstOccurrence tag (js "<html>") post) as Hfirst.
  { intros tag post H0 H1 H2 H3 H4 H5 j Hj.
    do 6 (destruct j as [|j]; [assumption|]). simpl in Hj. lia. }
  repeat apply conj.
  - apply (proj1 (proj2 (proj2 (proj2 (proj2
             (injection_matches_the_literal_tags attributedTagsDocument
                [] [] (js "[map]") (js "[css]") [] [])))))).
    apply includes_false. vm_compute. reflexivity.
  - apply (proj1 (proj2 (proj2 (proj2 (proj2 (proj2
             (injection_matches_the_literal_tags attributedTagsDocument
                [] [] [] [] [] []))))))).
    apply includes_false. vm_compute. reflexivity.
  - apply (proj1 (proj2 (proj2 (proj2 (proj2 (proj2 (proj2
             (injection_matches_the_literal_tags []
                (js "<html>") (js "<p>hi</p><body>") [] [] [] [])))))))).
    apply Hfirst; reflexivity.
  - apply (proj2 (proj2 (proj2 (proj2 (proj2 (proj2 (proj2
             (injection_matches_the_literal_tags []
                (js "<html>") (js "</head><head>") (js "[map]") (js "[css]")
                [] [])))))))).
    + apply Hfirst; reflexivity.
    + reflexivity.
Defined.

(* ================================================================== *)
(** * Segments of a path *)
(* ================================================================== *)

Lemma split_nonempty sep s : split sep s <> [].
Proof.
  destruct s as [|c t]; cbn [split]; [discriminate|].
  destruct (c =? sep); [discriminate|].
  destruct (split sep t); discriminate.
Qed.

Lemma split_app_sep sep a : forall b,
  split sep (a ++ sep :: b) = split sep a ++ split sep b.
Proof.
  induction a as [|c a IH]; intros b; cbn [app split].
  - now rewrite N.eqb_refl.
  - rewrite IH. destruct (c =? sep); [reflexivity|].
    destruct (split sep a) as [|h r] eqn:E; [|reflexivity].
    now apply split_nonempty in E.
Qed.

Lemma split_no_sep sep s :
  forallb (fun c => negb (c =? sep)) s = true -> split sep s = [s].
Proof.
  induction s as [|c s IH]; cbn [forallb split]; [reflexivity|].
  intros H. apply andb_true_iff in H as [Hc Hs].
  destruct (c =? sep); [discriminate|]. now rewrite IH.
Qed.

(** The segments of a string: all but the last end at a separator, and no
    segment holds one. *)
Lemma split_last sep s :
  exists init e,
    split sep s = init ++ [e]
    /\ forallb (fun c => negb (c =? sep)) e = true
    /\ (init = [] -> s = e)
    /\ (init <> [] -> exists pre, s = pre ++ sep :: e).
Proof.
  induction s as [|c s (init & e & Hsplit & He & Hnil & Hcons)].
  - exists [], []. repeat split; try reflexivity. intros H. now contradiction H.
  - cbn [split]. rewrite Hsplit. destruct (c =? sep) eqn:Hc.
    + apply N.eqb_eq in Hc. subst c.
      exists ([] :: init), e. repeat split; auto; [discriminate|].
      intros _. destruct init as [|h r].
      * exists []. now rewrite (Hnil eq_refl).
      * destruct Hcons as [pre ->]; [discriminate|]. now exists (sep :: pre).
    + destruct init as [|h r]; cbn [app].
      * exists [], (c :: e). rewrite (Hnil eq_refl). cbn [forallb].
        rewrite Hc, He. repeat split; try reflexivity.
        intros H. now contradiction H.
      * exists ((c :: h) :: r), e. repeat split; auto; [discriminate|].
        intros _. destruct Hcons as [pre ->]; [discriminate|].
        now exists (c :: pre).
Qed.

Lemma pop_value_snoc (init : list jsstring) e : pop_value (init ++ [e]) = Some e.
Proof. unfold pop_value. now rewrite rev_app_distr. Qed.

Lemma split_segments_no_sep sep s :
  Forall (fun seg => forallb (fun c => negb (c =? sep)) seg = true) (split sep s).
Proof.
  induction s as [|c s IH]; cbn [split].
  - repeat constructor.
  - destruct (c =? sep) eqn:Hc; [now constructor|].
    destruct (split sep s) as [|h r]; [repeat constructor; cbn; now rewrite Hc|].
    inversion IH; subst. constructor; [|assumption].
    cbn [forallb]. rewrite Hc. assumption.
Qed.

(* ================================================================== *)
(** * The language of a file and its treatment by the build *)
(* ================================================================== *)

Lemma language_of_extension path e :
  pop_value (split DOT path) = Some e ->
  isScriptLanguage (getLanguageFromFilename path)
  = existsb (str_eqb e) bareExtensions.
Proof.
  intros H. unfold getLanguageFromFilename. rewrite H.
  unfold bareExtensions. cbn [existsb]. rewrite orb_false_r.
  destruct (str_eqb e (js "js")) eqn:E1; [reflexivity|].
  destruct (str_eqb e (js "jsx")) eqn:E2; [reflexivity|].
  destruct (str_eqb e (js "ts")) eqn:E3; [reflexivity|].
  destruct (str_eqb e (js "tsx")) eqn:E4; [reflexivity|].
  destruct (str_eqb e (js "html")); [reflexivity|].
  destruct (str_eqb e (js "css")); [reflexivity|].
  destruct (str_eqb e (js "json")); reflexivity.
Qed.

Lemma last_segment_cases path :
  exists e,
    pop_value (split DOT path) = Some e
    /\ forallb (fun c => negb (c =? DOT)) e = true
    /\ (path = e \/ exists pre, path = pre ++ DOT :: e).
Proof.
  destruct (split_last DOT path) as (init & e & Hsplit & He & Hnil & Hcons).
  exists e. rewrite Hsplit, pop_value_snoc. repeat split; auto.
  destruct init; [left; now apply Hnil|right; apply Hcons; discriminate].
Qed.

Lemma extension_of_bare e :
  In e bareExtensions -> In (DOT :: e) extensions.
Proof.
  unfold bareExtensions, extensions. cbn [In].
  intros [<-|[<-|[<-|[<-|[]]]]]; cbn; auto.
Qed.

Lemma bare_of_extension x :
  In x extensions -> exists e, x = DOT :: e /\ In e bareExtensions.
Proof.
  unfold bareExtensions, extensions. cbn [In].
  intros [<-|[<-|[<-|[<-|[]]]]]; eexists; (split; [reflexivity|]); cbn; auto.
Qed.

(** X1.  The build treats as scripts exactly the files whose language is
    [javascript] or [typescript], but for the four names without a dot:
    [js], [jsx], [ts] and [tsx] have a script language and are not
    rewritten or registered as modules. *)
Theorem script_language_and_source_extension :
  forall path : jsstring,
    isScriptLanguage (getLanguageFromFilename path)
    = isSourcePath path || existsb (str_eqb path) bareExtensions.
Proof.
  intros path. destruct (last_segment_cases path) as (e & Hpop & He & Hshape).
  rewrite (language_of_extension path e Hpop).
  apply eq_true_iff_eq. rewrite orb_true_iff, isSourcePath_iff, !existsb_exists.
  split.
  - intros (x & Hin & Hx). apply str_eqb_eq in Hx. subst x.
    destruct Hshape as [->|[pre ->]].
    + right. exists e. split; [exact Hin|apply str_eqb_refl].
    + left. exists pre, (DOT :: e). split; [now apply extension_of_bare|reflexivity].
  - intros [(pre & x & Hin & Hpath)|(x & Hin & Hx)].
    + apply bare_of_extension in Hin as (e' & -> & Hin).
      assert (e' = e) as <-; [|exists e'; split; [exact Hin|apply str_eqb_refl]].
      assert (forallb (fun c => negb (c =? DOT)) e' = true) as He'.
      { unfold bareExtensions in Hin. cbn [In] in Hin.
        destruct Hin as [<-|[<-|[<-|[<-|[]]]]]; reflexivity. }
      rewrite Hpath, split_app_sep, (split_no_sep DOT e' He') in Hpop.
      rewrite pop_value_snoc in Hpop. congruence.
    + apply str_eqb_eq in Hx. subst x. exists path. split; [exact Hin|].
      assert (forallb (fun c => negb (c =? DOT)) path = true) as Hp.
      { unfold bareExtensions in Hin. cbn [In] in Hin.
        destruct Hin as [<-|[<-|[<-|[<-|[]]]]]; reflexivity. }
      rewrite (split_no_sep DOT path Hp) in Hpop. cbn in Hpop.
      injection Hpop as <-. apply str_eqb_refl.
Qed.

(* ================================================================== *)
(** * The resolver leaves no dot segment *)
(* ================================================================== *)

Lemma split_join segments :
  segments <> [] -> Forall (fun seg => noSlash seg = true) segments ->
  split SLASH (join (js "/") segments) = segments.
Proof.
  intros Hne H. induction H as [|seg rest Hseg Hrest IH]; [now contradiction Hne|].
  cbn [join]. destruct rest as [|seg' rest'].
  - now apply split_no_sep.
  - change (js "/" ++ join (js "/") (seg' :: rest'))
      with (SLASH :: join (js "/") (seg' :: rest')).
    rewrite split_app_sep, IH by discriminate.
    now rewrite (split_no_sep SLASH seg Hseg).
Qed.

Lemma removelast_Forall (A : Type) (P : A -> Prop) (l : list A) :
  Forall P l -> Forall P (removelast l).
Proof.
  induction 1 as [|x l Hx Hl IH]; [constructor|].
  cbn [removelast]. destruct l; [constructor|]. now constructor.
Qed.

Lemma resolve_step_Forall (P : jsstring -> Prop) parts part :
  Forall P parts -> (dotSegment part = false -> P part) ->
  Forall P (resolve_step parts part).
Proof.
  intros Hparts Hpart. unfold resolve_step. unfold dotSegment in Hpart.
  destruct (str_eqb part (js ".")); [exact Hparts|].
  destruct (str_eqb part (js "..")).
  - destruct (0 <? length parts)%nat; [|exact Hparts].
    now apply removelast_Forall.
  - apply Forall_app. split; [exact Hparts|]. constructor; auto.
Qed.

Lemma fold_resolve_Forall (P : jsstring -> Prop) parts : forall dir,
  Forall P dir -> Forall (fun part => dotSegment part = false -> P part) parts ->
  Forall P (fold_left resolve_step parts dir).
Proof.
  induction parts as [|p parts IH]; intros dir Hdir Hparts; cbn [fold_left].
  - exact Hdir.
  - inversion Hparts; subst. apply IH; [|assumption].
    now apply resolve_step_Forall.
Qed.

Lemma resolve_relative sourcePath specifier :
  startsWith specifier (js ".") = true ->
  resolveModuleSpecifier sourcePath specifier
  = join (js "/")
      (fold_left resolve_step (split SLASH specifier)
         (removelast (split SLASH sourcePath))).
Proof.
  intros H. unfold resolveModuleSpecifier.
  now rewrite H, (startsWith_dot_not_slash _ H).
Qed.

(** X2.  For a relative specifier and a source path whose directory has
    no [.] or [..] segment, the resolved path has none either, however
    many the specifier has; and when it is not the empty path its
    segments are those the walk has left. *)
Theorem resolved_path_has_no_dot_segment :
  forall sourcePath specifier : jsstring,
    startsWith specifier (js ".") = true ->
    noDotSegments (removelast (split SLASH sourcePath)) ->
    noDotSegments (split SLASH (resolveModuleSpecifier sourcePath specifier))
    /\ (resolveModuleSpecifier sourcePath specifier <> [] ->
        split SLASH (resolveModuleSpecifier sourcePath specifier)
        = fold_left resolve_step (split SLASH specifier)
            (removelast (split SLASH sourcePath))).
Proof.
  intros sourcePath specifier Hrel Hdir.
  rewrite (resolve_relative _ _ Hrel).
  set (segments := fold_left resolve_step (split SLASH specifier)
                     (removelast (split SLASH sourcePath))).
  assert (noDotSegments segments) as Hdots.
  { apply fold_resolve_Forall; [exact Hdir|].
    apply Forall_forall. auto. }
  assert (Forall (fun seg => noSlash seg = true) segments) as Hslash.
  { apply fold_resolve_Forall.
    - apply removelast_Forall, split_segments_no_sep.
    - apply Forall_impl with (2 := split_segments_no_sep SLASH specifier).
      auto. }
  destruct segments as [|seg rest] eqn:E.
  - split; [repeat constructor|]. intros H. now contradiction H.
  - rewrite split_join by (auto; discriminate). split; [exact Hdots|reflexivity].
Qed.

Lemma resolved_path_has_no_dot_segment_witness :
  noDotSegments
    (split SLASH (resolveModuleSpecifier (js "src/a/b.js") (js "./../../../x/./y.js")))
  /\ (resolveModuleSpecifier (js "src/a/b.js") (js "./../../../x/./y.js") <> [] ->
      split SLASH (resolveModuleSpecifier (js "src/a/b.js") (js "./../../../x/./y.js"))
      = fold_left resolve_step (split SLASH (js "./../../../x/./y.js"))
          (removelast (split SLASH (js "src/a/b.js")))).
Proof.
  apply (resolved_path_has_no_dot_segment (js "src/a/b.js") (js "./../../../x/./y.js")).
  - reflexivity.
  - repeat constructor.
Defined.

(* ================================================================== *)
(** * The style block *)
(* ================================================================== *)

Lemma cssContent_fold files : forall acc,
  fold_left (fun css entry =>
               if endsWith (fst entry) (js ".css")
               then css ++ NL ++ js "/* " ++ fst entry ++ js " */" ++ NL
                        ++ content (snd entry) ++ NL
               else css) files acc
  = acc ++ flat_map cssBlock files.
Proof.
  induction files as [|entry files IH]; intros acc; cbn [fold_left flat_map].
  - now rewrite app_nil_r.
  - rewrite IH. unfold cssBlock at 2.
    destruct (endsWith (fst entry) (js ".css")).
    + now rewrite <- !app_assoc.
    + reflexivity.
Qed.

Lemma cssContent_blocks files : cssContent files = flat_map cssBlock files.
Proof. unfold cssContent. now rewrite cssContent_fold. Qed.

Lemma flat_map_nil (A B : Type) (f : A -> list B) (l : list A) :
  flat_map f l = [] <-> forall x, In x l -> f x = [].
Proof.
  induction l as [|y l IH]; cbn [flat_map In].
  - split; [intros _ x []|reflexivity].
  - split.
    + intros H. apply app_eq_nil in H as [H1 H2].
      intros x [<-|Hx]; [exact H1|]. now apply IH.
    + intros H. rewrite (H y) by now left. apply IH. intros x Hx.
      apply H. now right.
Qed.

Lemma flat_map_includes (A : Type) (f : A -> jsstring) (l : list A) x :
  In x l -> exists pre post, flat_map f l = pre ++ f x ++ post.
Proof.
  intros Hin. destruct (in_split _ _ Hin) as (l1 & l2 & ->).
  exists (flat_map f l1), (flat_map f l2).
  now rewrite flat_map_app.
Qed.

(** X3.  The style block holds, in the order of the file system, one
    block for each file whose path ends in [.css] (a comment with the
    path, then the content) and nothing for any other file; so it is the
    empty string exactly when no path ends in [.css], and it contains the
    block of every style sheet. *)
Theorem style_block_collects_the_style_sheets :
  forall files : FileSystem,
    cssContent files = flat_map cssBlock files
    /\ (styleTag files = []
        <-> forall path file, In (path, file) files ->
                              endsWith path (js ".css") = false)
    /\ (forall path file,
           In (path, file) files -> endsWith path (js ".css") = true ->
           exists before after,
             styleTag files
             = js "<style>" ++ before
                 ++ (NL ++ js "/* " ++ path ++ js " */" ++ NL
                       ++ content file ++ NL)
                 ++ after ++ js "</style>").
Proof.
  intros files. split; [apply cssContent_blocks|split].
  - unfold styleTag. rewrite cssContent_blocks.
    destruct (flat_map cssBlock files) as [|c css] eqn:E.
    + split; [|reflexivity]. intros _ path file Hin.
      apply (proj1 (flat_map_nil _ _ cssBlock files)) with (x := (path, file)) in E;
        [|exact Hin].
      unfold cssBlock in E. cbn [fst snd] in E.
      destruct (endsWith path (js ".css")); [discriminate|reflexivity].
    + split; [discriminate|]. intros H. exfalso.
      assert (flat_map cssBlock files = []) as E'; [|congruence].
      apply flat_map_nil. intros [path file] Hin. unfold cssBlock. cbn [fst].
      now rewrite (H path file Hin).
  - intros path file Hin Hcss.
    destruct (flat_map_includes _ cssBlock files (path, file) Hin)
      as (before & after & E).
    unfold cssBlock at 2 in E. cbn [fst snd] in E. rewrite Hcss in E.
    exists before, after. unfold styleTag. rewrite cssContent_blocks, E.
    destruct (before ++ (NL ++ js "/* " ++ path ++ js " */" ++ NL
                           ++ content file ++ NL) ++ after) as [|c css] eqn:E'.
    + destruct before; discriminate.
    + rewrite <- E'. now rewrite <- !app_assoc.
Qed.

(* ================================================================== *)
(** * What the import map holds *)
(* ================================================================== *)

Lemma processed_entry_origin files path text :
  In (path, text) (processedFiles files) ->
  exists file, In (path, file) files /\ text = processFile path file.
Proof.
  intros Hin.
  apply (In_obj_get _ _ _ _ (processedFiles_NoDup files)) in Hin.
  rewrite processedFiles_fold in Hin.
  apply fold_processed_sound in Hin as [Hin|Hin]; [discriminate|exact Hin].
Qed.

Lemma setAll_inv uri ks : forall m k v,
  obj_get (setAll uri ks m) k = Some v ->
  (In k ks /\ v = uri) \/ obj_get m k = Some v.
Proof.
  unfold setAll. induction ks as [|x ks IH]; intros m k v H; cbn [fold_left] in H.
  - now right.
  - apply IH in H as [[Hin ->]|H]; [left; split; [now right|reflexivity]|].
    apply obj_get_set_inv in H as [[-> ->]|H]; [left|now right].
    split; [now left|reflexivity].
Qed.

Lemma forEach_register_origin entries : forall imports0 m k v,
  forEach registerModule entries imports0 = Ok m ->
  obj_get m k = Some v ->
  obj_get imports0 k = Some v
  \/ exists path text encoded,
       In (path, text) entries /\ isSourcePath path = true
       /\ In k (aliasesOf (cleanPathOf path))
       /\ encodeURIComponent text = Ok encoded
       /\ v = dataUriOf encoded.
Proof.
  induction entries as [|[p t] entries IH]; intros imports0 m k v H Hget;
    cbn [forEach] in H.
  - injection H as <-. now left.
  - destruct (registerModule imports0 (p, t)) as [m1|e] eqn:E;
      cbn [bind] in H; [|discriminate].
    destruct (IH m1 m k v H Hget) as [H1|(path & text & encoded & Hin & Hrest)].
    + apply registerModule_step in E as [[_ ->]|(Hp & encoded & He & ->)];
        [now left|].
      apply setAll_inv in H1 as [[Hk ->]|H1]; [right|now left].
      exists p, t, encoded. repeat split; auto. now left.
    + right. exists path, text, encoded. split; [now right|exact Hrest].
Qed.

(** X4.  The import map holds nothing but the five CDN entries and the
    aliases of the source files: every entry is a CDN entry or maps an
    alias of a file with a source extension to the data URI of the
    rewritten text of that file; and a specifier that is no alias of any
    source file maps to what the CDN table gives for it, or to nothing. *)
Theorem import_map_has_no_other_entries :
  forall (files : FileSystem) (m : obj jsstring),
    imports files = Ok m ->
    (forall k v,
        obj_get m k = Some v ->
        obj_get cdnImports k = Some v
        \/ exists path file encoded,
             In (path, file) files /\ isSourcePath path = true
             /\ In k (aliasesOf (cleanPathOf path))
             /\ encodeURIComponent (processFile path file) = Ok encoded
             /\ v = dataUriOf encoded)
    /\ (forall k,
           (forall path file,
               In (path, file) files -> isSourcePath path = true ->
               ~ In k (aliasesOf (cleanPathOf path))) ->
           obj_get m k = obj_get cdnImports k).
Proof.
  intros files m Hm. unfold imports in Hm. split.
  - intros k v Hget.
    destruct (forEach_register_origin _ _ _ _ _ Hm Hget)
      as [H|(path & text & encoded & Hin & Hp & Hk & He & ->)]; [now left|].
    right. apply processed_entry_origin in Hin as (file & Hfile & ->).
    exists path, file, encoded. auto.
  - intros k Hfree.
    apply (forEach_register_untouched _ _ _ _ Hm).
    intros path text Hin Hp.
    apply processed_entry_origin in Hin as (file & Hfile & _).
    now apply (Hfree path file).
Qed.

Lemma import_map_has_no_other_entries_witness :
  obj_get scenarioImports (js "preact") = obj_get cdnImports (js "preact")
  /\ obj_get scenarioImports (js "src/other.js") = obj_get cdnImports (js "src/other.js").
Proof.
  destruct (import_map_has_no_other_entries scenarioFiles scenarioImports)
    as [_ Hframe].
  - vm_compute. reflexivity.
  - split; apply Hframe;
      intros path file [[= <- <-]|[[= <- <-]|[]]] Hsource;
      try (vm_compute in Hsource; discriminate);
      change (js "src/main.js") with mainPath; rewrite aliases_of_main;
      cbn [In sixAliases]; intuition discriminate.
Defined.

(* ================================================================== *)
(** * More facts about the matcher *)
(* ================================================================== *)

Lemma search_found r s : forall idx i m,
  search r idx s = Some (i, m) ->
  exists pre suf, s = pre ++ suf /\ exec_at r i suf = Some m
                  /\ i = (idx + length pre)%nat.
Proof.
  induction s as [|c s IH]; intros idx i m H; cbn [search] in H.
  - destruct (exec_at r idx []) as [m'|] eqn:E; [|discriminate].
    injection H as <- <-. exists [], []. rewrite Nat.add_0_r. auto.
  - destruct (exec_at r idx (c :: s)) as [m'|] eqn:E.
    + injection H as <- <-. exists [], (c :: s). rewrite Nat.add_0_r. auto.
    + apply IH in H as (pre & suf & -> & Hm & ->).
      exists (c :: pre), suf. cbn [length app]. rewrite Nat.add_succ_r. auto.
Qed.

Lemma Matches_literal w : forall st st',
  w <> [] -> Matches (lit_codes w) st st' -> m_rest st = w ++ m_rest st'.
Proof.
  induction w as [|c w IH]; intros st st' Hne H; [now contradiction Hne|].
  destruct w as [|d w].
  - cbn [lit_codes] in H. inversion H as [|p c' t i caps Hc| | | | | | | | |]; subst.
    cbn [m_rest]. apply N.eqb_eq in Hc. now subst.
  - change (lit_codes (c :: d :: w))
      with (Seq (Cls (N.eqb c)) (lit_codes (d :: w))) in H.
    inversion H as [| |a b s1 s2 s3 H1 H2| | | | | | | |]; subst.
    inversion H1 as [|p c' t i caps Hc| | | | | | | | |]; subst.
    cbn [m_rest] in *.
    assert (Hw : d :: w <> []) by discriminate.
    pose proof (IH _ _ Hw H2) as E. cbn [m_rest] in E.
    apply N.eqb_eq in Hc. subst. reflexivity.
Qed.

Lemma Matches_all q r st st' :
  Matches r st st' -> all_in q r ->
  forall M, m_rest st = M ++ m_rest st' -> forallb q M = true.
Proof.
  induction 1 as [st|p c t i caps Hc|a b st1 st2 st3 H1 IH1 H2 IH2
                 |a b st st' _ IH|a b st st' _ IH|n a st st' _ IH
                 |g p cs t i caps Hcs|a st st' _ IH|a st|st Hi|st Hr];
    cbn [all_in m_rest]; intros A M HM.
  - assert (M = []) as ->; [|reflexivity].
    apply (app_inv_tail (m_rest st)). now rewrite <- HM.
  - assert (M = [c]) as ->; [apply (app_inv_tail t); now rewrite <- HM|].
    cbn. now rewrite (A c Hc).
  - destruct A as [Aa Ab].
    destruct (Matches_consumes _ _ _ H1) as (M1 & E1 & _).
    destruct (Matches_consumes _ _ _ H2) as (M2 & E2 & _).
    assert (M = M1 ++ M2) as ->.
    { apply (app_inv_tail (m_rest st3)). rewrite <- HM, E1, E2.
      now rewrite app_assoc. }
    rewrite forallb_app, (IH1 Aa M1 E1), (IH2 Ab M2 E2). reflexivity.
  - destruct A. auto.
  - destruct A. auto.
  - auto.
  - assert (M = cs) as ->; [apply (app_inv_tail t); now rewrite <- HM|].
    apply forallb_forall. intros c Hin. apply A.
    now apply (proj1 (forallb_forall p cs) Hcs).
  - auto.
  - assert (M = []) as ->; [|reflexivity].
    apply (app_inv_tail (m_rest st)). now rewrite <- HM.
  - assert (M = []) as ->; [|reflexivity].
    apply (app_inv_tail (m_rest st)). now rewrite <- HM.
  - assert (M = []) as ->; [|reflexivity].
    apply (app_inv_tail (m_rest st)). now rewrite <- HM.
Qed.

(** The three parts of a match of a pattern of three groups. *)
Lemma three_groups_parts A B C idx s m :
  groupless A = true -> groupless B = true -> groupless C = true ->
  exec_at (threeGroups A B C) idx s = Some m ->
  exists M1 M2 M3 sa sa' sb sb' sc sc',
    s = M1 ++ M2 ++ M3 ++ m_rest m
    /\ m_idx m = (idx + length (M1 ++ M2 ++ M3))%nat
    /\ m_caps m = [(3%nat, M3); (2%nat, M2); (1%nat, M1)]
    /\ (Matches A sa sa' /\ m_rest sa = M1 ++ m_rest sa' /\ m_rest sa = s)
    /\ (Matches B sb sb' /\ m_rest sb = M2 ++ m_rest sb')
    /\ (Matches C sc sc' /\ m_rest sc = M3 ++ m_rest sc').
Proof.
  intros GA GB GC H. unfold exec_at in H.
  apply rmatch_sound in H as (st & H & [= ->]).
  inversion H as [| |a b s0 s1 s3 H1 H23| | | | | | | |]; subst.
  inversion H23 as [| |a b s1' s2 s3' H2 H3| | | | | | | |]; subst.
  destruct (Matches_group_inv _ _ _ _ H1) as (sa' & M1 & HA & R1 & I1 & ->).
  destruct (Matches_group_inv _ _ _ _ H2) as (sb' & M2 & HB & R2 & I2 & ->).
  destruct (Matches_group_inv _ _ _ _ H3) as (sc' & M3 & HC & R3 & I3 & ->).
  cbn [m_rest m_idx m_caps] in *.
  exists M1, M2, M3. do 6 eexists. repeat apply conj; try eassumption.
  - now rewrite R1, R2, R3.
  - rewrite I3, I2, I1, !length_app. lia.
  - rewrite (Matches_groupless _ _ _ HC GC). cbn [m_caps].
    rewrite (Matches_groupless _ _ _ HB GB). cbn [m_caps].
    now rewrite (Matches_groupless _ _ _ HA GA).
  - reflexivity.
Qed.

Lemma Matches_begins_consumed q r st st' :
  Matches r st st' -> begins_in q r ->
  exists c M, m_rest st = c :: M ++ m_rest st' /\ q c = true.
Proof.
  induction 1 as [st|p c t i caps Hc|a b st1 st2 st3 H1 IH1 H2 _
                 |a b st st' _ IH|a b st st' _ IH|n a st st' _ IH
                 |g p cs t i caps Hcs|a st st' _ IH|a st|st Hi|st Hr];
    cbn [begins_in m_rest]; intros B; try contradiction.
  - exists c, []. auto.
  - destruct (IH1 B) as (c & M & E & Hc).
    destruct (Matches_consumes _ _ _ H2) as (M2 & E2 & _).
    exists c, (M ++ M2). rewrite E, E2, <- app_assoc. auto.
  - destruct B. auto.
  - destruct B. auto.
  - auto.
Qed.

(* ================================================================== *)
(** * What the import rewrites leave alone *)
(* ================================================================== *)

Lemma only_refl path s : specifiersOnly path s s.
Proof. induction s; now constructor. Qed.

Lemma only_keep_app path p : forall s t,
  specifiersOnly path s t -> specifiersOnly path (p ++ s) (p ++ t).
Proof. induction p as [|c p IH]; intros s t H; [exact H|]. constructor. auto. Qed.

Lemma quote_not_quote c : quote_char c = true -> not_quote c = false.
Proof. unfold not_quote, none_of, quote_char. now intros ->. Qed.

Lemma only_no_quote path s t :
  specifiersOnly path s t -> forallb not_quote s = true -> t = s.
Proof.
  induction 1 as [|c s t _ IH|q c spec q' s t Hq _ _ _ _ _]; intros H.
  - reflexivity.
  - cbn [forallb] in H. apply andb_true_iff in H as [_ H]. now rewrite IH.
  - cbn [forallb] in H. rewrite (quote_not_quote _ Hq) in H. discriminate.
Qed.

Lemma dot_or_slash_not_quote c : dot_or_slash c = true -> not_quote c = true.
Proof.
  unfold dot_or_slash, one_of. cbn [existsb js map list_ascii_of_string].
  rewrite orb_false_r. intros H.
  apply orb_true_iff in H as [H|H]; apply N.eqb_eq in H; subst c; reflexivity.
Qed.

Ltac norm_app := repeat first [rewrite <- app_assoc | progress cbn [app]].

Lemma three_groups_only path A B C :
  groupless A = true -> groupless B = true -> groupless C = true ->
  ends_in quote_char A -> begins_in dot_or_slash B -> all_in not_quote B ->
  begins_in quote_char C ->
  forall n s idx, (length s <= n)%nat ->
    specifiersOnly path s
      (replace_all (threeGroups A B C) (rewriteSpecifier path) 0 idx s).
Proof.
  intros GA GB GC EA BB AB BC.
  assert (Hshape : forall idx s m,
    exec_at (threeGroups A B C) idx s = Some m ->
    exists M q c spec q' M',
      s = M ++ q :: (c :: spec) ++ q' :: M' ++ m_rest m
      /\ m_idx m = (idx + length (M ++ q :: (c :: spec) ++ q' :: M'))%nat
      /\ rewriteSpecifier path (m_caps m)
         = M ++ q :: resolveModuleSpecifier path (c :: spec) ++ q' :: M'
      /\ quote_char q = true /\ quote_char q' = true
      /\ dot_or_slash c = true /\ forallb not_quote (c :: spec) = true).
  { intros idx s m H.
    destruct (three_groups_parts A B C idx s m GA GB GC H)
      as (M1 & M2 & M3 & sa & sa' & sb & sb' & sc & sc'
          & Hs & Hi & Hcaps & (HA & RA & _) & (HB & RB) & (HC & RC)).
    destruct (Matches_ends quote_char _ _ _ HA EA) as (M & q & Eq & Hq).
    destruct (Matches_begins_consumed dot_or_slash _ _ _ HB BB)
      as (c & spec & Ec & Hc).
    destruct (Matches_begins_consumed quote_char _ _ _ HC BC)
      as (q' & M' & Eq' & Hq').
    assert (M1 = M ++ [q]) as ->.
    { apply (app_inv_tail (m_rest sa')). rewrite <- RA, Eq.
      now rewrite <- app_assoc. }
    assert (M2 = c :: spec) as ->.
    { apply (app_inv_tail (m_rest sb')). now rewrite <- RB, Ec. }
    assert (M3 = q' :: M') as ->.
    { apply (app_inv_tail (m_rest sc')). now rewrite <- RC, Eq'. }
    exists M, q, c, spec, q', M'. repeat apply conj; try assumption.
    - rewrite Hs. now rewrite <- !app_assoc.
    - rewrite Hi. f_equal. now rewrite <- !app_assoc.
    - rewrite Hcaps. unfold rewriteSpecifier. cbn [cap Nat.eqb].
      now rewrite <- !app_assoc.
    - exact (Matches_all not_quote _ _ _ HB AB _ RB). }
  assert (Hnil : forall idx, exec_at (threeGroups A B C) idx [] = None).
  { intros idx. destruct (exec_at (threeGroups A B C) idx []) as [m|] eqn:E;
      [|reflexivity].
    destruct (Hshape _ _ _ E) as (M & q & c & spec & q' & M' & Hs & _).
    destruct M; discriminate. }
  induction n as [|n IH]; intros s idx Hlen.
  - destruct s; [|simpl in Hlen; lia]. cbn [replace_all].
    rewrite Hnil. constructor.
  - destruct s as [|x t].
    { cbn [replace_all]. rewrite Hnil. constructor. }
    simpl in Hlen.
    destruct (exec_at (threeGroups A B C) idx (x :: t)) as [m|] eqn:E.
    + destruct (Hshape _ _ _ E)
        as (M & q & c & spec & q' & M' & Hs & Hi & Hf & Hq & Hq' & Hc & Hspec).
      cbn [replace_all]. rewrite E, Hf.
      set (whole := M ++ q :: (c :: spec) ++ q' :: M') in *.
      assert (exists k, length whole = S k) as [k Hk].
      { unfold whole. rewrite length_app. cbn [length].
        exists (length M + length ((c :: spec) ++ q' :: M'))%nat. lia. }
      assert (Hxt : x :: t = whole ++ m_rest m).
      { rewrite Hs. unfold whole. now norm_app. }
      replace (m_idx m - idx)%nat with (S k) by (rewrite Hi, Hk; lia).
      assert (Ht : (k <= length t)%nat /\ skipn k t = m_rest m).
      { destruct whole as [|w whole']; [discriminate|].
        injection Hxt as _ ->. injection Hk as <-.
        rewrite length_app, skipn_app, skipn_all, Nat.sub_diag.
        split; [lia|reflexivity]. }
      destruct Ht as [Hk' Ht].
      rewrite replace_all_skip by exact Hk'. rewrite Ht.
      rewrite Hs. rewrite <- (app_assoc M (q :: _)).
      apply only_keep_app. cbn [app].
      rewrite <- (app_assoc (resolveModuleSpecifier path (c :: spec))).
      cbn [app].
      apply (only_resolve path q c spec q' _ _ Hq Hq' Hc Hspec).
      apply only_keep_app. apply IH.
      apply (f_equal (@length N)) in Hxt. rewrite length_app, Hk in Hxt.
      simpl in Hxt. lia.
    + rewrite replace_all_cons_none by exact E.
      constructor. apply IH. lia.
Qed.

Lemma staticImport_only path s :
  specifiersOnly path s
    (replace_all staticImport (rewriteSpecifier path) 0 0 s).
Proof.
  eapply (three_groups_only path); try reflexivity;
    try (intros c H; exact H); try apply Nat.le_refl.
  cbn [all_in Plus]. repeat apply conj; try (intros c H; exact H).
  exact dot_or_slash_not_quote.
Qed.

Lemma dynamicImport_only path s :
  specifiersOnly path s
    (replace_all dynamicImport (rewriteSpecifier path) 0 0 s).
Proof.
  eapply (three_groups_only path); try reflexivity;
    try (intros c H; exact H); try apply Nat.le_refl.
  cbn [all_in Plus]. repeat apply conj; try (intros c H; exact H).
  exact dot_or_slash_not_quote.
Qed.

(** X5. Each of the two passes of the import rewrite (utils.ts 66-74)
    changes nothing but import specifiers: what lies between two quotes,
    begins with a dot or a slash and holds no quote may be replaced by
    its resolution from the path of the file, and every other code unit
    of the text stays where it was.  In particular a text without a quote
    is not changed at all. *)
Theorem rewrite_changes_only_specifiers : forall path text,
  (exists mid,
     specifiersOnly path text mid
     /\ specifiersOnly path mid (rewriteImports path text))
  /\ (forallb not_quote text = true -> rewriteImports path text = text).
Proof.
  intros path text. split.
  - exists (replace_all staticImport (rewriteSpecifier path) 0 0 text).
    split; [apply staticImport_only|apply dynamicImport_only].
  - intros H. unfold rewriteImports.
    assert (replace_all staticImport (rewriteSpecifier path) 0 0 text = text)
      as -> by (apply (only_no_quote path); [apply staticImport_only|exact H]).
    apply (only_no_quote path); [apply dynamicImport_only|exact H].
Qed.

Lemma search_begins r (ws : list jsstring) s :
  (forall idx t m, exec_at r idx t = Some m ->
                   Exists (fun w => exists rest, t = w ++ rest) ws) ->
  Forall (fun w => includes s w = false) ws ->
  forall idx, search r idx s = None.
Proof.
  intros Hr Hs idx. destruct (search r idx s) as [[i m]|] eqn:E; [|reflexivity].
  apply search_found in E as (pre & suf & -> & Hm & _).
  apply Hr in Hm. apply Exists_exists in Hm as (w & Hw & rest & ->).
  apply (proj1 (Forall_forall _ _) Hs) in Hw.
  apply includes_false with (pre := pre) (post := rest) in Hw.
  now contradiction Hw.
Qed.

Lemma staticImport_begins idx t m :
  exec_at staticImport idx t = Some m ->
  Exists (fun w => exists rest, t = w ++ rest) [js "import"; js "export"].
Proof.
  intros H. unfold staticImport in H.
  eapply three_groups_parts in H; try reflexivity.
  destruct H as (M1 & M2 & M3 & sa & sa' & sb & sb' & sc & sc'
                 & _ & _ & _ & (HA & _ & <-) & _).
  inversion HA as [| |a b s1 s2 s3 H1 _| | | | | | | |]; subst.
  inversion H1 as [| | |a b s1' s2' Hl|a b s1' s2' Hl| | | | | |]; subst;
    apply Matches_literal in Hl; try discriminate.
  - apply Exists_cons_hd. eauto.
  - apply Exists_cons_tl, Exists_cons_hd. eauto.
Qed.

Lemma dynamicImport_begins idx t m :
  exec_at dynamicImport idx t = Some m ->
  Exists (fun w => exists rest, t = w ++ rest) [js "import"].
Proof.
  intros H. unfold dynamicImport in H.
  eapply three_groups_parts in H; try reflexivity.
  destruct H as (M1 & M2 & M3 & sa & sa' & sb & sb' & sc & sc'
                 & _ & _ & _ & (HA & _ & <-) & _).
  inversion HA as [| |a b s1 s2 s3 Hl _| | | | | | | |]; subst.
  apply Matches_literal in Hl; [|discriminate].
  apply Exists_cons_hd. exists (js "(" ++ m_rest s2). now rewrite Hl.
Qed.

Lemma moduleScript_begins idx t m :
  exec_at moduleScript idx t = Some m ->
  Exists (fun w => exists rest, t = w ++ rest) [js "<script"].
Proof.
  intros H. unfold exec_at in H.
  apply rmatch_sound in H as (st & H & _). unfold moduleScript in H.
  inversion H as [| |a b s1 s2 s3 Hl _| | | | | | | |]; subst.
  apply Matches_literal in Hl; [|discriminate].
  apply Exists_cons_hd. cbn [m_rest] in Hl. eauto.
Qed.

(** X6. A text in which neither [import] nor [export] occurs is not
    changed by the import rewrite (utils.ts 64-74), whatever its path, and
    a document in which [<script] does not occur is not changed by the
    rewrite of the entry tags (utils.ts 127-134). *)
Theorem nothing_to_rewrite : forall path text doc,
  (includes text (js "import") = false ->
   includes text (js "export") = false ->
   rewriteImports path text = text)
  /\ (includes doc (js "<script") = false -> rewriteEntryScripts doc = doc).
Proof.
  intros path text doc. split.
  - intros Hi He. apply rewriteImports_canonical; unfold test.
    + rewrite (search_begins staticImport [js "import"; js "export"] text);
        [reflexivity|exact staticImport_begins|]. now repeat constructor.
    + rewrite (search_begins dynamicImport [js "import"] text);
        [reflexivity|exact dynamicImport_begins|]. now repeat constructor.
  - intros Hd. unfold rewriteEntryScripts. apply replace_all_no_match.
    apply (search_begins moduleScript [js "<script"]);
      [exact moduleScript_begins|]. now repeat constructor.
Qed.

(* ================================================================== *)
(** * Matches that can be computed *)
(* ================================================================== *)

Lemma rmatch_lit w : forall t i caps k,
  rmatch (lit_codes w) (MState (w ++ t) i caps) k
  = k (MState t (i + length w) caps).
Proof.
  induction w as [|c w IH]; intros t i caps k.
  - cbn. now rewrite Nat.add_0_r.
  - destruct w as [|d w].
    + cbn. rewrite N.eqb_refl. now rewrite Nat.add_1_r.
    + change (lit_codes (c :: d :: w))
        with (Seq (Cls (N.eqb c)) (lit_codes (d :: w))).
      cbn [rmatch app m_rest m_idx m_caps]. rewrite N.eqb_refl.
      change (d :: w ++ t) with ((d :: w) ++ t). rewrite IH.
      cbn [length]. do 2 f_equal. lia.
Qed.

Lemma rmatch_cls p c t i caps k :
  p c = true ->
  rmatch (Cls p) (MState (c :: t) i caps) k = k (MState t (S i) caps).
Proof. intros H. cbn. now rewrite H. Qed.

(** A greedy star takes all it can when what follows matches there. *)
Lemma star_greedy_all p k res : forall cs t idx,
  forallb p cs = true ->
  k t (idx + length cs)%nat = Some res ->
  match t with [] => True | c :: _ => p c = false end ->
  star_greedy p (cs ++ t) idx k = Some res.
Proof.
  induction cs as [|c cs IH]; intros t idx Hcs Hk Ht.
  - cbn [app length] in *. rewrite Nat.add_0_r in Hk.
    destruct t as [|c t]; cbn [star_greedy]; [exact Hk|]. now rewrite Ht.
  - cbn [forallb] in Hcs. apply andb_true_iff in Hcs as [Hc Hcs].
    cbn [app star_greedy]. rewrite Hc.
    rewrite (IH t (S idx) Hcs); [reflexivity| |exact Ht].
    cbn [length] in Hk. now rewrite Nat.add_succ_r in Hk.
Qed.

Lemma rmatch_plus p c cs t i caps k res :
  p c = true -> forallb p cs = true ->
  match t with [] => True | d :: _ => p d = false end ->
  k (MState t (i + length (c :: cs)) caps) = Some res ->
  rmatch (Plus p) (MState (c :: cs ++ t) i caps) k = Some res.
Proof.
  intros Hc Hcs Ht Hk. unfold Plus. cbn [rmatch m_rest m_idx m_caps].
  rewrite Hc. apply star_greedy_all; try assumption.
  cbn [length] in Hk. now rewrite Nat.add_succ_r in Hk.
Qed.

(** The matcher does not look at the index but for the anchor of the
    beginning of the input. *)
Lemma star_greedy_shift d p k k' :
  (forall rest idx, k' rest (idx + d)%nat = option_map (shift d) (k rest idx)) ->
  forall rest idx,
    star_greedy p rest (idx + d) k' = option_map (shift d) (star_greedy p rest idx k).
Proof.
  intros Hk. induction rest as [|c rest IH]; intros idx; cbn [star_greedy].
  - apply Hk.
  - destruct (p c); [|apply Hk].
    change (S (idx + d)) with (S idx + d)%nat. rewrite IH.
    destruct (star_greedy p rest (S idx) k); [reflexivity|apply Hk].
Qed.

Lemma star_lazy_shift d p k k' :
  (forall rest idx, k' rest (idx + d)%nat = option_map (shift d) (k rest idx)) ->
  forall rest idx,
    star_lazy p rest (idx + d) k' = option_map (shift d) (star_lazy p rest idx k).
Proof.
  intros Hk. induction rest as [|c rest IH]; intros idx; cbn [star_lazy];
    rewrite Hk.
  - now destruct (k [] idx).
  - destruct (k (c :: rest) idx); [reflexivity|].
    cbn [option_map]. destruct (p c); [|reflexivity].
    change (S (idx + d)) with (S idx + d)%nat. apply IH.
Qed.

Lemma rmatch_shift d r : bolfree r = true -> forall st k k',
  (forall st', k' (shift d st') = option_map (shift d) (k st')) ->
  rmatch r (shift d st) k' = option_map (shift d) (rmatch r st k).
Proof.
  induction r as [|p|a IHa b IHb|a IHa b IHb|n a IHa|g p|a IHa| |];
    intros B st k k' Hk; cbn [rmatch bolfree] in *.
  - apply Hk.
  - destruct st as [rest i caps]. cbn [shift m_rest m_idx m_caps].
    destruct rest as [|c t]; [reflexivity|].
    destruct (p c); [|reflexivity]. apply (Hk (MState t (S i) caps)).
  - apply andb_true_iff in B as [Ba Bb].
    apply IHa; [exact Ba|]. intros st'. now apply IHb.
  - apply andb_true_iff in B as [Ba Bb].
    rewrite (IHa Ba st k k' Hk), (IHb Bb st k k' Hk).
    now destruct (rmatch a st k).
  - apply IHa; [exact B|]. intros st'.
    cbn [shift m_rest m_idx m_caps].
    replace (m_idx st' + d - (m_idx st + d))%nat
      with (m_idx st' - m_idx st)%nat by lia.
    apply (Hk (MState (m_rest st') (m_idx st')
                 ((n, firstn (m_idx st' - m_idx st) (m_rest st)) :: m_caps st'))).
  - cbn [shift m_rest m_idx m_caps].
    destruct g; [apply star_greedy_shift|apply star_lazy_shift];
      intros rest idx; apply (Hk (MState rest idx (m_caps st))).
  - rewrite (IHa B st
               (fun st' => if (m_idx st' =? m_idx st)%nat then None else k st')
               (fun st' => if (m_idx st' =? m_idx (shift d st))%nat
                           then None else k' st')).
    + destruct (rmatch a st _); [reflexivity|apply Hk].
    + intros st'. cbn [shift m_idx].
      replace (m_idx st' + d =? m_idx st + d)%nat
        with (m_idx st' =? m_idx st)%nat.
      * destruct (m_idx st' =? m_idx st)%nat; [reflexivity|apply Hk].
      * destruct (Nat.eqb_spec (m_idx st') (m_idx st)) as [E|E];
          symmetry; [apply Nat.eqb_eq|apply Nat.eqb_neq]; lia.
  - discriminate.
  - cbn [shift m_rest]. destruct (m_rest st); [apply Hk|reflexivity].
Qed.

Lemma exec_at_shift d r idx s :
  bolfree r = true ->
  exec_at r (idx + d) s = option_map (shift d) (exec_at r idx s).
Proof.
  intros B. unfold exec_at.
  apply (rmatch_shift d r B (MState s idx []) Some Some). reflexivity.
Qed.

Lemma replace_all_shift d r f :
  bolfree r = true ->
  forall s skip idx, replace_all r f skip (idx + d) s = replace_all r f skip idx s.
Proof.
  intros B. induction s as [|c s IH]; intros skip idx.
  - destruct skip; [|reflexivity]. cbn [replace_all].
    rewrite (exec_at_shift d r idx [] B).
    destruct (exec_at r idx []) as [m|]; [|reflexivity].
    cbn [option_map shift m_idx m_caps].
    now destruct (m_idx m + d - (idx + d))%nat, (m_idx m - idx)%nat.
  - destruct skip as [|n].
    + cbn [replace_all]. rewrite (exec_at_shift d r idx (c :: s) B).
      destruct (exec_at r idx (c :: s)) as [m|]; cbn [option_map].
      * cbn [shift m_idx m_caps].
        replace (m_idx m + d - (idx + d))%nat with (m_idx m - idx)%nat by lia.
        change (S (idx + d)) with (S idx + d)%nat.
        destruct (m_idx m - idx)%nat; now rewrite IH.
      * change (S (idx + d)) with (S idx + d)%nat. now rewrite IH.
    + cbn [replace_all]. change (S (idx + d)) with (S idx + d)%nat. apply IH.
Qed.

Lemma replace_all_from_zero r f s idx :
  bolfree r = true -> replace_all r f 0 idx s = replace_all r f 0 0 s.
Proof. intros B. apply (replace_all_shift idx r f B s 0%nat 0%nat). Qed.

(** The text before the first match is kept. *)
Lemma replace_all_prefix r f rest : forall pre idx,
  (forall p u i, pre = p ++ u -> u <> [] -> exec_at r i (u ++ rest) = None) ->
  replace_all r f 0 idx (pre ++ rest)
  = pre ++ replace_all r f 0 (idx + length pre) rest.
Proof.
  induction pre as [|c pre IH]; intros idx H.
  - cbn [app length]. now rewrite Nat.add_0_r.
  - cbn [app length]. rewrite replace_all_cons_none.
    + rewrite IH; [now rewrite Nat.add_succ_r|].
      intros p u i -> Hu. apply (H (c :: p)); [reflexivity|exact Hu].
    + apply (H [] (c :: pre)); [reflexivity|discriminate].
Qed.

(** A match is replaced by what the callback makes of its groups, and
    the replacement goes on behind it. *)
Lemma replace_all_match r f M rest idx caps :
  M <> [] ->
  exec_at r idx (M ++ rest) = Some (MState rest (idx + length M) caps) ->
  replace_all r f 0 idx (M ++ rest)
  = f caps ++ replace_all r f 0 (idx + length M) rest.
Proof.
  intros HM E. destruct M as [|c M]; [contradiction|].
  cbn [app] in *. cbn [replace_all]. rewrite E. cbn [m_idx m_caps length].
  replace (idx + S (length M) - idx)%nat with (S (length M)) by lia.
  rewrite replace_all_skip by (rewrite length_app; lia).
  rewrite skipn_app, skipn_all, Nat.sub_diag. cbn [skipn app].
  now rewrite Nat.add_succ_r.
Qed.

Lemma rmatch_seq a b st k :
  rmatch (Seq a b) st k = rmatch a st (fun st' => rmatch b st' k).
Proof. reflexivity. Qed.

Lemma rmatch_group n a st k :
  rmatch (Group n a) st k
  = rmatch a st (fun st' =>
      k (MState (m_rest st') (m_idx st')
           ((n, firstn (m_idx st' - m_idx st) (m_rest st)) :: m_caps st'))).
Proof. reflexivity. Qed.

Lemma entryTag_segments src post :
  entryTag src ++ post
  = js "<script" ++ 32 :: js "type=" ++ DQ :: js "module" ++ DQ :: 32
      :: js "src=" ++ DQ :: src ++ DQ :: js "></script>" ++ post.
Proof. unfold entryTag, dq. now norm_app. Qed.

Lemma length_entryTag src : length (entryTag src) = (38 + length src)%nat.
Proof. unfold entryTag. rewrite !length_app. cbn. lia. Qed.

Ltac match_literal := rewrite ?rmatch_seq; unfold Lit; rewrite rmatch_lit; cbv beta.
Ltac match_class := rewrite ?rmatch_seq, rmatch_cls by reflexivity; cbv beta.
Ltac match_space :=
  rewrite ?rmatch_seq;
  match goal with
  | |- rmatch (Plus ?p) (MState (?c :: ?t) ?i ?caps) ?k = Some ?res =>
      apply (rmatch_plus p c [] t i caps k res);
      [reflexivity|reflexivity|vm_compute; reflexivity|cbv beta]
  end.

Lemma moduleScript_entryTag src post idx :
  src <> [] -> forallb not_quote src = true ->
  exec_at moduleScript idx (entryTag src ++ post)
  = Some (MState post (idx + length (entryTag src)) [(1%nat, src)]).
Proof.
  intros Hne Hsrc. destruct src as [|c src]; [contradiction|].
  cbn [forallb] in Hsrc. apply andb_true_iff in Hsrc as [Hc Hsrc].
  rewrite entryTag_segments, length_entryTag.
  unfold exec_at, moduleScript.
  match_literal. match_space. match_literal. match_class. match_literal.
  match_class. match_space. match_literal. match_class.
  rewrite rmatch_seq, rmatch_group.
  apply (rmatch_plus not_quote c src); [exact Hc|exact Hsrc|reflexivity|].
  cbv beta. cbn [m_rest m_idx m_caps].
  match_class. match_literal.
  f_equal. f_equal.
  - cbn. lia.
  - f_equal. f_equal.
    match goal with |- firstn ?n _ = _ =>
      replace n with (length (c :: src)) by (cbn; lia) end.
    change (c :: src ++ ?t) with ((c :: src) ++ t).
    now rewrite firstn_app, firstn_all, Nat.sub_diag, app_nil_r.
Qed.

Lemma script_does_not_overlap pre p u rest rest' :
  includes pre (js "<script") = false -> pre = p ++ u -> u <> [] ->
  u ++ js "<script" ++ rest <> js "<script" ++ rest'.
Proof.
  intros Hpre -> Hu H.
  do 7 (destruct u as [|? u]; [try contradiction; cbn in H; congruence|]).
  cbn in H. injection H as -> -> -> -> -> -> -> _.
  apply includes_false with (pre := p) (post := u) in Hpre.
  now apply Hpre.
Qed.

(** X7. The rewrite of the entry tags (utils.ts 127-134), tag by tag: a
    document that begins with a text free of [<script], followed by a
    module script tag spelled as the shell spells it, with a source that
    is not empty and holds no quote, keeps the text, turns the tag into
    an inline module that imports the source as resolved from
    [index.html], and goes on in the same way with what follows. *)
Theorem entry_tag_becomes_inline_import : forall pre src post,
  includes pre (js "<script") = false ->
  src <> [] -> forallb not_quote src = true ->
  rewriteEntryScripts (pre ++ entryTag src ++ post)
  = pre
    ++ (js "<script type=" ++ dq ++ js "module" ++ dq ++ js ">import " ++ dq
        ++ resolveModuleSpecifier (js "index.html") src ++ dq ++ js "</script>")
    ++ rewriteEntryScripts post.
Proof.
  intros pre src post Hpre Hne Hsrc. unfold rewriteEntryScripts.
  rewrite replace_all_prefix.
  - f_equal.
    rewrite (replace_all_match moduleScript inlineEntry (entryTag src) post
               _ [(1%nat, src)]).
    + f_equal. now apply replace_all_from_zero.
    + unfold entryTag. now destruct (js "<script type=").
    + now apply moduleScript_entryTag.
  - intros p u i Hp Hu.
    destruct (exec_at moduleScript i (u ++ entryTag src ++ post)) as [m|] eqn:E;
      [|reflexivity].
    apply moduleScript_begins in E. inversion E as [w ws [rest' Hw]|w ws Hw];
      [|inversion Hw]. subst.
    exfalso. revert Hw. unfold entryTag.
    change (js "<script type=") with (js "<script" ++ js " type=").
    rewrite <- !app_assoc.
    now apply (script_does_not_overlap (p ++ u) p u).
Qed.

Lemma entry_tag_becomes_inline_import_witness :
  rewriteEntryScripts
    (js "<body><div id='app'></div>" ++ entryTag (js "./src/main.js")
       ++ js "</body>")
  = js "<body><div id='app'></div>"
    ++ (js "<script type=" ++ dq ++ js "module" ++ dq ++ js ">import " ++ dq
        ++ js "src/main.js" ++ dq ++ js "</script>")
    ++ js "</body>".
Proof.
  rewrite (entry_tag_becomes_inline_import (js "<body><div id='app'></div>")
             (js "./src/main.js") (js "</body>"));
    [vm_compute; reflexivity|vm_compute; reflexivity|discriminate
    |vm_compute; reflexivity].
Defined.

(* ================================================================== *)
(** * The code units of a module URI *)
(* ================================================================== *)

Lemma split_Forall (P : N -> Prop) sep s :
  Forall P s -> Forall (Forall P) (split sep s).
Proof.
  induction 1 as [|c t Hc Ht IH]; cbn [split]; [repeat constructor|].
  destruct (c =? sep); [constructor; [constructor|exact IH]|].
  destruct (split sep t) as [|h r]; [repeat constructor; assumption|].
  inversion IH; subst. constructor; [now constructor|assumption].
Qed.

Lemma join_Forall (P : N -> Prop) sep parts :
  Forall P sep -> Forall (Forall P) parts -> Forall P (join sep parts).
Proof.
  intros Hsep. induction 1 as [|p parts Hp Hparts IH]; [constructor|].
  cbn [join]. destruct parts as [|q parts]; [exact Hp|].
  apply Forall_app. split; [exact Hp|]. apply Forall_app. now split.
Qed.

Lemma resolve_Forall (P : N -> Prop) sourcePath specifier :
  P SLASH -> Forall P sourcePath -> Forall P specifier ->
  Forall P (resolveModuleSpecifier sourcePath specifier).
Proof.
  intros Hslash Hpath Hspec. unfold resolveModuleSpecifier.
  destruct (negb (startsWith specifier (js ".")) &&
            negb (startsWith specifier (js "/"))); [exact Hspec|].
  destruct (startsWith specifier (js "/")).
  - destruct Hspec; [constructor|assumption].
  - apply join_Forall; [now repeat constructor|].
    apply fold_resolve_Forall.
    + apply removelast_Forall. now apply split_Forall.
    + eapply Forall_impl; [|apply split_Forall; exact Hspec]. auto.
Qed.

Lemma only_Forall (P : N -> Prop) path s t :
  P SLASH -> Forall P path ->
  specifiersOnly path s t -> Forall P s -> Forall P t.
Proof.
  intros Hslash Hpath.
  induction 1 as [|c s t _ IH|q c spec q' s t _ _ _ _ _ IH]; intros H.
  - constructor.
  - inversion H; subst. constructor; auto.
  - inversion H as [|x l Hq Hrest]; subst.
    change (c :: spec ++ q' :: s) with ((c :: spec) ++ q' :: s) in Hrest.
    apply Forall_app in Hrest as [Hspec Hrest].
    inversion Hrest; subst.
    constructor; [exact Hq|]. apply Forall_app. split.
    + now apply resolve_Forall.
    + constructor; auto.
Qed.

Lemma processFile_Forall (P : N -> Prop) path file :
  P SLASH -> Forall P path -> Forall P (content file) ->
  Forall P (processFile path file).
Proof.
  intros Hslash Hpath Htext. unfold processFile.
  destruct (isSourcePath path); [|exact Htext]. unfold rewriteImports.
  apply (only_Forall P path _ _ Hslash Hpath (dynamicImport_only path _)).
  apply (only_Forall P path _ _ Hslash Hpath (staticImport_only path _)).
  exact Htext.
Qed.

Lemma hex_upper_safe n : n < 16 -> uriSafe (hex_upper n) = true.
Proof.
  intros Hn. unfold uriSafe, unreserved, is_alnum, is_digit, hex_upper.
  destruct (N.ltb_spec n 10) as [H|H].
  - assert ((48 <=? 48 + n) = true) as -> by (apply N.leb_le; lia).
    assert ((48 + n <=? 57) = true) as -> by (apply N.leb_le; lia).
    reflexivity.
  - assert ((65 <=? 55 + n) = true) as -> by (apply N.leb_le; lia).
    assert ((55 + n <=? 90) = true) as -> by (apply N.leb_le; lia).
    cbn [andb]. now rewrite orb_true_r.
Qed.

Lemma percent_safe octets :
  Forall (fun b => b < 256) octets -> forallb uriSafe (percent octets) = true.
Proof.
  induction 1 as [|b octets Hb _ IH]; [reflexivity|].
  unfold percent in *. cbn [flat_map app forallb]. rewrite IH.
  rewrite !hex_upper_safe.
  - reflexivity.
  - apply N.mod_lt. discriminate.
  - apply N.Div0.div_lt_upper_bound. exact Hb.
Qed.

Lemma continuation_octet x : 128 + x mod 64 < 256.
Proof. pose proof (N.mod_lt x 64). lia. Qed.

Lemma utf8_octets cp : cp < 1114112 -> Forall (fun b => b < 256) (utf8 cp).
Proof.
  intros Hcp. unfold utf8.
  destruct (N.ltb_spec cp 128); [repeat constructor; lia|].
  destruct (N.ltb_spec cp 2048).
  { repeat constructor; [|apply continuation_octet].
    assert (cp / 64 < 32) by (apply N.Div0.div_lt_upper_bound; lia). lia. }
  destruct (N.ltb_spec cp 65536).
  { repeat constructor; try apply continuation_octet.
    assert (cp / 4096 < 16) by (apply N.Div0.div_lt_upper_bound; lia). lia. }
  repeat constructor; try apply continuation_octet.
  assert (cp / 262144 < 5) by (apply N.Div0.div_lt_upper_bound; lia). lia.
Qed.

Lemma encode_safe : forall n s encoded,
  (length s <= n)%nat -> codeUnits s ->
  encodeURIComponent s = Ok encoded -> forallb uriSafe encoded = true.
Proof.
  induction n as [|n IH]; intros s encoded Hlen Hs H.
  - destruct s; [|simpl in Hlen; lia]. now injection H as <-.
  - destruct s as [|c t]; [now injection H as <-|].
    simpl in Hlen. inversion Hs as [|x l Hc Ht]; subst.
    cbn [encodeURIComponent] in H.
    destruct (unreserved c) eqn:Hu.
    + destruct (encodeURIComponent t) as [r|] eqn:E; cbn [bind] in H;
        [|discriminate].
      injection H as <-. cbn [forallb]. unfold uriSafe at 1. rewrite Hu.
      apply (IH t r); [lia|exact Ht|exact E].
    + destruct (is_trail c) eqn:Htr; [discriminate|].
      destruct (is_lead c) eqn:Hld.
      * destruct t as [|d t']; [discriminate|].
        destruct (is_trail d) eqn:Hd; [|discriminate].
        destruct (encodeURIComponent t') as [r|] eqn:E; cbn [bind] in H;
          [|discriminate].
        injection H as <-. inversion Ht; subst.
        rewrite forallb_app, percent_safe.
        -- apply (IH t' r); [simpl in Hlen; lia|assumption|exact E].
        -- apply utf8_octets.
           unfold is_lead in Hld. unfold is_trail in Hd.
           apply andb_true_iff in Hld as [L1 L2].
           apply andb_true_iff in Hd as [D1 D2].
           apply N.leb_le in L1, L2, D1, D2. lia.
      * destruct (encodeURIComponent t) as [r|] eqn:E; cbn [bind] in H;
          [|discriminate].
        injection H as <-.
        rewrite forallb_app, percent_safe.
        -- apply (IH t r); [lia|exact Ht|exact E].
        -- apply utf8_octets. lia.
Qed.

Lemma codeUnits_checked (files : FileSystem) :
  forallb (fun entry =>
             forallb (fun c => c <? 65536) (fst entry)
             && forallb (fun c => c <? 65536) (content (snd entry))) files = true ->
  Forall (fun entry =>
            codeUnits (fst entry) /\ codeUnits (content (snd entry))) files.
Proof.
  intros H. apply Forall_forall. intros entry Hin.
  apply (proj1 (forallb_forall _ _) H) in Hin.
  apply andb_true_iff in Hin as [H1 H2].
  split; apply Forall_forall; intros c Hc; apply N.ltb_lt;
    [exact (proj1 (forallb_forall _ _) H1 c Hc)
    |exact (proj1 (forallb_forall _ _) H2 c Hc)].
Qed.

(** X8. What the import map holds for a module (utils.ts 92-96) is a
    data URI whose payload went through [encodeURIComponent]: when the
    paths and the contents of the files are strings of sixteen-bit code
    units, every value of the import map is one of the CDN table or the
    prefix [data:text/javascript;charset=utf-8,] followed by nothing but
    letters, digits, the marks [-_.!~*'()] and percent escapes. *)
Theorem module_uris_are_percent_encoded :
  forall (files : FileSystem) (m : obj jsstring),
    Forall (fun entry =>
              codeUnits (fst entry) /\ codeUnits (content (snd entry))) files ->
    imports files = Ok m ->
    forall k v,
      obj_get m k = Some v ->
      obj_get cdnImports k = Some v
      \/ exists encoded,
           v = js "data:text/javascript;charset=utf-8," ++ encoded
           /\ forallb uriSafe encoded = true.
Proof.
  intros files m Hfiles Hm k v Hget. unfold imports in Hm.
  destruct (forEach_register_origin _ _ _ _ _ Hm Hget)
    as [H|(path & text & encoded & Hin & Hp & Hk & He & ->)]; [now left|].
  right. exists encoded. split; [reflexivity|].
  apply processed_entry_origin in Hin as (file & Hfile & ->).
  apply (proj1 (Forall_forall _ _) Hfiles) in Hfile as [Hpath Htext].
  apply (encode_safe _ _ _ (Nat.le_refl _)) in He; [exact He|].
  apply processFile_Forall; [reflexivity|exact Hpath|exact Htext].
Qed.

Lemma module_uris_are_percent_encoded_witness :
  exists encoded,
    obj_get scenarioImports (js "src/main.js")
    = Some (js "data:text/javascript;charset=utf-8," ++ encoded)
    /\ forallb uriSafe encoded = true.
Proof.
  destruct (obj_get scenarioImports (js "src/main.js")) as [v|] eqn:E;
    [|vm_compute in E; discriminate].
  destruct (module_uris_are_percent_encoded scenarioFiles scenarioImports)
    with (k := js "src/main.js") (v := v) as [H|(encoded & -> & H)].
  - apply codeUnits_checked. vm_compute. reflexivity.
  - vm_compute. reflexivity.
  - exact E.
  - vm_compute in H. discriminate.
  - exists encoded. auto.
Defined.

(* ================================================================== *)
(** * The session of the editor *)
(* ================================================================== *)

Lemma executeTool_create path text st :
  Session.executeTool (js "create_file") path text st
  = (Session.set_app st (fst (App.create_file path text (Session.app st))),
     snd (App.create_file path text (Session.app st))).
Proof. reflexivity. Qed.

Lemma executeTool_read path text st :
  Session.executeTool (js "read_file") path text st
  = match Session.get_property (Session.filesRef st) path with
    | Session.Own file => (st, App.VString (content file))
    | Session.Inherited => (st, App.VUndefined)
    | Session.Missing =>
        (st, App.VString (js "Error executing tool 'read_file': File '"
                            ++ path ++ js "' not found."))
    end.
Proof.
  change (Session.executeTool (js "read_file") path text st)
    with (match Session.get_property (Session.filesRef st) path with
          | Session.Own {| content := found |} => (st, App.VString found)
          | Session.Inherited => (st, App.VUndefined)
          | Session.Missing =>
              (st, App.VString (js "Error executing tool '" ++ js "read_file"
                                  ++ js "': " ++ js "File '" ++ path
                                  ++ js "' not found."))
          end).
  destruct (Session.get_property (Session.filesRef st) path) as [[n c l]| |];
    reflexivity.
Qed.

Lemma created_files path text a :
  str_eqb path (js "index.html") = false ->
  App.files (fst (App.create_file path text a))
  = obj_define path
      {| name := Some path; content := text;
         language := Some (getLanguageFromFilename path) |}
      (App.files a)
  /\ App.selectedFile (fst (App.create_file path text a)) = Some path.
Proof. intros H. unfold App.create_file. rewrite H. split; reflexivity. Qed.

Lemma created_shell text a :
  fst (App.create_file (js "index.html") text a) = a.
Proof. reflexivity. Qed.

Lemma get_property_define_same path file files :
  Session.get_property (obj_define path file files) path = Session.Own file.
Proof. unfold Session.get_property. now rewrite obj_get_define_same. Qed.

Lemma get_property_define_other path other file files :
  other <> path ->
  Session.get_property (obj_define path file files) other
  = Session.get_property files other.
Proof.
  intros H. unfold Session.get_property. now rewrite obj_get_define_other.
Qed.

(** X9. A file that [create_file] has written (App.tsx 160-175) is what
    [read_file] (lines 177-182) gives back for its path once the effect
    of lines 126-128 has run, and not before: until then [read_file]
    answers what it answered before the call.  The answers for every
    other path are the same as without the call.  A call for
    [index.html] changes no answer at all. *)
Theorem created_file_is_read_after_render :
  forall (path text : jsstring) (st : Session.Hooks),
    Session.read path (Session.render (Session.created path text st))
    = (if str_eqb path (js "index.html")
       then Session.read path (Session.render st)
       else App.VString text)
    /\ Session.read path (Session.created path text st) = Session.read path st
    /\ (forall other,
          other <> path ->
          Session.read other (Session.render (Session.created path text st))
          = Session.read other (Session.render st)).
Proof.
  intros path text st. unfold Session.read, Session.created.
  rewrite executeTool_create. cbn [fst].
  rewrite !executeTool_read.
  destruct (str_eqb path (js "index.html")) eqn:E.
  - apply str_eqb_eq in E. subst path. rewrite created_shell.
    repeat apply conj.
    + reflexivity.
    + cbn [Session.set_app Session.filesRef].
      now destruct (Session.get_property _ _).
    + intros other _. now rewrite !executeTool_read.
  - destruct (created_files path text (Session.app st) E) as [Hfiles _].
    repeat apply conj.
    + cbn [Session.render Session.set_app Session.app Session.filesRef].
      rewrite Hfiles, get_property_define_same. reflexivity.
    + cbn [Session.set_app Session.filesRef].
      now destruct (Session.get_property _ _).
    + intros other Hother. rewrite !executeTool_read.
      cbn [Session.render Session.set_app Session.app Session.filesRef].
      rewrite Hfiles, get_property_define_other by exact Hother.
      now destruct (Session.get_property _ other).
Qed.

Lemma consistent_initial : Session.consistent Session.initial.
Proof.
  unfold Session.consistent, Session.initial.
  cbn [Session.app Session.filesRef App.files App.selectedFile].
  repeat apply conj.
  - reflexivity.
  - unfold INITIAL_FILES. cbn. repeat constructor. intros [].
  - unfold INITIAL_FILES. cbn. repeat constructor. intros [].
  - intros k file H. apply obj_get_In in H. destruct H as [[= <- <-]|[]].
    split; reflexivity.
  - intros k file H. apply obj_get_In in H. destruct H as [[= <- <-]|[]].
    split; reflexivity.
  - auto.
  - exists (js "index.html"). split; reflexivity.
Qed.

Lemma recorded_define path file files :
  name file = Some path ->
  language file = Some (getLanguageFromFilename path) ->
  Session.recorded files -> Session.recorded (obj_define path file files).
Proof.
  intros Hn Hl Hrec k f H.
  destruct (str_eqb k path) eqn:E.
  - apply str_eqb_eq in E. subst k. rewrite obj_get_define_same in H.
    injection H as <-. now split.
  - apply str_eqb_neq in E. rewrite obj_get_define_other in H by exact E.
    now apply Hrec.
Qed.

Lemma has_key_define (path k : jsstring) (file : ProjectFile) files :
  has_key files k = true -> has_key (obj_define path file files) k = true.
Proof. rewrite !has_key_In, keys_define. tauto. Qed.

Lemma has_key_define_same (path : jsstring) (file : ProjectFile) files :
  has_key (obj_define path file files) path = true.
Proof. unfold has_key. now rewrite obj_get_define_same. Qed.

Lemma consistent_define st path file :
  path <> js "index.html" ->
  name file = Some path ->
  language file = Some (getLanguageFromFilename path) ->
  Session.consistent st ->
  Session.consistent
    (Session.set_app st
       {| App.files := obj_define path file (App.files (Session.app st));
          App.selectedFile := Some path |}).
Proof.
  intros Hne Hn Hl (Hshell & Hnd & Hndr & Hrec & Hrecr & Hsub & _).
  unfold Session.consistent.
  cbn [Session.set_app Session.app Session.filesRef App.files App.selectedFile].
  repeat apply conj; try assumption.
  - rewrite obj_get_define_other; [exact Hshell|congruence].
  - now apply NoDup_keys_define.
  - now apply recorded_define.
  - intros k Hk. apply has_key_define. auto.
  - exists path. split; [reflexivity|apply has_key_define_same].
Qed.

Lemma consistent_step st e :
  Session.consistent st -> Session.consistent (Session.step st e).
Proof.
  intros Hst. destruct e as [tool path text|newText|i|open|]; cbn [Session.step].
  - unfold Session.executeTool.
    destruct (str_eqb tool (js "create_file")).
    + cbn [fst]. unfold App.create_file.
      destruct (str_eqb path (js "index.html")) eqn:E.
      * cbn [fst]. now destruct st.
      * cbn [fst]. apply str_eqb_neq in E.
        now apply consistent_define.
    + destruct (str_eqb tool (js "read_file")).
      { now destruct (Session.get_property _ _) as [[? ? ?]| |]. }
      destruct (str_eqb tool (js "list_files")); [exact Hst|].
      destruct (str_eqb tool (js "update_project_state")); exact Hst.
  - unfold Session.edit, App.handleFileChange.
    destruct Hst as (Hshell & Hnd & Hndr & Hrec & Hrecr & Hsub & k & Hsel & Hk).
    rewrite Hsel. destruct k as [|c sel].
    { cbn [fst]. destruct st. unfold Session.consistent. cbn in *.
      repeat apply conj; try assumption. exists []. auto. }
    destruct (str_eqb (c :: sel) (js "index.html")) eqn:E; cbn [negb fst].
    { destruct st. unfold Session.consistent. cbn in *.
      repeat apply conj; try assumption. exists (c :: sel). auto. }
    unfold has_key in Hk.
    destruct (obj_get (App.files (Session.app st)) (c :: sel)) as [file|] eqn:Ef;
      [|discriminate].
    destruct (Hrec _ _ Ef) as [Hn Hl].
    assert (Hc : Session.consistent
                   (Session.set_app st
                      {| App.files :=
                           obj_define (c :: sel)
                             {| name := name file; content := newText;
                                language := language file |}
                             (App.files (Session.app st));
                         App.selectedFile := Some (c :: sel) |})).
    { apply str_eqb_neq in E. apply consistent_define; try assumption.
      unfold Session.consistent. repeat apply conj; try assumption.
      exists (c :: sel). split; [exact Hsel|]. unfold has_key. now rewrite Ef. }
    exact Hc.
  - destruct (nth_error (Session.filesRef st) i) as [[k file]|] eqn:E;
      [|exact Hst].
    destruct Hst as (Hshell & Hnd & Hndr & Hrec & Hrecr & Hsub & _).
    apply nth_error_In in E.
    apply (In_obj_get _ _ _ _ Hndr) in E.
    destruct (Hrecr _ _ E) as [Hn _].
    unfold Session.consistent, Session.handleFileSelect.
    cbn [Session.app Session.filesRef App.files App.selectedFile snd].
    repeat apply conj; try assumption.
    exists k. split; [exact Hn|]. apply Hsub. unfold has_key. now rewrite E.
  - exact Hst.
  - destruct Hst as (Hshell & Hnd & Hndr & Hrec & Hrecr & Hsub & Hsel).
    unfold Session.consistent, Session.render.
    cbn [Session.app Session.filesRef]. repeat apply conj; auto.
Qed.

Lemma consistent_from st events :
  Session.consistent st -> Session.consistent (fold_left Session.step events st).
Proof.
  revert st. induction events as [|e events IH]; intros st H; [exact H|].
  cbn [fold_left]. apply IH. now apply consistent_step.
Qed.

Lemma consistent_run events : Session.consistent (Session.run events).
Proof. apply consistent_from, consistent_initial. Qed.

(** X10. Whatever tool calls, edits, clicks in the explorer and renders
    have happened since the start (App.tsx 114-128, 158-200, 310-325 and
    FileExplorer.tsx 43-46): the record of [index.html] is the one of
    [INITIAL_FILES]; every record carries its own path as its name and
    the language of that path; no path is listed twice; and the editor
    (lines 434-435) is given two strings, never [undefined], and reading
    them never fails. *)
Theorem session_invariant : forall events : list Session.event,
  obj_get (App.files (Session.app (Session.run events))) (js "index.html")
  = obj_get INITIAL_FILES (js "index.html")
  /\ Session.recorded (App.files (Session.app (Session.run events)))
  /\ NoDup (keys (App.files (Session.app (Session.run events))))
  /\ exists text lang,
       Session.editorProps (Session.run events)
       = Session.Editor (App.VString text) (App.VString lang).
Proof.
  intros events.
  destruct (consistent_run events)
    as (Hshell & Hnd & _ & Hrec & _ & _ & k & Hsel & Hk).
  repeat apply conj; try assumption.
  unfold Session.editorProps. rewrite Hsel.
  destruct k as [|c sel]; [now exists [], (js "plaintext")|].
  unfold has_key in Hk. unfold Session.get_property.
  destruct (obj_get _ (c :: sel)) as [file|] eqn:E; [|discriminate].
  destruct (Hrec _ _ E) as [_ ->]. eauto.
Qed.

Lemma step_keeps_files st e k :
  has_key (App.files (Session.app st)) k = true ->
  has_key (App.files (Session.app (Session.step st e))) k = true.
Proof.
  intros H. destruct e as [tool path text|newText|i|open|]; cbn [Session.step].
  - unfold Session.executeTool.
    destruct (str_eqb tool (js "create_file")).
    + cbn [fst Session.set_app Session.app]. unfold App.create_file.
      destruct (str_eqb path (js "index.html")); cbn [fst App.files];
        [exact H|]. now apply has_key_define.
    + destruct (str_eqb tool (js "read_file")).
      { now destruct (Session.get_property _ _) as [[? ? ?]| |]. }
      destruct (str_eqb tool (js "list_files")); [exact H|].
      destruct (str_eqb tool (js "update_project_state")); exact H.
  - unfold Session.edit, App.handleFileChange.
    cbn [Session.set_app Session.app].
    destruct (App.selectedFile (Session.app st)) as [[|c sel]|]; try exact H.
    destruct (negb (str_eqb (c :: sel) (js "index.html"))); cbn [fst App.files];
      [|exact H].
    now apply has_key_define.
  - now destruct (nth_error (Session.filesRef st) i).
  - exact H.
  - exact H.
Qed.

(** X11. No file is ever removed: a path that [files] holds at some
    point of a session is held at every later point, whatever the tool
    calls and the edits in between (App.tsx 165-172 and 312-318 are the
    only writes, and both spread the previous object). *)
Theorem files_are_never_removed :
  forall (events more : list Session.event) (path : jsstring),
    has_key (App.files (Session.app (Session.run events))) path = true ->
    has_key (App.files (Session.app (Session.run (events ++ more)))) path = true.
Proof.
  intros events more path. unfold Session.run. rewrite fold_left_app.
  generalize (fold_left Session.step events Session.initial).
  induction more as [|e more IH]; intros st H; [exact H|].
  cbn [fold_left]. apply IH. now apply step_keeps_files.
Qed.

Lemma files_are_never_removed_witness :
  has_key
    (App.files
       (Session.app
          (Session.run
             ([Session.Tool (js "create_file") (js "src/main.js") (js "let a;")]
              ++ [Session.Render; Session.Click 1; Session.Change (js "let b;");
                  Session.Tool (js "create_file") (js "style.css") []]))))
    (js "src/main.js") = true.
Proof.
  apply (files_are_never_removed
           [Session.Tool (js "create_file") (js "src/main.js") (js "let a;")]).
  vm_compute. reflexivity.
Defined.

(* ================================================================== *)
(** * The input of the chat *)
(* ================================================================== *)

Lemma trimStart_empty s :
  Chat.trimStart s = [] <-> forallb is_space s = true.
Proof.
  induction s as [|c s IH]; cbn [Chat.trimStart forallb]; [tauto|].
  destruct (is_space c); cbn [andb]; [exact IH|]. split; discriminate.
Qed.

Lemma trimStart_spaces s :
  forallb is_space (Chat.trimStart s) = forallb is_space s.
Proof.
  induction s as [|c s IH]; cbn [Chat.trimStart]; [reflexivity|].
  destruct (is_space c) eqn:E; [|reflexivity].
  cbn [forallb]. now rewrite E.
Qed.

Lemma forallb_rev (p : N -> bool) s : forallb p (rev s) = forallb p s.
Proof.
  induction s as [|c s IH]; [reflexivity|].
  cbn [rev forallb]. rewrite forallb_app, IH. cbn [forallb].
  rewrite andb_true_r. apply andb_comm.
Qed.

Lemma trim_empty s : Chat.truthy (Chat.trim s) = negb (forallb is_space s).
Proof.
  unfold Chat.trim.
  destruct (forallb is_space s) eqn:E.
  - assert (Chat.trimStart s = []) as -> by now apply trimStart_empty.
    reflexivity.
  - destruct (rev (Chat.trimStart (rev (Chat.trimStart s)))) as [|c r] eqn:Er;
      [|reflexivity].
    apply (f_equal (@rev N)) in Er. rewrite rev_involutive in Er.
    cbn [rev] in Er. apply trimStart_empty in Er.
    rewrite forallb_rev, trimStart_spaces in Er. congruence.
Qed.

(** X12. The chat sends a message exactly when the input holds a code
    unit that is not white space and no answer is being generated
    (ChatInterface.tsx 23-27): the message is then the input as typed,
    white space at its ends included, and the input is emptied; otherwise
    nothing is sent and the input stays.  A key does the same when it is
    Enter without Shift, and nothing otherwise (lines 29-34). *)
Theorem chat_sends_what_was_typed :
  forall (key input : jsstring) (shiftKey isGenerating : bool),
    Chat.handleSubmit input isGenerating
    = (if forallb is_space input || isGenerating
       then {| Chat.sent := None; Chat.input := input |}
       else {| Chat.sent := Some input; Chat.input := [] |})
    /\ Chat.handleKeyDown key shiftKey input isGenerating
       = (if str_eqb key (js "Enter") && negb shiftKey
             && negb (forallb is_space input) && negb isGenerating
          then {| Chat.sent := Some input; Chat.input := [] |}
          else {| Chat.sent := None; Chat.input := input |}).
Proof.
  intros key input shiftKey isGenerating.
  assert (H : Chat.handleSubmit input isGenerating
              = if forallb is_space input || isGenerating
                then {| Chat.sent := None; Chat.input := input |}
                else {| Chat.sent := Some input; Chat.input := [] |}).
  { unfold Chat.handleSubmit. now rewrite trim_empty, negb_involutive. }
  split; [exact H|]. unfold Chat.handleKeyDown. rewrite H.
  destruct (str_eqb key (js "Enter") && negb shiftKey); [|reflexivity].
  now destruct (forallb is_space input), isGenerating.
Qed.

(** X13. The skeleton of the preview is out of reach of a session:
    whatever has happened since the start, [buildPreviewContent]
    (utils.ts 53-58 and 127-161, called at App.tsx 155) works on the
    content of [index.html] as [INITIAL_FILES] has it, in which the one
    entry tag has become the inline import of [src/main.js]; the files of
    the session reach the document through the import map and the style
    block alone. *)
Theorem preview_skeleton_is_the_shell : forall events : list Session.event,
  entryDocument (App.files (Session.app (Session.run events))) = shell_content
  /\ rewriteEntryScripts shell_content
     = replace_str shell_content (entryTag (js "./src/main.js")) inlineMainImport
  /\ buildPreviewContent (App.files (Session.app (Session.run events)))
     = (m <- imports (App.files (Session.app (Session.run events))) ;;
        Ok (injectBody
              (injectHead (rewriteEntryScripts shell_content)
                 (importMapScript m)
                 (styleTag (App.files (Session.app (Session.run events))))))).
Proof.
  intros events.
  destruct (consistent_run events) as (Hshell & _).
  assert (Hdoc : entryDocument (App.files (Session.app (Session.run events)))
                 = shell_content).
  { unfold entryDocument. rewrite Hshell. reflexivity. }
  repeat apply conj.
  - exact Hdoc.
  - vm_compute. reflexivity.
  - unfold buildPreviewContent, assemble. now rewrite Hdoc.
Qed.
